(** * Binary search tree of numbers: [Node] objects in a store, [Tree] methods over it

    The embedding follows [node.js] and the [Tree] class.  [Node] objects
    live in a store and are mutated in place; a method is a computation
    over the store, the [root] field of the tree and the state its
    callbacks own.  Recursive methods and loops take a fuel argument, and
    every result below says how much fuel is enough.

    What is modelled of the host language:
    - a number is [NaN] or an integer: the methods only test for [NaN],
      compare keys and take the sign of a difference;
    - a value is [undefined], [null], a boolean, a number, a string, a
      [Node] or a function; the conversion of strings to numbers is a
      parameter, and so is the text of a number where a method prints one;
    - an array is a list, one value at every index;
    - a thrown [Error] carries its message, a [TypeError] of the host does
      not. *)

From Stdlib Require Import ZArith Lia Ascii.
From stdpp Require Import base list sets strings pretty sorting.

(** ** Numbers

    The methods only compare keys ([===], [<], [>]) and subtract them to
    sort.  [NaN] is kept apart because the guards of the public methods
    test for it; every other number is represented by an integer. *)

Inductive number : Type :=
  | NaN
  | Num (z : Z).

#[global] Instance number_eq_dec : EqDecision number.
Proof. solve_decision. Defined.

(** [a === b] on numbers: [NaN] is equal to nothing. *)
Definition number_eq (a b : number) : bool :=
  match a, b with
  | Num x, Num y => (x =? y)%Z
  | _, _ => false
  end.

(** [a < b]: false as soon as one side is [NaN]. *)
Definition number_lt (a b : number) : bool :=
  match a, b with
  | Num x, Num y => (x <? y)%Z
  | _, _ => false
  end.

(** [a > b]. *)
Definition number_gt (a b : number) : bool := number_lt b a.

(** [a - b]. *)
Definition number_sub (a b : number) : number :=
  match a, b with
  | Num x, Num y => Num (x - y)
  | _, _ => NaN
  end.

(** ** The store *)

Definition loc := nat.

(** What a variable of type [?Node] can hold, and [undefined] for a
    parameter the caller did not pass. *)
Inductive NodeRef : Type :=
  | undefined
  | null
  | ref (a : loc).

#[global] Instance NodeRef_eq_dec : EqDecision NodeRef.
Proof. solve_decision. Defined.

(** [class Node { data; left; right }]. *)
Record Node : Type := mkNode {
  data : number;
  left : NodeRef;
  right : NodeRef
}.

(** The store of [Node] objects, the [root] field of the tree object, and
    the state owned by the caller's callbacks. *)
Record World (U : Type) : Type := mkWorld {
  heap : list Node;
  root : NodeRef;
  user : U
}.
Arguments mkWorld {U} _ _ _.
Arguments heap {U} _.
Arguments root {U} _.
Arguments user {U} _.

Inductive Exception : Type :=
  | Error (message : string)
  | TypeError.

(** A call returns, throws (the store keeps what was written before the
    throw), or is [Stuck]: out of fuel, or a reference to no object, which
    no program can build. *)
Inductive Outcome (U A : Type) : Type :=
  | Returns (a : A) (w : World U)
  | Throws (e : Exception) (w : World U)
  | Stuck.
Arguments Returns {U A} _ _.
Arguments Throws {U A} _ _.
Arguments Stuck {U A}.

Definition M (U A : Type) : Type := World U -> Outcome U A.

Definition ret {U A} (a : A) : M U A := fun w => Returns a w.

Definition bind {U A B} (m : M U A) (k : A -> M U B) : M U B :=
  fun w =>
    match m w with
    | Returns a w' => k a w'
    | Throws e w' => Throws e w'
    | Stuck => Stuck
    end.

Definition throw {U A} (e : Exception) : M U A := fun w => Throws e w.

Definition stuck {U A} : M U A := fun _ => Stuck.

Declare Scope js_scope.
Delimit Scope js_scope with js.
Notation "x <- m ;; k" := (bind m (fun x => k))
  (at level 100, m at next level, right associativity) : js_scope.
Notation "m ;;; k" := (bind m (fun _ => k))
  (at level 100, right associativity) : js_scope.
Local Open Scope js_scope.

(** [node === null]. *)
Definition is_null (n : NodeRef) : bool :=
  match n with
  | null => true
  | _ => false
  end.

(** Reading a property of [null] or [undefined] is a [TypeError]. *)
Definition get_node {U} (n : NodeRef) : M U Node :=
  fun w =>
    match n with
    | ref a =>
        match heap w !! a with
        | Some nd => Returns nd w
        | None => Stuck
        end
    | _ => Throws TypeError w
    end.

Definition set_node {U} (n : NodeRef) (f : Node -> Node) : M U unit :=
  fun w =>
    match n with
    | ref a =>
        match heap w !! a with
        | Some nd => Returns tt (mkWorld (<[a := f nd]> (heap w)) (root w) (user w))
        | None => Stuck
        end
    | _ => Throws TypeError w
    end.

(** [node.data], [node.left], [node.right]. *)
Definition get_data {U} (n : NodeRef) : M U number := nd <- get_node n ;; ret (data nd).
Definition get_left {U} (n : NodeRef) : M U NodeRef := nd <- get_node n ;; ret (left nd).
Definition get_right {U} (n : NodeRef) : M U NodeRef := nd <- get_node n ;; ret (right nd).

(** [node.data = d], [node.left = v], [node.right = v]. *)
Definition set_data {U} (n : NodeRef) (d : number) : M U unit :=
  set_node n (fun nd => mkNode d (left nd) (right nd)).
Definition set_left {U} (n : NodeRef) (v : NodeRef) : M U unit :=
  set_node n (fun nd => mkNode (data nd) v (right nd)).
Definition set_right {U} (n : NodeRef) (v : NodeRef) : M U unit :=
  set_node n (fun nd => mkNode (data nd) (left nd) v).

(** [new Node(data)]: [left] and [right] default to [null]. *)
Definition new_Node {U} (d : number) : M U NodeRef :=
  fun w =>
    Returns (ref (length (heap w)))
            (mkWorld (heap w ++ [mkNode d null null]) (root w) (user w)).

(** [this.root] and [this.root = r]. *)
Definition get_root {U} : M U NodeRef := fun w => Returns (root w) w.
Definition set_root {U} (r : NodeRef) : M U unit :=
  fun w => Returns tt (mkWorld (heap w) r (user w)).

(** The caller's state, for callbacks. *)
Definition get_user {U} : M U U := fun w => Returns (user w) w.
Definition set_user {U} (u : U) : M U unit :=
  fun w => Returns tt (mkWorld (heap w) (root w) u).

(** Runs [m] with a local variable in place of the caller's state and
    returns the final value of the variable: [const data = []; ...]. *)
Definition with_local {U L A} (init : L) (m : M L A) : M U (A * L) :=
  fun w =>
    match m (mkWorld (heap w) (root w) init) with
    | Returns a w' => Returns (a, user w') (mkWorld (heap w') (root w') (user w))
    | Throws e w' => Throws e (mkWorld (heap w') (root w') (user w))
    | Stuck => Stuck
    end.

(** ** Values

    The values a caller can pass: primitives, a [Node], or a function.  A
    function carries its source text and what it does when called with a
    node. *)
Inductive JSValue (U : Type) : Type :=
  | VUndefined
  | VNull
  | VBoolean (b : bool)
  | VNumber (n : number)
  | VString (s : string)
  | VNode (a : loc)
  | VFunction (source : string) (f : NodeRef -> M U unit).
Arguments VUndefined {U}.
Arguments VNull {U}.
Arguments VBoolean {U} _.
Arguments VNumber {U} _.
Arguments VString {U} _.
Arguments VNode {U} _.
Arguments VFunction {U} _ _.

(** A [?Node] (or a missing argument) seen as a value. *)
Definition value_of {U} (n : NodeRef) : JSValue U :=
  match n with
  | undefined => VUndefined
  | null => VNull
  | ref a => VNode a
  end.

(** [typeof v]. *)
Definition typeof {U} (v : JSValue U) : string :=
  match v with
  | VUndefined => "undefined"
  | VNull => "object"
  | VBoolean _ => "boolean"
  | VNumber _ => "number"
  | VString _ => "string"
  | VNode _ => "object"
  | VFunction _ _ => "function"
  end.

(** [`${v}`].  The methods put into a message only a value that does not
    convert to a number, of the numbers [NaN] alone; an integer is written
    in decimal here, the host's form below [10^21] in absolute value. *)
Definition ToString {U} (v : JSValue U) : string :=
  match v with
  | VUndefined => "undefined"
  | VNull => "null"
  | VBoolean true => "true"
  | VBoolean false => "false"
  | VNumber NaN => "NaN"
  | VNumber (Num z) => pretty z
  | VString s => s
  | VNode _ => "[object Object]"
  | VFunction source _ => source
  end.

(** [callback(node)]: calling what is not a function is a [TypeError]. *)
Definition call {U} (callback : JSValue U) (node : NodeRef) : M U unit :=
  match callback with
  | VFunction _ f => f node
  | _ => throw TypeError
  end.

(** [(node) => data.push(node.data)], with [data] the local variable. *)
Definition push_data : NodeRef -> M (list number) unit :=
  fun node =>
    d <- get_data node ;;
    data <- get_user ;;
    set_user (data ++ [d]).

(** [array.map(f)], where [f] may throw. *)
Fixpoint Array_map {U A B} (f : A -> M U B) (array : list A) : M U (list B) :=
  match array with
  | [] => ret []
  | item :: rest =>
      y <- f item ;;
      ys <- Array_map f rest ;;
      ret (y :: ys)
  end.

(** [[...new Set(nums)]]: the elements in order of first occurrence. *)
Fixpoint Set_add (seen : list number) (x : number) : list number :=
  match seen with
  | [] => [x]
  | y :: seen' => if decide (y = x) then seen else y :: Set_add seen' x
  end.

Definition Set_values (nums : list number) : list number :=
  foldl Set_add [] nums.

(** [array.sort(comparefn)]: [a] stays before [b] unless
    [comparefn(a, b) > 0]; a stable insertion sort. *)
Definition comes_after (comparefn : number -> number -> number) (a b : number) : bool :=
  number_gt (comparefn a b) (Num 0).

Fixpoint sort_insert (comparefn : number -> number -> number)
    (x : number) (sorted : list number) : list number :=
  match sorted with
  | [] => [x]
  | y :: sorted' =>
      if comes_after comparefn x y then y :: sort_insert comparefn x sorted'
      else x :: sorted
  end.

Definition Array_sort (comparefn : number -> number -> number)
    (array : list number) : list number :=
  foldr (sort_insert comparefn) [] array.

(** A reading of decimal integer literals, one possible behaviour of the
    host's conversion of strings, used to run the methods on strings. *)
Definition digit_of (c : Ascii.ascii) : option Z :=
  let n := Ascii.nat_of_ascii c in
  if (48 <=? n)%nat && (n <=? 57)%nat then Some (Z.of_nat (n - 48)) else None.

Fixpoint digits_value (acc : Z) (s : string) : number :=
  match s with
  | EmptyString => Num acc
  | String c s' =>
      match digit_of c with
      | Some d => digits_value (10 * acc + d) s'
      | None => NaN
      end
  end.

Definition decimal_literal (s : string) : number :=
  match s with
  | String "-"%char (String c s') =>
      match digits_value 0 (String c s') with
      | Num z => Num (- z)
      | NaN => NaN
      end
  | _ => digits_value 0 s
  end.

Section Tree.

(** The host's conversion of a string to a number ([Number("12")] is 12,
    [Number("abc")] is [NaN]); the methods are the same whatever it is. *)
Variable StringToNumber : string -> number.

(** [Number(v)]. *)
Definition Number {U} (v : JSValue U) : number :=
  match v with
  | VUndefined => NaN
  | VNull => Num 0
  | VBoolean true => Num 1
  | VBoolean false => Num 0
  | VNumber n => n
  | VString s => StringToNumber s
  | VNode _ => NaN
  | VFunction _ _ => NaN
  end.

(** [isNaN(v)]. *)
Definition isNaN {U} (v : JSValue U) : bool :=
  match Number v with
  | NaN => true
  | Num _ => false
  end.

(** [#processArray(array)]. *)
Definition processArray {U} (array : list (JSValue U)) : M U (list number) :=
  nums <- Array_map (fun item =>
            if isNaN item
            then throw (Error ("Trying to convert " +:+ ToString item +:+ " to a number"))
            else ret (Number item)) array ;;
  let data := Array_sort (fun a b => number_sub a b) (Set_values nums) in
  ret data.

(** [#buildTree(array)].  [array[mid]] past the end would be [undefined],
    which compares like [NaN]; [mid] is always inside a non-empty array. *)
Fixpoint buildTree {U} (fuel : nat) (array : list number) : M U NodeRef :=
  match fuel with
  | O => stuck
  | S fuel =>
      if (length array =? 0)%nat then ret null
      else
        let mid := (length array / 2)%nat in
        root <- new_Node (default NaN (array !! mid)) ;;
        l <- buildTree fuel (take mid array) ;;
        set_left root l ;;;
        r <- buildTree fuel (drop (mid + 1) array) ;;
        set_right root r ;;;
        ret root
  end.

(** [constructor(array)]. *)
Definition constructor {U} (fuel : nat) (array : list (JSValue U)) : M U unit :=
  data <- processArray array ;;
  r <- buildTree fuel data ;;
  set_root r.

(** [#insertRec(value, node)]. *)
Fixpoint insertRec {U} (fuel : nat) (value : number) (node : NodeRef) : M U NodeRef :=
  match fuel with
  | O => stuck
  | S fuel =>
      if is_null node then new_Node value
      else
        d <- get_data node ;;
        if number_eq d value then ret node
        else if number_lt d value then
          r <- get_right node ;;
          r' <- insertRec fuel value r ;;
          set_right node r' ;;;
          ret node
        else
          l <- get_left node ;;
          l' <- insertRec fuel value l ;;
          set_left node l' ;;;
          ret node
  end.

(** [insert(value)]. *)
Definition insert {U} (fuel : nat) (value : JSValue U) : M U unit :=
  if isNaN value then throw (Error "Trying to insert a non-numeric value")
  else
    r <- get_root ;;
    r' <- insertRec fuel (Number value) r ;;
    set_root r'.

(** The loop of [#nextItem]:
    [while (node !== null && node.left !== null) node = node.left]. *)
Fixpoint nextItem_loop {U} (fuel : nat) (node : NodeRef) : M U NodeRef :=
  match fuel with
  | O => stuck
  | S fuel =>
      if is_null node then ret node
      else
        l <- get_left node ;;
        if is_null l then ret node
        else nextItem_loop fuel l
  end.

(** [#nextItem(node)]. *)
Definition nextItem {U} (fuel : nat) (node : NodeRef) : M U NodeRef :=
  r <- get_right node ;;
  nextItem_loop fuel r.

(** [#deleteItemRec(value, node)]. *)
Fixpoint deleteItemRec {U} (fuel : nat) (value : number) (node : NodeRef) : M U NodeRef :=
  match fuel with
  | O => stuck
  | S fuel =>
      if is_null node then ret node
      else
        d <- get_data node ;;
        if number_lt d value then
          r <- get_right node ;;
          r' <- deleteItemRec fuel value r ;;
          set_right node r' ;;;
          ret node
        else if number_gt d value then
          l <- get_left node ;;
          l' <- deleteItemRec fuel value l ;;
          set_left node l' ;;;
          ret node
        else
          l <- get_left node ;;
          if is_null l then get_right node
          else
            r <- get_right node ;;
            if is_null r then get_left node
            else
              nextNode <- nextItem fuel node ;;
              nd <- get_data nextNode ;;
              set_data node nd ;;;
              nd' <- get_data nextNode ;;
              r <- get_right node ;;
              r' <- deleteItemRec fuel nd' r ;;
              set_right node r' ;;;
              ret node
  end.

(** [deleteItem(value)]. *)
Definition deleteItem {U} (fuel : nat) (value : JSValue U) : M U unit :=
  if isNaN value then throw (Error "Trying to delete a non-numeric value")
  else
    r <- get_root ;;
    r' <- deleteItemRec fuel (Number value) r ;;
    set_root r'.

(** [#findRec(value, node)]. *)
Fixpoint findRec {U} (fuel : nat) (value : number) (node : NodeRef) : M U NodeRef :=
  match fuel with
  | O => stuck
  | S fuel =>
      if is_null node then ret node
      else
        d <- get_data node ;;
        if number_eq d value then ret node
        else if number_lt d value then
          r <- get_right node ;;
          findRec fuel value r
        else
          l <- get_left node ;;
          findRec fuel value l
  end.

(** [find(value)]. *)
Definition find {U} (fuel : nat) (value : JSValue U) : M U NodeRef :=
  if isNaN value then throw (Error "Trying to find a non-numeric value")
  else
    r <- get_root ;;
    findRec fuel (Number value) r.

(** The body of [for (let i = 0; i < levelSize; i++)] in [levelOrder], run
    for the [n] iterations that remain; [queue.shift()] of an empty queue
    is [undefined]. *)
Fixpoint levelOrder_for {U} (callback : JSValue U) (n : nat)
    (queue : list NodeRef) : M U (list NodeRef) :=
  match n with
  | O => ret queue
  | S n =>
      let node := default undefined (head queue) in
      let queue := tail queue in
      call callback node ;;;
      l <- get_left node ;;
      let queue := if is_null l then queue else queue ++ [l] in
      r <- get_right node ;;
      let queue := if is_null r then queue else queue ++ [r] in
      levelOrder_for callback n queue
  end.

(** [while (levelSize > 0) { for ...; levelSize = queue.length }]. *)
Fixpoint levelOrder_while {U} (fuel : nat) (callback : JSValue U)
    (levelSize : nat) (queue : list NodeRef) : M U unit :=
  match fuel with
  | O => stuck
  | S fuel =>
      if (0 <? levelSize)%nat then
        queue <- levelOrder_for callback levelSize queue ;;
        levelOrder_while fuel callback (length queue) queue
      else ret tt
  end.

(** [levelOrder(callback)]. *)
Definition levelOrder {U} (fuel : nat) (callback : JSValue U) : M U unit :=
  if negb (String.eqb (typeof callback) "function")
  then throw (Error "Trying to traverse without a callback function")
  else
    r <- get_root ;;
    if is_null r then ret tt
    else levelOrder_while fuel callback 1 [r].

(** [#inOrderRec(callback, node)]. *)
Fixpoint inOrderRec {U} (fuel : nat) (callback : JSValue U) (node : NodeRef) : M U unit :=
  match fuel with
  | O => stuck
  | S fuel =>
      if is_null node then ret tt
      else
        l <- get_left node ;;
        inOrderRec fuel callback l ;;;
        call callback node ;;;
        r <- get_right node ;;
        inOrderRec fuel callback r
  end.

(** [inOrder(callback)]. *)
Definition inOrder {U} (fuel : nat) (callback : JSValue U) : M U unit :=
  if negb (String.eqb (typeof callback) "function")
  then throw (Error "Trying to traverse without a callback function")
  else
    r <- get_root ;;
    inOrderRec fuel callback r.

(** [#preOrderRec(callback, node)].  The recursive calls are written
    [this.#preOrderRec(node.left)] and [this.#preOrderRec(node.right)]:
    one argument, so the child is bound to [callback] and [node] is
    [undefined]. *)
Fixpoint preOrderRec {U} (fuel : nat) (callback : JSValue U) (node : NodeRef) : M U unit :=
  match fuel with
  | O => stuck
  | S fuel =>
      if is_null node then ret tt
      else
        call callback node ;;;
        l <- get_left node ;;
        preOrderRec fuel (value_of l) undefined ;;;
        r <- get_right node ;;
        preOrderRec fuel (value_of r) undefined
  end.

(** [preOrder(callback)]. *)
Definition preOrder {U} (fuel : nat) (callback : JSValue U) : M U unit :=
  if negb (String.eqb (typeof callback) "function")
  then throw (Error "Trying to traverse without a callback function")
  else
    r <- get_root ;;
    preOrderRec fuel callback r.

(** [#postOrderRec(callback, node)], with the same one-argument recursive
    calls: [this.#postOrderRec(node.left)]. *)
Fixpoint postOrderRec {U} (fuel : nat) (callback : JSValue U) (node : NodeRef) : M U unit :=
  match fuel with
  | O => stuck
  | S fuel =>
      if is_null node then ret tt
      else
        l <- get_left node ;;
        postOrderRec fuel (value_of l) undefined ;;;
        r <- get_right node ;;
        postOrderRec fuel (value_of r) undefined ;;;
        call callback node
  end.

(** [postOrder(callback)]. *)
Definition postOrder {U} (fuel : nat) (callback : JSValue U) : M U unit :=
  if negb (String.eqb (typeof callback) "function")
  then throw (Error "Trying to traverse without a callback function")
  else
    r <- get_root ;;
    postOrderRec fuel callback r.

(** [height(node)]. *)
Fixpoint height {U} (fuel : nat) (node : NodeRef) : M U Z :=
  match fuel with
  | O => stuck
  | S fuel =>
      if is_null node then ret 0%Z
      else
        l <- get_left node ;;
        hl <- height fuel l ;;
        r <- get_right node ;;
        hr <- height fuel r ;;
        ret (Z.max hl hr + 1)%Z
  end.

(** [#isBalancedRec(node)]; [&&] evaluates its right side only when the
    left side is true. *)
Fixpoint isBalancedRec {U} (fuel : nat) (node : NodeRef) : M U bool :=
  match fuel with
  | O => stuck
  | S fuel =>
      if is_null node then ret true
      else
        l <- get_left node ;;
        leftHeight <- height fuel l ;;
        r <- get_right node ;;
        rightHeight <- height fuel r ;;
        if (Z.abs (leftHeight - rightHeight) <=? 1)%Z then
          l <- get_left node ;;
          bl <- isBalancedRec fuel l ;;
          if bl then
            r <- get_right node ;;
            isBalancedRec fuel r
          else ret false
        else ret false
  end.

(** [isBalanced()]. *)
Definition isBalanced {U} (fuel : nat) : M U bool :=
  r <- get_root ;;
  isBalancedRec fuel r.

(** [rebalance()]. *)
Definition rebalance {U} (fuel : nat) : M U unit :=
  b <- isBalanced fuel ;;
  if negb b then
    res <- with_local [] (inOrder fuel
             (VFunction "(node) => data.push(node.data)" push_data)) ;;
    let data := snd res in
    r <- buildTree fuel data ;;
    set_root r
  else ret tt.

(** [collect(inOrder)]: the keys an in-order traversal pushes onto an
    array that starts empty. *)
Definition collect_inOrder {U} (fuel : nat) : M U (list number) :=
  res <- with_local [] (inOrder fuel
           (VFunction "(node) => data.push(node.data)" push_data)) ;;
  ret (snd res).

(** A call of [insert] or of [deleteItem], and a sequence of such calls. *)
Inductive Op (U : Type) : Type :=
  | Insert (value : JSValue U)
  | DeleteItem (value : JSValue U).

Definition run_op {U} (fuel : nat) (op : Op U) : M U unit :=
  match op with
  | Insert _ value => insert fuel value
  | DeleteItem _ value => deleteItem fuel value
  end.

Fixpoint run_ops {U} (fuel : nat) (ops : list (Op U)) : M U unit :=
  match ops with
  | [] => ret tt
  | op :: rest => run_op fuel op ;;; run_ops fuel rest
  end.

End Tree.

Arguments Insert {U} _.
Arguments DeleteItem {U} _.

(** ** The tree a reference stands for

    A reference and a store stand for a binary tree of nodes, each with
    its address and its key.  The functions below say what the methods do
    to that tree. *)

Inductive tree : Type :=
  | Leaf
  | Br (l : tree) (a : loc) (k : Z) (r : tree).

(** Keys and addresses, left to right. *)
Fixpoint keys (t : tree) : list Z :=
  match t with
  | Leaf => []
  | Br l _ k r => keys l ++ k :: keys r
  end.

Fixpoint locs (t : tree) : list loc :=
  match t with
  | Leaf => []
  | Br l a _ r => locs l ++ a :: locs r
  end.

Fixpoint size (t : tree) : nat :=
  match t with
  | Leaf => 0
  | Br l _ _ r => S (size l + size r)
  end.

(** The height as [height(node)] counts it: 0 for no node, 1 for a leaf. *)
Fixpoint tree_height (t : tree) : nat :=
  match t with
  | Leaf => 0
  | Br l _ _ r => S (Nat.max (tree_height l) (tree_height r))
  end.

Definition tree_ref (t : tree) : NodeRef :=
  match t with
  | Leaf => null
  | Br _ a _ _ => ref a
  end.

(** [shape h n t]: in the store [h], the reference [n] is the root of [t]. *)
Fixpoint shape (h : list Node) (n : NodeRef) (t : tree) : Prop :=
  match t with
  | Leaf => n = null
  | Br l a k r =>
      n = ref a /\
      exists nl nr, h !! a = Some (mkNode (Num k) nl nr) /\ shape h nl l /\ shape h nr r
  end.

(** The tree object of [w] holds [t], each node of it one object. *)
Definition tree_at {U} (w : World U) (t : tree) : Prop :=
  shape (heap w) (root w) t /\ NoDup (locs t).

(** The search-tree invariant of the data model, node by node. *)
Fixpoint bst (t : tree) : Prop :=
  match t with
  | Leaf => True
  | Br l _ k r =>
      Forall (fun x => (x < k)%Z) (keys l) /\ Forall (fun x => (k < x)%Z) (keys r) /\
      bst l /\ bst r
  end.

(** Heights of the two subtrees differ by at most one at every node. *)
Fixpoint balanced (t : tree) : bool :=
  match t with
  | Leaf => true
  | Br l _ _ r =>
      (Z.abs (Z.of_nat (tree_height l) - Z.of_nat (tree_height r)) <=? 1)%Z
      && balanced l && balanced r
  end.

(** Sizes of the two subtrees differ by at most one at every node. *)
Fixpoint size_balanced (t : tree) : Prop :=
  match t with
  | Leaf => True
  | Br l _ _ r =>
      (size r <= size l <= size r + 1)%nat /\ size_balanced l /\ size_balanced r
  end.

(** Every subtree has at its root the key at index [floor(n / 2)] of its
    [n] keys in order, the keys before it on the left and the keys after
    it on the right. *)
Fixpoint mid_rooted (t : tree) : Prop :=
  match t with
  | Leaf => True
  | Br l _ k r =>
      let mid := (length (keys t) / 2)%nat in
      keys t !! mid = Some k /\
      keys l = take mid (keys t) /\ keys r = drop (mid + 1) (keys t) /\
      mid_rooted l /\ mid_rooted r
  end.

(** What [#insertRec] does to the tree; a new node gets address [fresh]. *)
Fixpoint tree_insert (fresh : loc) (v : Z) (t : tree) : tree :=
  match t with
  | Leaf => Br Leaf fresh v Leaf
  | Br l a k r =>
      if (k =? v)%Z then t
      else if (k <? v)%Z then Br l a k (tree_insert fresh v r)
      else Br (tree_insert fresh v l) a k r
  end.

(** The key of the leftmost node, [d] for the empty tree. *)
Fixpoint leftmost (d : Z) (t : tree) : Z :=
  match t with
  | Leaf => d
  | Br l _ k _ => leftmost k l
  end.

(** What [#deleteItemRec] does to the tree. *)
Fixpoint tree_delete (v : Z) (t : tree) : tree :=
  match t with
  | Leaf => Leaf
  | Br l a k r =>
      if (k <? v)%Z then Br l a k (tree_delete v r)
      else if (v <? k)%Z then Br (tree_delete v l) a k r
      else
        match l, r with
        | Leaf, _ => r
        | _, Leaf => l
        | _, _ => let m := leftmost k r in Br l a m (tree_delete m r)
        end
  end.

(** What [#buildTree] builds from address [base] on. *)
Fixpoint tree_build (fuel : nat) (base : loc) (array : list Z) : tree :=
  match fuel with
  | O => Leaf
  | S fuel =>
      if (length array =? 0)%nat then Leaf
      else
        let mid := (length array / 2)%nat in
        Br (tree_build fuel (base + 1) (take mid array))
           base (default 0%Z (array !! mid))
           (tree_build fuel (base + 1 + mid) (drop (mid + 1) array))
  end.

(** The height of the tree [#buildTree] builds from [n] keys. *)
Fixpoint build_height (fuel n : nat) : nat :=
  match fuel with
  | O => 0
  | S fuel =>
      if (n =? 0)%nat then 0
      else S (Nat.max (build_height fuel (n / 2)) (build_height fuel (n - (n / 2 + 1))))
  end.

(** [h'] extends [h] and agrees with it outside the addresses [F]. *)
Definition keeps (F : list loc) (h h' : list Node) : Prop :=
  length h <= length h' /\ forall b, b < length h -> b ∉ F -> h' !! b = h !! b.

(** The outcome [o] of a call from [w] is a return or a throw, with the
    store and the root of the tree as they were in [w]. *)
Definition unchanged {U A} (w : World U) (o : Outcome U A) : Prop :=
  match o with
  | Returns _ w' | Throws _ w' => heap w' = heap w /\ root w' = root w
  | Stuck => False
  end.

(** A reference to an object of the store, or [null], or [undefined]. *)
Definition valid_ref (h : list Node) (n : NodeRef) : Prop :=
  match n with
  | ref a => is_Some (h !! a)
  | _ => True
  end.

(** A callback that, called with a node, returns or throws, and writes
    neither to nodes nor to the tree. *)
Definition quiet {U} (callback : JSValue U) : Prop :=
  forall node w, valid_ref (heap w) node -> unchanged w (call callback node w).

(** An invocable callback. *)
Definition invocable {U} (callback : JSValue U) : Prop :=
  typeof callback = "function".

(** A value that converts to a number. *)
Definition coercible {U} (StringToNumber : string -> number) (v : JSValue U) : Prop :=
  isNaN StringToNumber v = false.

Definition op_value {U} (op : Op U) : JSValue U :=
  match op with
  | Insert v => v
  | DeleteItem v => v
  end.

(** Pre-order: node, then left subtree, then right subtree. *)
Fixpoint preorder (t : tree) : list Z :=
  match t with
  | Leaf => []
  | Br l _ k r => k :: preorder l ++ preorder r
  end.

(** Post-order: left subtree, then right subtree, then node. *)
Fixpoint postorder (t : tree) : list Z :=
  match t with
  | Leaf => []
  | Br l _ k r => postorder l ++ postorder r ++ [k]
  end.

(** The sorted, deduplicated contents of a list: each value once, in
    ascending order. *)
Definition sorted_dedup (l : list Z) : list Z := merge_sort Z.le (remove_dups l).

(** ** Examples

    The tree of [new Tree([3, 6, 6, 1, 8, 1])], built in an empty store:
    the world after the call and the tree it holds. *)
Definition empty_world : World (list number) := mkWorld [] null [].

Definition example_array : list (JSValue (list number)) :=
  [VNumber (Num 3); VNumber (Num 6); VNumber (Num 6);
   VNumber (Num 1); VNumber (Num 8); VNumber (Num 1)].

Definition example_world : World (list number) :=
  mkWorld [mkNode (Num 6) (ref 1) (ref 3); mkNode (Num 3) (ref 2) null;
           mkNode (Num 1) null null; mkNode (Num 8) null null]
          (ref 0) [].

Definition example_tree : tree :=
  Br (Br (Br Leaf 2 1%Z Leaf) 1 3%Z Leaf) 0 6%Z (Br Leaf 3 8%Z Leaf).

(** A tree that inserting 1, 2 and 3 in this order into an empty tree
    leaves: every node has only a right child. *)
Definition skewed_world : World (list number) :=
  mkWorld [mkNode (Num 1) null (ref 1); mkNode (Num 2) null (ref 2);
           mkNode (Num 3) null null]
          (ref 0) [].

Definition skewed_tree : tree :=
  Br Leaf 0 1%Z (Br Leaf 1 2%Z (Br Leaf 2 3%Z Leaf)).

(** The array [[1, 2, ..., n]]. *)
Definition one_to_n {U} (n : nat) : list (JSValue U) :=
  (fun i => VNumber (Num (Z.of_nat i))) <$> seq 1 n.

(** The callback that collects keys, as a value. *)
Definition push_data_callback : JSValue (list number) :=
  VFunction "(node) => data.push(node.data)" push_data.

(** The integer a number stands for, for numbers that are not [NaN]. *)
Definition to_Z (n : number) : Z :=
  match n with
  | Num z => z
  | NaN => 0%Z
  end.

(** ** The other methods of [Tree]

    [depth] and [prettyPrint], with the loop of [depth] and the console
    of the host. *)

(** The loop of [depth(node)]:
    [while (currNode !== node) { ...; result++ }], references compared. *)
Fixpoint depth_loop {U} (fuel : nat) (node currNode : NodeRef) (result : Z) : M U Z :=
  match fuel with
  | O => stuck
  | S fuel =>
      if bool_decide (currNode = node) then ret result
      else
        c <- get_data currNode ;;
        d <- get_data node ;;
        next <- (if number_lt c d then get_right currNode else get_left currNode) ;;
        depth_loop fuel node next (result + 1)%Z
  end.

(** [depth(node)]. *)
Definition depth {U} (fuel : nat) (node : NodeRef) : M U Z :=
  currNode <- get_root ;;
  depth_loop fuel node currNode 0%Z.

(** [prettyPrint(node, prefix, isLeft)]; [console_log] is the host's
    [console.log], and [NumberToString] what its [String] gives for a
    number. *)
Fixpoint prettyPrint {U} (console_log : string -> M U unit)
    (NumberToString : number -> string) (fuel : nat)
    (node : NodeRef) (prefix : string) (isLeft : bool) : M U unit :=
  match fuel with
  | O => stuck
  | S fuel =>
      if is_null node then ret tt
      else
        r <- get_right node ;;
        (if negb (is_null r) then
           let rightPrefix := if isLeft then "|   " else "    " in
           r <- get_right node ;;
           prettyPrint console_log NumberToString fuel r (prefix +:+ rightPrefix) false
         else ret tt) ;;;
        let nodePrefix := if isLeft then "└── " else "┌── " in
        d <- get_data node ;;
        console_log (prefix +:+ nodePrefix +:+ NumberToString d) ;;;
        l <- get_left node ;;
        (if negb (is_null l) then
           let leftPrefix := if isLeft then "    " else "|   " in
           l <- get_left node ;;
           prettyPrint console_log NumberToString fuel l (prefix +:+ leftPrefix) true
         else ret tt)
  end.

(** A console that keeps the lines written to it. *)
Definition log_line : string -> M (list string) unit :=
  fun line =>
    lines <- get_user ;;
    set_user (lines ++ [line]).

(** The decimal text of a number: what the host's [String] gives for [NaN]
    and for the integers below [10^21] in absolute value. *)
Definition decimal_string (n : number) : string :=
  match n with
  | NaN => "NaN"
  | Num z => pretty z
  end.

(** ** What the traversals and the searches are measured against *)

(** The callback called on each node of a list, in order. *)
Fixpoint call_each {U} (callback : JSValue U) (nodes : list NodeRef) : M U unit :=
  match nodes with
  | [] => ret tt
  | node :: rest => call callback node ;;; call_each callback rest
  end.

(** The nodes at depth [d], left to right, and the breadth-first order:
    level after level. *)
Fixpoint level (d : nat) (t : tree) {struct t} : list loc :=
  match t, d with
  | Leaf, _ => []
  | Br _ a _ _, O => [a]
  | Br l _ _ r, S d => level d l ++ level d r
  end.

Definition bfs (t : tree) : list loc :=
  concat ((fun d => level d t) <$> seq 0 (tree_height t)).

(** The subtrees below the roots of a forest, the empty ones left out. *)
Definition nonempty (t : tree) : list tree :=
  match t with
  | Leaf => []
  | _ => [t]
  end.

Definition children (t : tree) : list tree :=
  match t with
  | Leaf => []
  | Br l _ _ r => nonempty l ++ nonempty r
  end.

(** The reference the search for [v] ends on: what [#findRec] returns. *)
Fixpoint tree_find (v : Z) (t : tree) : NodeRef :=
  match t with
  | Leaf => null
  | Br l a k r =>
      if (k =? v)%Z then ref a
      else if (k <? v)%Z then tree_find v r
      else tree_find v l
  end.

(** The nodes of a tree from the last to the first in order, each with the
    path to it from the root ([true] for a step to the left child) and its
    key. *)
Fixpoint paths_desc (t : tree) : list (list bool * Z) :=
  match t with
  | Leaf => []
  | Br l _ k r =>
      (prod_map (cons false) id <$> paths_desc r)
      ++ ([], k) :: (prod_map (cons true) id <$> paths_desc l)
  end.

(** The key of the node a path from the root leads to. *)
Fixpoint key_at (path : list bool) (t : tree) : option Z :=
  match t, path with
  | Leaf, _ => None
  | Br _ _ k _, [] => Some k
  | Br l _ _ r, side :: path => key_at path (if side then l else r)
  end.

(** What stands before the key on the line of a node: a column of four
    characters for every step of the path, with a bar where the path
    turns (a step to the other side than the step before it; [isLeft]
    stands for the step to the root), and a corner that opens downwards
    for a right child and upwards for a left child. *)
Fixpoint indentation (isLeft : bool) (path : list bool) : string :=
  match path with
  | [] => if isLeft then "└── " else "┌── "
  | side :: path =>
      (if eqb isLeft side then "    " else "|   ") +:+ indentation side path
  end.

(** The line of a node: the prefix, the indentation, the text of the key. *)
Definition node_line (NumberToString : number -> string) (prefix : string)
    (isLeft : bool) (node : list bool * Z) : string :=
  prefix +:+ indentation isLeft node.1 +:+ NumberToString (Num node.2).

(** A tree whose nodes have no left child. *)
Fixpoint right_chain (t : tree) : Prop :=
  match t with
  | Leaf => True
  | Br l _ _ r => l = Leaf /\ right_chain r
  end.

(** The calls [insert(1)], ..., [insert(n)]. *)
Definition insert_one_to_n {U} (n : nat) : list (Op U) :=
  (fun i => Insert (VNumber (Num (Z.of_nat i)))) <$> seq 1 n.

(** * Proofs *)

Local Open Scope js_scope.

(** ** Running the primitives *)

Section Steps.
Context {U A : Type}.
Implicit Types (h : list Node) (r : NodeRef) (u : U) (k : NodeRef -> M U A).

Lemma bind_get_data h r u a nd (k : number -> M U A) :
  h !! a = Some nd ->
  (d <- get_data (ref a) ;; k d) (mkWorld h r u) = k (data nd) (mkWorld h r u).
Proof. intros E. cbv [bind get_data get_node ret heap]. now rewrite E. Qed.

Lemma bind_get_left h r u a nd k :
  h !! a = Some nd ->
  (l <- get_left (ref a) ;; k l) (mkWorld h r u) = k (left nd) (mkWorld h r u).
Proof. intros E. cbv [bind get_left get_node ret heap]. now rewrite E. Qed.

Lemma bind_get_right h r u a nd k :
  h !! a = Some nd ->
  (l <- get_right (ref a) ;; k l) (mkWorld h r u) = k (right nd) (mkWorld h r u).
Proof. intros E. cbv [bind get_right get_node ret heap]. now rewrite E. Qed.

Lemma bind_set_left h r u a nd v (k : unit -> M U A) :
  h !! a = Some nd ->
  (x <- set_left (ref a) v ;; k x) (mkWorld h r u)
  = k tt (mkWorld (<[a := mkNode (data nd) v (right nd)]> h) r u).
Proof. intros E. cbv [bind set_left set_node heap root user]. now rewrite E. Qed.

Lemma bind_set_right h r u a nd v (k : unit -> M U A) :
  h !! a = Some nd ->
  (x <- set_right (ref a) v ;; k x) (mkWorld h r u)
  = k tt (mkWorld (<[a := mkNode (data nd) (left nd) v]> h) r u).
Proof. intros E. cbv [bind set_right set_node heap root user]. now rewrite E. Qed.

Lemma bind_set_data h r u a nd d (k : unit -> M U A) :
  h !! a = Some nd ->
  (x <- set_data (ref a) d ;; k x) (mkWorld h r u)
  = k tt (mkWorld (<[a := mkNode d (left nd) (right nd)]> h) r u).
Proof. intros E. cbv [bind set_data set_node heap root user]. now rewrite E. Qed.

Lemma bind_Returns {B} (m : M U B) (k : B -> M U A) w b w' :
  m w = Returns b w' -> (x <- m ;; k x) w = k b w'.
Proof. intros E. unfold bind. now rewrite E. Qed.

Lemma bind_Throws {B} (m : M U B) (k : B -> M U A) w e w' :
  m w = Throws e w' -> (x <- m ;; k x) w = Throws e w'.
Proof. intros E. unfold bind. now rewrite E. Qed.

End Steps.

Ltac step :=
  first
    [ erewrite bind_get_data by eassumption
    | erewrite bind_get_left by eassumption
    | erewrite bind_get_right by eassumption
    | erewrite bind_set_left by eassumption
    | erewrite bind_set_right by eassumption
    | erewrite bind_set_data by eassumption
    | erewrite bind_Returns by eassumption ];
  cbn [data left right is_null].

(** Membership in a list written with [++] and [::]. *)
Ltac elems :=
  cbn [locs keys] in *;
  repeat match goal with
  | H : context [_ ∈ _ ++ _] |- _ => rewrite elem_of_app in H
  | H : context [_ ∈ _ :: _] |- _ => rewrite elem_of_cons in H
  | H : _ ∈ [] |- _ => apply elem_of_nil in H; destruct H
  end;
  rewrite ?elem_of_app, ?elem_of_cons;
  intuition (subst; eauto; try lia; try congruence).

(** ** Shapes *)

Lemma shape_ref h n t : shape h n t -> n = tree_ref t.
Proof. destruct t; cbn; [easy | now intros [-> _]]. Qed.

Lemma shape_locs_lt h n t : shape h n t -> Forall (fun a => a < length h) (locs t).
Proof.
  revert n. induction t as [|l IHl a k r IHr]; intros n; cbn.
  - constructor.
  - intros (_ & nl & nr & E & Hl & Hr).
    apply Forall_app; split; [eauto |].
    constructor; [eapply lookup_lt_Some; eauto | eauto].
Qed.

(** A store that agrees with [h] on the nodes of [t] holds [t] too. *)
Lemma shape_frame h h' n t :
  shape h n t -> (forall a, a ∈ locs t -> h' !! a = h !! a) -> shape h' n t.
Proof.
  revert n. induction t as [|l IHl a k r IHr]; intros n; cbn; [easy |].
  intros (-> & nl & nr & E & Hl & Hr) Hag. split; [easy |].
  exists nl, nr. split; [| split].
  - rewrite Hag; [easy |]. elems.
  - apply IHl; [easy |]. intros b Hb. apply Hag. elems.
  - apply IHr; [easy |]. intros b Hb. apply Hag. elems.
Qed.

Lemma shape_insert_other h n t a nd :
  shape h n t -> a ∉ locs t -> shape (<[a := nd]> h) n t.
Proof.
  intros Hs Ha. eapply shape_frame; [eassumption |].
  intros b Hb. apply list_lookup_insert_ne. intros ->. contradiction.
Qed.

Lemma tree_height_le_size t : tree_height t <= size t.
Proof. induction t; cbn; lia. Qed.

Lemma length_keys t : length (keys t) = size t.
Proof. induction t; cbn; [easy |]. rewrite length_app. cbn. lia. Qed.

Lemma length_locs t : length (locs t) = size t.
Proof. induction t; cbn; [easy |]. rewrite length_app. cbn. lia. Qed.

Lemma push_data_run h r (dat : list number) a nd :
  h !! a = Some nd ->
  push_data (ref a) (mkWorld h r dat) = Returns tt (mkWorld h r (dat ++ [data nd])).
Proof. intros E. unfold push_data. step. reflexivity. Qed.

(** ** The methods that only read *)

Section Reads.
Context {U : Type}.
Implicit Types (h : list Node) (r : NodeRef) (u : U).

Lemma height_spec fuel h r u n t :
  shape h n t -> tree_height t < fuel ->
  height fuel n (mkWorld h r u) = Returns (Z.of_nat (tree_height t)) (mkWorld h r u).
Proof.
  revert n t. induction fuel as [|fuel IH]; intros n t Hs Hf; [lia |].
  destruct t as [|l a k rt]; cbn in Hs.
  - subst n. reflexivity.
  - destruct Hs as (-> & nl & nr & E & Hl & Hr). cbn in Hf.
    cbn [height is_null]. step.
    rewrite (bind_Returns _ _ _ _ _ (IH _ _ Hl ltac:(lia))). step.
    rewrite (bind_Returns _ _ _ _ _ (IH _ _ Hr ltac:(lia))).
    unfold ret. f_equal. cbn [tree_height]. lia.
Qed.

Lemma isBalancedRec_spec fuel h r u n t :
  shape h n t -> tree_height t < fuel ->
  isBalancedRec fuel n (mkWorld h r u) = Returns (balanced t) (mkWorld h r u).
Proof.
  revert n t. induction fuel as [|fuel IH]; intros n t Hs Hf; [lia |].
  destruct t as [|l a k rt]; cbn in Hs.
  - subst n. reflexivity.
  - destruct Hs as (-> & nl & nr & E & Hl & Hr). cbn in Hf.
    cbn [isBalancedRec is_null balanced]. step.
    rewrite (bind_Returns _ _ _ _ _ (height_spec fuel _ _ _ _ _ Hl ltac:(lia))). step.
    rewrite (bind_Returns _ _ _ _ _ (height_spec fuel _ _ _ _ _ Hr ltac:(lia))).
    destruct (Z.abs _ <=? 1)%Z; [| reflexivity]. cbn [andb]. step.
    rewrite (bind_Returns _ _ _ _ _ (IH _ _ Hl ltac:(lia))).
    destruct (balanced l); [| reflexivity]. cbn [andb]. step.
    apply IH; [easy | lia].
Qed.

(** [#findRec] returns and leaves the store as it was. *)
Lemma findRec_unchanged fuel v h r u n t :
  shape h n t -> tree_height t < fuel ->
  exists res, findRec fuel v n (mkWorld h r u) = Returns res (mkWorld h r u).
Proof.
  revert n t. induction fuel as [|fuel IH]; intros n t Hs Hf; [lia |].
  destruct t as [|l a k rt]; cbn in Hs.
  - subst n. now exists null.
  - destruct Hs as (-> & nl & nr & E & Hl & Hr). cbn in Hf.
    cbn [findRec is_null]. step.
    destruct (number_eq _ _); [now eexists |].
    destruct (number_lt _ _); step; eapply IH; eauto; lia.
Qed.

(** [#inOrderRec] with the callback [(node) => data.push(node.data)]
    appends the keys, left to right. *)
Lemma inOrderRec_push_data fuel src h r (dat : list number) n t :
  shape h n t -> tree_height t < fuel ->
  inOrderRec fuel (VFunction src push_data) n (mkWorld h r dat)
  = Returns tt (mkWorld h r (dat ++ (Num <$> keys t))).
Proof.
  revert n t dat. induction fuel as [|fuel IH]; intros n t dat Hs Hf; [lia |].
  destruct t as [|l a k rt]; cbn in Hs.
  - subst n. cbn. now rewrite app_nil_r.
  - destruct Hs as (-> & nl & nr & E & Hl & Hr). cbn in Hf.
    cbn [inOrderRec is_null]. step.
    rewrite (bind_Returns _ _ _ _ _ (IH _ _ _ Hl ltac:(lia))).
    cbn [call]. rewrite (bind_Returns _ _ _ _ _ (push_data_run _ _ _ _ _ E)). step.
    rewrite (IH _ _ _ Hr ltac:(lia)).
    cbn [keys data]. rewrite fmap_app, fmap_cons. now rewrite <- !app_assoc.
Qed.

End Reads.

Lemma shape_Br h a k nl nr l r :
  h !! a = Some (mkNode (Num k) nl nr) -> shape h nl l -> shape h nr r ->
  shape h (ref a) (Br l a k r).
Proof. intros E Hl Hr. cbn. split; [easy |]. now exists nl, nr. Qed.

Lemma NoDup_locs_Br l a k r :
  NoDup (locs (Br l a k r)) <->
  NoDup (locs l) /\ NoDup (locs r) /\ (a ∉ locs l) /\ (a ∉ locs r) /\
  (forall x, x ∈ locs l -> x ∉ locs r).
Proof.
  cbn [locs]. rewrite NoDup_app, NoDup_cons. split.
  - intros (Hl & Hd & Ha & Hr). repeat split; try easy.
    + intros Hal. apply (Hd _ Hal). elems.
    + intros x Hx Hxr. apply (Hd _ Hx). elems.
  - intros (Hl & Hr & Hal & Har & Hd). repeat split; try easy.
    intros x Hx. rewrite elem_of_cons. intros [-> | Hxr]; [easy |]. now apply (Hd x).
Qed.

Lemma locs_tree_insert f v t b :
  b ∈ locs (tree_insert f v t) -> b = f \/ b ∈ locs t.
Proof.
  induction t as [|l IHl a k r IHr]; cbn.
  - rewrite !elem_of_cons, elem_of_nil. tauto.
  - destruct (k =? v)%Z; [cbn; tauto |].
    destruct (k <? v)%Z; cbn; rewrite !elem_of_app, !elem_of_cons; tauto.
Qed.

(** ** The methods that write *)

Section Writes.
Context {U : Type}.
Implicit Types (h : list Node) (r : NodeRef) (u : U).

Lemma insertRec_spec fuel v h r u n t :
  shape h n t -> NoDup (locs t) -> tree_height t < fuel ->
  exists h',
    insertRec fuel (Num v) n (mkWorld h r u)
    = Returns (tree_ref (tree_insert (length h) v t)) (mkWorld h' r u) /\
    shape h' (tree_ref (tree_insert (length h) v t)) (tree_insert (length h) v t) /\
    keeps (locs t) h h'.
Proof.
  revert n t h. induction fuel as [|fuel IH]; intros n t h Hs Hnd Hf; [lia |].
  pose proof (shape_locs_lt _ _ _ Hs) as Hlt. rewrite Forall_forall in Hlt.
  destruct t as [|l a k rt]; cbn in Hs.
  - subst n. eexists. split; [reflexivity |]. cbn [heap]. split.
    + cbn. split; [easy |]. exists null, null. split; [| easy].
      apply list_lookup_middle. easy.
    + split; [rewrite length_app; lia |]. intros b Hb _. now apply lookup_app_l.
  - destruct Hs as (-> & nl & nr & E & Hl & Hr). cbn in Hf.
    apply NoDup_locs_Br in Hnd as (Hndl & Hndr & Hal & Har & Hd).
    assert (Halt : a < length h) by (eapply lookup_lt_Some; eauto).
    cbn [insertRec is_null tree_insert]. step. cbn [number_eq number_lt].
    destruct (k =? v)%Z.
    { exists h. split; [reflexivity |]. split.
      - cbn. split; [easy |]. now exists nl, nr.
      - split; [lia | easy]. }
    destruct (k <? v)%Z.
    + step. destruct (IH _ _ _ Hr Hndr ltac:(lia)) as (h1 & Erun & Hs1 & Hlen & Hk).
      rewrite (bind_Returns _ _ _ _ _ Erun).
      assert (E1 : h1 !! a = Some (mkNode (Num k) nl nr)) by (rewrite Hk; easy).
      step. eexists. split; [reflexivity |]. cbn [tree_ref]. split; [| split].
      * eapply shape_Br.
        -- apply list_lookup_insert_eq. lia.
        -- apply shape_insert_other; [| easy].
           eapply shape_frame; [eassumption |]. intros b Hb. apply Hk.
           ++ apply Hlt. cbn. elems.
           ++ now apply Hd.
        -- apply shape_insert_other; [easy |].
           intros Hin. apply locs_tree_insert in Hin as [-> | Hin]; [lia | easy].
      * rewrite length_insert. lia.
      * intros b Hb Hnin. cbn in Hnin. rewrite list_lookup_insert_ne by elems.
        apply Hk; [easy | elems].
    + step. destruct (IH _ _ _ Hl Hndl ltac:(lia)) as (h1 & Erun & Hs1 & Hlen & Hk).
      rewrite (bind_Returns _ _ _ _ _ Erun).
      assert (E1 : h1 !! a = Some (mkNode (Num k) nl nr)) by (rewrite Hk; easy).
      step. eexists. split; [reflexivity |]. cbn [tree_ref]. split; [| split].
      * eapply shape_Br.
        -- apply list_lookup_insert_eq. lia.
        -- apply shape_insert_other; [easy |].
           intros Hin. apply locs_tree_insert in Hin as [-> | Hin]; [lia | easy].
        -- apply shape_insert_other; [| easy].
           eapply shape_frame; [eassumption |]. intros b Hb. apply Hk.
           ++ apply Hlt. cbn. elems.
           ++ intros Hbl. now apply (Hd b).
      * rewrite length_insert. lia.
      * intros b Hb Hnin. cbn in Hnin. rewrite list_lookup_insert_ne by elems.
        apply Hk; [easy | elems].
Qed.

Lemma nextItem_loop_spec fuel h r u n t d :
  shape h n t -> t <> Leaf -> tree_height t <= fuel ->
  exists b nd,
    nextItem_loop fuel n (mkWorld h r u) = Returns (ref b) (mkWorld h r u) /\
    b ∈ locs t /\ h !! b = Some nd /\ data nd = Num (leftmost d t).
Proof.
  revert n t d. induction fuel as [|fuel IH]; intros n t d Hs Hne Hf.
  { destruct t; [easy | cbn in Hf; lia]. }
  destruct t as [|l a k rt]; [easy |]. cbn in Hs, Hf.
  destruct Hs as (-> & nl & nr & E & Hl & Hr).
  cbn [nextItem_loop is_null leftmost locs]. step.
  destruct l as [|ll la lk lr].
  - cbn in Hl. subst nl. cbn [is_null]. exists a, (mkNode (Num k) null nr).
    split; [reflexivity |]. split; [elems | easy].
  - pose proof (shape_ref _ _ _ Hl) as ->. cbn [tree_ref is_null].
    destruct (IH _ _ k Hl ltac:(easy) ltac:(lia)) as (b & nd & Erun & Hb & Eb & Ed).
    exists b, nd. split; [easy |]. split; [elems | easy].
Qed.

Lemma nextItem_spec fuel h r u a nd0 t d :
  h !! a = Some nd0 -> shape h (right nd0) t -> t <> Leaf -> tree_height t <= fuel ->
  exists b nd,
    nextItem fuel (ref a) (mkWorld h r u) = Returns (ref b) (mkWorld h r u) /\
    b ∈ locs t /\ h !! b = Some nd /\ data nd = Num (leftmost d t).
Proof.
  intros E Hs Hne Hf. unfold nextItem. step. now apply nextItem_loop_spec.
Qed.

Lemma locs_tree_delete v t : locs (tree_delete v t) `sublist_of` locs t.
Proof.
  revert v. induction t as [|l IHl a k r IHr]; intros v; cbn; [constructor |].
  destruct (k <? v)%Z; [cbn; apply sublist_app; [easy | now constructor] |].
  destruct (v <? k)%Z; [cbn; apply sublist_app; [easy | now constructor] |].
  destruct l as [|ll la lk lr]; [apply sublist_inserts_l; now constructor |].
  destruct r as [|rl ra rk rr]; [apply sublist_inserts_r; reflexivity |].
  cbn [locs]. apply sublist_app; [easy | constructor; apply IHr].
Qed.

Lemma deleteItemRec_spec fuel v h r u n t :
  shape h n t -> NoDup (locs t) -> tree_height t < fuel ->
  exists h',
    deleteItemRec fuel (Num v) n (mkWorld h r u)
    = Returns (tree_ref (tree_delete v t)) (mkWorld h' r u) /\
    shape h' (tree_ref (tree_delete v t)) (tree_delete v t) /\
    keeps (locs t) h h' /\ length h' = length h.
Proof.
  revert n t h v. induction fuel as [|fuel IH]; intros n t h v Hs Hnd Hf; [lia |].
  pose proof (shape_locs_lt _ _ _ Hs) as Hlt. rewrite Forall_forall in Hlt.
  destruct t as [|l a k rt]; cbn in Hs.
  - subst n. exists h. split; [reflexivity |]. split; [easy |]. split; [| easy].
    split; [lia | easy].
  - destruct Hs as (-> & nl & nr & E & Hl & Hr). cbn in Hf.
    apply NoDup_locs_Br in Hnd as (Hndl & Hndr & Hal & Har & Hd).
    assert (Halt : a < length h) by (eapply lookup_lt_Some; eauto).
    cbn [deleteItemRec is_null tree_delete]. step.
    unfold number_gt. cbn [number_lt].
    destruct (k <? v)%Z; [| destruct (v <? k)%Z].
    + step. destruct (IH _ _ _ v Hr Hndr ltac:(lia)) as (h1 & Erun & Hs1 & [Hlen Hk] & Hlen').
      rewrite (bind_Returns _ _ _ _ _ Erun).
      assert (E1 : h1 !! a = Some (mkNode (Num k) nl nr)) by (rewrite Hk; easy).
      step. eexists. split; [reflexivity |]. cbn [tree_ref]. split; [| split; [split |]].
      * eapply shape_Br.
        -- apply list_lookup_insert_eq. lia.
        -- apply shape_insert_other; [| easy].
           eapply shape_frame; [eassumption |]. intros b Hb. apply Hk.
           ++ apply Hlt. cbn. elems.
           ++ now apply Hd.
        -- apply shape_insert_other; [easy |].
           intros Hin. apply Har. eapply elem_of_sublist; [eassumption |].
           apply locs_tree_delete.
      * rewrite length_insert. lia.
      * intros b Hb Hnin. cbn in Hnin. rewrite list_lookup_insert_ne by elems.
        apply Hk; [easy | elems].
      * rewrite length_insert. lia.
    + step. destruct (IH _ _ _ v Hl Hndl ltac:(lia)) as (h1 & Erun & Hs1 & [Hlen Hk] & Hlen').
      rewrite (bind_Returns _ _ _ _ _ Erun).
      assert (E1 : h1 !! a = Some (mkNode (Num k) nl nr)) by (rewrite Hk; easy).
      step. eexists. split; [reflexivity |]. cbn [tree_ref]. split; [| split; [split |]].
      * eapply shape_Br.
        -- apply list_lookup_insert_eq. lia.
        -- apply shape_insert_other; [easy |].
           intros Hin. apply Hal. eapply elem_of_sublist; [eassumption |].
           apply locs_tree_delete.
        -- apply shape_insert_other; [| easy].
           eapply shape_frame; [eassumption |]. intros b Hb. apply Hk.
           ++ apply Hlt. cbn. elems.
           ++ intros Hbl. now apply (Hd b).
      * rewrite length_insert. lia.
      * intros b Hb Hnin. cbn in Hnin. rewrite list_lookup_insert_ne by elems.
        apply Hk; [easy | elems].
      * rewrite length_insert. lia.
    + step. destruct l as [|ll la lk lr].
      { cbn in Hl. subst nl. cbn [is_null].
        exists h. split; [| split; [| split; [split |]]]; try easy.
        - unfold get_right, get_node, bind, ret. cbn [heap]. rewrite E.
          cbn [right]. now rewrite (shape_ref _ _ _ Hr).
        - now rewrite <- (shape_ref _ _ _ Hr). }
      pose proof (shape_ref _ _ _ Hl) as Enl. cbn [tree_ref] in Enl. subst nl.
      cbn [is_null]. step.
      destruct rt as [|rl ra rk rr].
      { cbn in Hr. subst nr. cbn [is_null].
        exists h. split; [| split; [| split; [split |]]]; try easy.
        unfold get_left, get_node, bind, ret. cbn [heap]. now rewrite E. }
      pose proof (shape_ref _ _ _ Hr) as Enr. cbn [tree_ref] in Enr. subst nr.
      cbn [is_null].
      destruct (nextItem_spec fuel h r u a _ _ k E Hr ltac:(easy) ltac:(lia))
        as (b & nd & Erun & Hb & Eb & Ed).
      rewrite (bind_Returns _ _ _ _ _ Erun). step. rewrite Ed.
      set (m := leftmost k (Br rl ra rk rr)) in *.
      step.
      assert (Hba : b <> a) by (intros ->; easy).
      assert (Eb1 : <[a := mkNode (Num m) (ref la) (ref ra)]> h !! b = Some nd)
        by (rewrite list_lookup_insert_ne; easy).
      step. rewrite Ed.
      assert (Ea1 : <[a := mkNode (Num m) (ref la) (ref ra)]> h !! a
                    = Some (mkNode (Num m) (ref la) (ref ra)))
        by (apply list_lookup_insert_eq; lia).
      step.
      assert (Hr1 : shape (<[a := mkNode (Num m) (ref la) (ref ra)]> h) (ref ra)
                      (Br rl ra rk rr)) by (apply shape_insert_other; easy).
      destruct (IH _ _ _ m Hr1 Hndr ltac:(lia)) as (h2 & Erun2 & Hs2 & [Hlen Hk] & Hlen').
      rewrite length_insert in Hlen, Hlen', Hk.
      rewrite (bind_Returns _ _ _ _ _ Erun2).
      assert (E2 : h2 !! a = Some (mkNode (Num m) (ref la) (ref ra)))
        by (rewrite Hk; easy).
      step. eexists. split; [reflexivity |]. cbn [tree_ref]. split; [| split; [split |]].
      * eapply shape_Br.
        -- apply list_lookup_insert_eq. lia.
        -- apply shape_insert_other; [| easy].
           eapply shape_frame; [eassumption |]. intros c Hc. rewrite Hk.
           ++ apply list_lookup_insert_ne. intros ->. easy.
           ++ apply Hlt. cbn. elems.
           ++ now apply Hd.
        -- apply shape_insert_other; [easy |].
           intros Hin. apply Har. eapply elem_of_sublist; [eassumption |].
           apply locs_tree_delete.
      * rewrite length_insert. lia.
      * intros c Hc Hnin. cbn in Hnin. rewrite list_lookup_insert_ne by elems.
        rewrite Hk; [| easy | elems]. apply list_lookup_insert_ne. elems.
      * rewrite length_insert. lia.
Qed.
End Writes.

(** ** Keys of the tree after an insertion or a deletion *)

Lemma bst_sorted t : bst t <-> StronglySorted Z.lt (keys t).
Proof.
  induction t as [|l IHl a k r IHr]; cbn.
  - split; [constructor | easy].
  - rewrite StronglySorted_app, StronglySorted_cons, IHl, IHr, !Forall_forall.
    split.
    + intros (Hl & Hr & Sl & Sr). repeat split; try easy.
      intros x1 x2 H1 H2. apply elem_of_cons in H2 as [-> | H2]; [now apply Hl |].
      specialize (Hl _ H1). specialize (Hr _ H2). lia.
    + intros (Hlr & Sl & Hr & Sr). repeat split; try easy.
      intros x Hx. apply (Hlr x k); [easy | left].
Qed.

Lemma elem_of_keys_insert f v t x :
  x ∈ keys (tree_insert f v t) <-> x = v \/ x ∈ keys t.
Proof.
  induction t as [|l IHl a k r IHr]; cbn.
  - rewrite elem_of_cons, elem_of_nil. tauto.
  - destruct (Z.eqb_spec k v) as [-> |]; [cbn; rewrite elem_of_app, elem_of_cons; tauto |].
    destruct (k <? v)%Z; cbn; rewrite !elem_of_app, !elem_of_cons, ?IHl, ?IHr; tauto.
Qed.

Lemma bst_insert f v t : bst t -> bst (tree_insert f v t).
Proof.
  induction t as [|l IHl a k r IHr]; cbn.
  - repeat split; constructor.
  - intros (Hl & Hr & Bl & Bst_r). destruct (Z.eqb_spec k v) as [-> | Hne]; [easy |].
    destruct (Z.ltb_spec k v); cbn; repeat split; auto.
    + rewrite Forall_forall in *. intros x Hx.
      apply elem_of_keys_insert in Hx as [-> | Hx]; [lia | auto].
    + rewrite Forall_forall in *. intros x Hx.
      apply elem_of_keys_insert in Hx as [-> | Hx]; [lia | auto].
Qed.

Lemma tree_insert_present f v t : bst t -> v ∈ keys t -> tree_insert f v t = t.
Proof.
  induction t as [|l IHl a k r IHr]; cbn.
  - intros _ H. now apply elem_of_nil in H.
  - intros (Hl & Hr & Bl & Bst_r) Hin. rewrite Forall_forall in Hl, Hr.
    destruct (Z.eqb_spec k v) as [-> | Hne]; [easy |].
    apply elem_of_app in Hin as [Hin | Hin].
    + pose proof (Hl _ Hin). destruct (Z.ltb_spec k v); [lia |]. now rewrite IHl.
    + apply elem_of_cons in Hin as [-> | Hin]; [easy |].
      pose proof (Hr _ Hin). destruct (Z.ltb_spec k v); [| lia]. now rewrite IHr.
Qed.

Lemma filter_all {A} (P : A -> Prop) `{!forall x, Decision (P x)} (l : list A) :
  Forall P l -> filter P l = l.
Proof.
  induction 1 as [|x l Hx _ IH]; [easy |]. rewrite filter_cons_True by easy. now rewrite IH.
Qed.

Lemma StronglySorted_filter {A} (R : relation A) (P : A -> Prop)
    `{!forall x, Decision (P x)} (l : list A) :
  StronglySorted R l -> StronglySorted R (filter P l).
Proof.
  induction 1 as [|x l _ IH Hx]; [constructor |].
  rewrite filter_cons. destruct (decide (P x)); [| easy].
  constructor; [easy |]. rewrite Forall_forall in *. intros y Hy.
  apply Hx. now apply list_elem_of_filter in Hy.
Qed.

Lemma keys_leftmost d t : t <> Leaf -> exists tl, keys t = leftmost d t :: tl.
Proof.
  revert d. induction t as [|l IHl a k r _]; intros d Hne; [easy |]. cbn.
  destruct l as [|ll la lk lr].
  - now exists (keys r).
  - destruct (IHl k ltac:(easy)) as (tl & ->). now eexists.
Qed.

Lemma keys_delete v t :
  bst t -> keys (tree_delete v t) = filter (fun x => x <> v) (keys t).
Proof.
  revert v. induction t as [|l IHl a k r IHr]; intros v; cbn; [easy |].
  intros (Hl & Hr & Bl & Bst_r). rewrite filter_app, filter_cons.
  destruct (Z.ltb_spec k v) as [Hkv | Hkv]; [| destruct (Z.ltb_spec v k) as [Hvk | Hvk]].
  - cbn. rewrite IHr by easy. rewrite decide_True by lia.
    rewrite (filter_all _ (keys l)); [easy |].
    eapply Forall_impl; [eassumption |]. cbn. lia.
  - cbn. rewrite IHl by easy. rewrite decide_True by lia.
    rewrite (filter_all _ (keys r)); [easy |].
    eapply Forall_impl; [eassumption |]. cbn. lia.
  - assert (k = v) as -> by lia. rewrite decide_False by lia.
    rewrite (filter_all _ (keys l)) by (eapply Forall_impl; [eassumption |]; cbn; lia).
    rewrite (filter_all _ (keys r)) by (eapply Forall_impl; [eassumption |]; cbn; lia).
    destruct l as [|ll la lk lr]; [easy |].
    destruct r as [|rl ra rk rr]; [cbn; now rewrite app_nil_r |].
    set (rt := Br rl ra rk rr) in *. set (lt := Br ll la lk lr) in *.
    cbn [keys]. rewrite IHr by easy.
    destruct (keys_leftmost v rt ltac:(easy)) as (tl & Etl).
    set (m := leftmost v rt) in *. rewrite Etl in *.
    apply bst_sorted in Bst_r. rewrite Etl in Bst_r.
    apply StronglySorted_cons in Bst_r as [Hm _].
    rewrite filter_cons, decide_False by lia.
    rewrite filter_all; [easy |]. eapply Forall_impl; [eassumption |]. cbn. lia.
Qed.

Lemma bst_delete v t : bst t -> bst (tree_delete v t).
Proof.
  intros B. apply bst_sorted. rewrite keys_delete by easy.
  apply StronglySorted_filter. now apply bst_sorted.
Qed.

Lemma tree_delete_absent v t : v ∉ keys t -> tree_delete v t = t.
Proof.
  induction t as [|l IHl a k r IHr]; cbn; [easy |].
  rewrite not_elem_of_app, not_elem_of_cons. intros (Hl & Hne & Hr).
  destruct (Z.ltb_spec k v); [now rewrite IHr |].
  destruct (Z.ltb_spec v k); [now rewrite IHl | lia].
Qed.

(** ** Calls that change nothing *)

Section Same.
Context {U : Type}.
Implicit Types (h : list Node) (r : NodeRef) (u : U).

Lemma insertRec_same fuel v h r u n t :
  shape h n t -> tree_height t < fuel -> tree_insert (length h) v t = t ->
  insertRec fuel (Num v) n (mkWorld h r u) = Returns n (mkWorld h r u).
Proof.
  revert n t. induction fuel as [|fuel IH]; intros n t Hs Hf Heq; [lia |].
  destruct t as [|l a k rt]; [discriminate |].
  cbn in Hs, Hf, Heq. destruct Hs as (-> & nl & nr & E & Hl & Hr).
  cbn [insertRec is_null]. step. cbn [number_eq number_lt].
  destruct (k =? v)%Z; [reflexivity |].
  destruct (k <? v)%Z; injection Heq as Heq; step.
  - rewrite (bind_Returns _ _ _ _ _ (IH _ _ Hr ltac:(lia) Heq)). step.
    now rewrite list_insert_id.
  - rewrite (bind_Returns _ _ _ _ _ (IH _ _ Hl ltac:(lia) Heq)). step.
    now rewrite list_insert_id.
Qed.

Lemma deleteItemRec_same fuel v h r u n t :
  shape h n t -> tree_height t < fuel -> v ∉ keys t ->
  deleteItemRec fuel (Num v) n (mkWorld h r u) = Returns n (mkWorld h r u).
Proof.
  revert n t. induction fuel as [|fuel IH]; intros n t Hs Hf Hnin; [lia |].
  destruct t as [|l a k rt]; cbn in Hs; [now subst n |].
  cbn in Hf, Hnin. destruct Hs as (-> & nl & nr & E & Hl & Hr).
  apply not_elem_of_app in Hnin as [Hnl Hnin].
  apply not_elem_of_cons in Hnin as [Hne Hnr].
  cbn [deleteItemRec is_null]. step. unfold number_gt. cbn [number_lt].
  destruct (Z.ltb_spec k v); [| destruct (Z.ltb_spec v k); [| lia]]; step.
  - rewrite (bind_Returns _ _ _ _ _ (IH _ _ Hr ltac:(lia) Hnr)). step.
    now rewrite list_insert_id.
  - rewrite (bind_Returns _ _ _ _ _ (IH _ _ Hl ltac:(lia) Hnl)). step.
    now rewrite list_insert_id.
Qed.

End Same.

(** ** The balanced build *)

Lemma half_lt n : n <> 0 -> n / 2 < n.
Proof. intros H. apply Nat.div_lt; lia. Qed.

Lemma keys_tree_build fuel base array :
  length array < fuel -> keys (tree_build fuel base array) = array.
Proof.
  revert base array. induction fuel as [|fuel IH]; intros base array Hf; [lia |].
  cbn [tree_build]. destruct (Nat.eqb_spec (length array) 0) as [E | E].
  - now destruct array.
  - pose proof (half_lt _ E) as Hmid.
    destruct (lookup_lt_is_Some_2 array _ Hmid) as [x Ex].
    cbn [keys]. rewrite Ex. cbn [default].
    rewrite !IH.
    + replace (length array / 2 + 1) with (S (length array / 2)) by lia.
      apply (take_drop_middle _ _ _ Ex).
    + rewrite length_drop. lia.
    + rewrite length_take. lia.
Qed.

Lemma size_tree_build fuel base array :
  length array < fuel -> size (tree_build fuel base array) = length array.
Proof. intros H. now rewrite <- length_keys, keys_tree_build. Qed.

Lemma locs_tree_build fuel base array b :
  length array < fuel -> b ∈ locs (tree_build fuel base array) ->
  base <= b < base + length array.
Proof.
  revert base array. induction fuel as [|fuel IH]; intros base array Hf; [lia |].
  cbn [tree_build]. destruct (Nat.eqb_spec (length array) 0) as [E | E].
  - cbn. intros H. now apply elem_of_nil in H.
  - pose proof (half_lt _ E) as Hmid. cbn [locs].
    rewrite elem_of_app, elem_of_cons. intros [H | [-> | H]]; [| lia |].
    + apply IH in H; rewrite length_take in *; lia.
    + apply IH in H; rewrite length_drop in *; lia.
Qed.

Lemma NoDup_tree_build fuel base array :
  length array < fuel -> NoDup (locs (tree_build fuel base array)).
Proof.
  revert base array. induction fuel as [|fuel IH]; intros base array Hf; [lia |].
  cbn [tree_build]. destruct (Nat.eqb_spec (length array) 0) as [E | E]; [constructor |].
  pose proof (half_lt _ E) as Hmid.
  assert (H1 : length (take (length array / 2) array) < fuel)
    by (rewrite length_take; lia).
  assert (H2 : length (drop (length array / 2 + 1) array) < fuel)
    by (rewrite length_drop; lia).
  apply NoDup_locs_Br. repeat split; auto.
  - intros H. apply locs_tree_build in H; [lia | easy].
  - intros H. apply locs_tree_build in H; [lia | easy].
  - intros x Hx Hx'. apply locs_tree_build in Hx; [| easy].
    apply locs_tree_build in Hx'; [| easy]. rewrite length_take in Hx. lia.
Qed.

Lemma tree_height_build fuel base array :
  tree_height (tree_build fuel base array) = build_height fuel (length array).
Proof.
  revert base array. induction fuel as [|fuel IH]; intros base array; [easy |].
  cbn [tree_build build_height]. destruct (Nat.eqb_spec (length array) 0) as [E | E]; [easy |].
  pose proof (half_lt _ E) as Hmid.
  cbn [tree_height]. rewrite !IH, length_take, length_drop.
  now rewrite Nat.min_l by lia.
Qed.

Lemma build_height_0 fuel : build_height fuel 0 = 0.
Proof. now destruct fuel. Qed.

(** One more key adds at most one level. *)
Lemma build_height_step fuel fuel' n m :
  n < fuel -> m < fuel' -> n <= m <= n + 1 ->
  build_height fuel n <= build_height fuel' m <= build_height fuel n + 1.
Proof.
  revert fuel' n m. induction fuel as [|fuel IH]; intros fuel' n m Hn Hm Hnm; [lia |].
  destruct fuel' as [|fuel']; [lia |].
  cbn [build_height].
  destruct (Nat.eqb_spec n 0) as [En | En]; destruct (Nat.eqb_spec m 0) as [Em | Em]; try lia.
  - assert (m = 1) as -> by lia. cbn. rewrite !build_height_0. cbn. lia.
  - pose proof (half_lt _ En). pose proof (half_lt _ Em).
    assert (n / 2 <= m / 2 <= n / 2 + 1).
    { split; [apply Nat.Div0.div_le_mono; lia |].
      destruct Hnm as [_ Hnm]. apply (Nat.Div0.div_le_mono _ _ 2) in Hnm.
      replace (n + 1) with (n + 1 * 2 - 1) in Hnm by lia.
      assert ((n + 1 * 2 - 1) / 2 <= (n + 1 * 2) / 2) by (apply Nat.Div0.div_le_mono; lia).
      rewrite Nat.div_add in * by lia. lia. }
    assert (n - (n / 2 + 1) <= m - (m / 2 + 1) <= n - (n / 2 + 1) + 1).
    { destruct (decide (m = n)) as [-> | Hne]; [lia |].
      assert (m = n + 1) as -> by lia.
      pose proof (Nat.div_mod_eq n 2). pose proof (Nat.div_mod_eq (n + 1) 2).
      pose proof (Nat.mod_upper_bound n 2). pose proof (Nat.mod_upper_bound (n + 1) 2).
      lia. }
    pose proof (IH fuel' (n / 2) (m / 2) ltac:(lia) ltac:(lia) ltac:(lia)).
    pose proof (IH fuel' (n - (n / 2 + 1)) (m - (m / 2 + 1)) ltac:(lia) ltac:(lia) ltac:(lia)).
    lia.
Qed.

Lemma halves n : n <> 0 -> n - (n / 2 + 1) <= n / 2 <= n - (n / 2 + 1) + 1.
Proof.
  intros H. pose proof (Nat.div_mod_eq n 2). pose proof (Nat.mod_upper_bound n 2). lia.
Qed.

Lemma balanced_tree_build fuel base array :
  length array < fuel -> balanced (tree_build fuel base array) = true.
Proof.
  revert base array. induction fuel as [|fuel IH]; intros base array Hf; [lia |].
  cbn [tree_build]. destruct (Nat.eqb_spec (length array) 0) as [E | E]; [easy |].
  pose proof (half_lt _ E) as Hmid. pose proof (halves _ E) as Hh.
  cbn [balanced]. rewrite !IH by (rewrite ?length_take, ?length_drop; lia).
  rewrite !tree_height_build, length_take, length_drop.
  rewrite Nat.min_l by lia.
  pose proof (build_height_step fuel fuel (length array - (length array / 2 + 1))
                (length array / 2) ltac:(lia) ltac:(lia) Hh).
  rewrite !andb_true_r. apply Z.leb_le. lia.
Qed.

Lemma size_balanced_tree_build fuel base array :
  length array < fuel -> size_balanced (tree_build fuel base array).
Proof.
  revert base array. induction fuel as [|fuel IH]; intros base array Hf; [lia |].
  cbn [tree_build]. destruct (Nat.eqb_spec (length array) 0) as [E | E]; [easy |].
  pose proof (half_lt _ E) as Hmid. pose proof (halves _ E) as Hh.
  assert (H1 : length (take (length array / 2) array) < fuel)
    by (rewrite length_take; lia).
  assert (H2 : length (drop (length array / 2 + 1) array) < fuel)
    by (rewrite length_drop; lia).
  cbn [size_balanced]. rewrite !size_tree_build by easy.
  rewrite length_take, length_drop. repeat split; auto; lia.
Qed.

Lemma mid_rooted_tree_build fuel base array :
  length array < fuel -> mid_rooted (tree_build fuel base array).
Proof.
  revert base array. induction fuel as [|fuel IH]; intros base array Hf; [lia |].
  pose proof (keys_tree_build (S fuel) base array Hf) as Ek. revert Ek.
  cbn [tree_build]. destruct (Nat.eqb_spec (length array) 0) as [E | E]; [easy |].
  pose proof (half_lt _ E) as Hmid.
  assert (H1 : length (take (length array / 2) array) < fuel)
    by (rewrite length_take; lia).
  assert (H2 : length (drop (length array / 2 + 1) array) < fuel)
    by (rewrite length_drop; lia).
  intros Ek. cbn [mid_rooted]. rewrite Ek. cbv zeta.
  destruct (lookup_lt_is_Some_2 array (length array / 2) Hmid) as [k Elk].
  rewrite Elk. cbn [default].
  split; [reflexivity |]. rewrite !keys_tree_build by assumption.
  split; [reflexivity |]. split; [reflexivity |]. split; now apply IH.
Qed.

Section Build.
Context {U : Type}.
Implicit Types (h : list Node) (r : NodeRef) (u : U).

Lemma buildTree_spec fuel (array : list Z) h r u :
  length array < fuel ->
  exists h',
    buildTree fuel (Num <$> array) (mkWorld h r u)
    = Returns (tree_ref (tree_build fuel (length h) array)) (mkWorld h' r u) /\
    shape h' (tree_ref (tree_build fuel (length h) array))
      (tree_build fuel (length h) array) /\
    length h' = length h + length array /\
    (forall b, b < length h -> h' !! b = h !! b).
Proof.
  revert array h. induction fuel as [|fuel IH]; intros array h Hf; [lia |].
  cbn [buildTree tree_build]. rewrite length_fmap.
  destruct (Nat.eqb_spec (length array) 0) as [E | E].
  { exists h. repeat split; try easy. lia. }
  pose proof (half_lt _ E) as Hmid.
  destruct (lookup_lt_is_Some_2 array _ Hmid) as [x Ex].
  rewrite list_lookup_fmap, Ex. cbn [fmap option_fmap option_map default].
  set (mid := length array / 2) in *.
  rewrite <- fmap_take, <- fmap_drop.
  assert (H1 : length (take mid array) < fuel) by (rewrite length_take; lia).
  assert (H2 : length (drop (mid + 1) array) < fuel) by (rewrite length_drop; lia).
  unfold bind at 1. unfold new_Node at 1. cbn [heap root user].
  set (h0 := h ++ [mkNode (Num x) null null]).
  assert (Eh0 : length h0 = length h + 1) by (unfold h0; rewrite length_app; cbn; lia).
  destruct (IH (take mid array) h0 H1) as (h1 & Erun1 & Hs1 & Hlen1 & Hk1).
  rewrite Eh0 in *. rewrite (bind_Returns _ _ _ _ _ Erun1).
  set (t1 := tree_build fuel (length h + 1) (take mid array)) in *.
  assert (E1 : h1 !! length h = Some (mkNode (Num x) null null)).
  { rewrite Hk1 by lia. unfold h0. now apply list_lookup_middle. }
  step.
  set (h2 := <[length h := mkNode (Num x) (tree_ref t1) null]> h1).
  assert (Eh2 : length h2 = length h + 1 + mid).
  { unfold h2. rewrite length_insert, Hlen1, length_take. lia. }
  destruct (IH (drop (mid + 1) array) h2 H2) as (h3 & Erun3 & Hs3 & Hlen3 & Hk3).
  rewrite Eh2 in *. rewrite (bind_Returns _ _ _ _ _ Erun3).
  set (t2 := tree_build fuel (length h + 1 + mid) (drop (mid + 1) array)) in *.
  assert (E2 : h2 !! length h = Some (mkNode (Num x) (tree_ref t1) null)).
  { unfold h2. apply list_lookup_insert_eq. lia. }
  assert (E3 : h3 !! length h = Some (mkNode (Num x) (tree_ref t1) null)).
  { rewrite Hk3 by lia. easy. }
  step. eexists. split; [reflexivity |]. cbn [tree_ref]. split; [| split].
  - eapply shape_Br.
    + apply list_lookup_insert_eq. lia.
    + assert (Hn1 : length h ∉ locs t1).
      { intros Hin. apply locs_tree_build in Hin; [lia | easy]. }
      apply shape_insert_other; [| easy].
      apply (shape_frame h2); [apply shape_insert_other; easy |].
      intros b Hb. apply Hk3. apply locs_tree_build in Hb; [| easy].
      rewrite length_take in Hb. lia.
    + apply shape_insert_other; [exact Hs3 |].
      intros Hin. apply locs_tree_build in Hin; [lia | easy].
  - rewrite length_insert, Hlen3, length_drop. lia.
  - intros b Hb. rewrite list_lookup_insert_ne by lia.
    rewrite Hk3 by lia. unfold h2. rewrite list_lookup_insert_ne by lia.
    rewrite Hk1 by lia. unfold h0. now apply lookup_app_l.
Qed.

End Build.

(** ** Deduplication and sorting of the input *)

Lemma elem_of_Set_add seen x y : y ∈ Set_add seen x <-> y = x \/ y ∈ seen.
Proof.
  induction seen as [|z seen IH]; cbn.
  - rewrite elem_of_cons, elem_of_nil. tauto.
  - destruct (decide (z = x)) as [-> |].
    + rewrite elem_of_cons. tauto.
    + rewrite !elem_of_cons, IH. tauto.
Qed.

Lemma NoDup_Set_add seen x : NoDup seen -> NoDup (Set_add seen x).
Proof.
  induction seen as [|z seen IH]; cbn; intros Hnd.
  - apply NoDup_singleton.
  - destruct (decide (z = x)) as [-> |]; [easy |].
    apply NoDup_cons in Hnd as [Hz Hnd]. apply NoDup_cons. split; [| auto].
    rewrite elem_of_Set_add. intros [-> | H]; easy.
Qed.

Lemma Set_values_spec nums :
  NoDup (Set_values nums) /\ forall x, x ∈ Set_values nums <-> x ∈ nums.
Proof.
  unfold Set_values.
  assert (G : forall seen, NoDup seen ->
            NoDup (foldl Set_add seen nums) /\
            forall x, x ∈ foldl Set_add seen nums <-> x ∈ seen \/ x ∈ nums).
  { induction nums as [|y nums IH]; intros seen Hnd; cbn.
    - split; [easy |]. intros x. rewrite elem_of_nil. tauto.
    - destruct (IH (Set_add seen y) (NoDup_Set_add _ _ Hnd)) as [H1 H2].
      split; [easy |]. intros x. rewrite H2, elem_of_Set_add, elem_of_cons. tauto. }
  destruct (G [] (NoDup_nil_2)) as [H1 H2]. split; [easy |].
  intros x. rewrite H2, elem_of_nil. tauto.
Qed.

Lemma numbers_are_Num (l : list number) :
  Forall (fun n => n <> NaN) l -> l = Num <$> (to_Z <$> l).
Proof.
  induction 1 as [|n l Hn _ IH]; [easy |]. cbn. rewrite <- IH.
  destruct n; [easy | reflexivity].
Qed.

Lemma sort_insert_Num z ks :
  StronglySorted Z.le ks ->
  exists ks', sort_insert (fun a b => number_sub a b) (Num z) (Num <$> ks) = Num <$> ks' /\
              ks' ≡ₚ z :: ks /\ StronglySorted Z.le ks'.
Proof.
  induction ks as [|y ks IH]; intros Hs.
  - exists [z]. repeat split; [easy | repeat constructor].
  - apply StronglySorted_cons in Hs as [Hy Hs]. cbn.
    unfold comes_after, number_gt. cbn [number_sub number_lt].
    destruct (Z.ltb_spec 0 (z - y)) as [Hlt | Hge].
    + destruct (IH Hs) as (ks' & E & Hp & Hs'). exists (y :: ks').
      split; [cbn; now rewrite E |]. split.
      * rewrite Hp. apply Permutation_swap.
      * apply StronglySorted_cons. split; [| easy].
        rewrite Hp. constructor; [lia | easy].
    + exists (z :: y :: ks). split; [easy |]. split; [easy |].
      apply StronglySorted_cons. split.
      * constructor; [lia |]. eapply Forall_impl; [eassumption |]. cbn. lia.
      * apply StronglySorted_cons. easy.
Qed.

Lemma Array_sort_Num zs :
  exists ks, Array_sort (fun a b => number_sub a b) (Num <$> zs) = Num <$> ks /\
             ks ≡ₚ zs /\ StronglySorted Z.le ks.
Proof.
  induction zs as [|z zs (ks & E & Hp & Hs)].
  - exists []. repeat split; constructor.
  - unfold Array_sort in *. cbn. rewrite E.
    destruct (sort_insert_Num z ks Hs) as (ks' & E' & Hp' & Hs').
    exists ks'. split; [easy |]. split; [| easy]. now rewrite Hp', Hp.
Qed.

Lemma StronglySorted_le_lt ks :
  StronglySorted Z.le ks -> NoDup ks -> StronglySorted Z.lt ks.
Proof.
  induction 1 as [|k ks _ IH Hk]; intros Hnd; [constructor |].
  apply NoDup_cons in Hnd as [Hnin Hnd]. constructor; [auto |].
  rewrite Forall_forall in *. intros x Hx. specialize (Hk x Hx).
  assert (x <> k) by (intros ->; easy). lia.
Qed.

Section Process.
Context {U : Type}.
Variable StringToNumber : string -> number.
Implicit Types (w : World U) (array : list (JSValue U)).

Lemma isNaN_Number (v : JSValue U) :
  isNaN StringToNumber v = false <-> Number StringToNumber v <> NaN.
Proof. unfold isNaN. destruct (Number _ v); split; congruence. Qed.

Lemma Array_map_convert array w :
  Forall (coercible StringToNumber) array ->
  Array_map (fun item =>
     if isNaN StringToNumber item
     then throw (Error ("Trying to convert " +:+ ToString item +:+ " to a number"))
     else ret (Number StringToNumber item)) array w
  = Returns (Number StringToNumber <$> array) w.
Proof.
  induction 1 as [|v array Hv _ IH]; [easy |].
  cbn [Array_map]. unfold coercible in Hv. rewrite Hv.
  unfold bind at 1. cbn. unfold bind at 1. now rewrite IH.
Qed.

(** With an element that does not convert, the conversion throws and
    nothing has been written. *)
Lemma Array_map_convert_throws array w :
  ~ Forall (coercible StringToNumber) array ->
  exists item,
    item ∈ array /\ isNaN StringToNumber item = true /\
    Array_map (fun item =>
       if isNaN StringToNumber item
       then throw (Error ("Trying to convert " +:+ ToString item +:+ " to a number"))
       else ret (Number StringToNumber item)) array w
    = Throws (Error ("Trying to convert " +:+ ToString item +:+ " to a number")) w.
Proof.
  induction array as [|v array IH]; intros Hn.
  - destruct Hn. constructor.
  - cbn [Array_map]. destruct (isNaN StringToNumber v) eqn:Ev.
    + exists v. split; [left |]. easy.
    + destruct IH as (item & Hin & Hnan & Erun).
      { intros Hall. apply Hn. now constructor. }
      exists item. split; [now right |]. split; [easy |].
      unfold bind at 1. cbn. unfold bind at 1. now rewrite Erun.
Qed.

Lemma processArray_spec array w :
  Forall (coercible StringToNumber) array ->
  exists ks,
    processArray StringToNumber array w = Returns (Num <$> ks) w /\
    StronglySorted Z.lt ks /\
    (forall k, k ∈ ks <-> Num k ∈ (Number StringToNumber <$> array)) /\
    length ks <= length array.
Proof.
  intros Hall. unfold processArray.
  rewrite (bind_Returns _ _ _ _ _ (Array_map_convert array w Hall)).
  set (nums := Number StringToNumber <$> array).
  destruct (Set_values_spec nums) as [Hnd Hel].
  assert (Hnum : Forall (fun n => n <> NaN) (Set_values nums)).
  { rewrite Forall_forall. intros n Hn. apply Hel in Hn.
    unfold nums in Hn. apply list_elem_of_fmap in Hn as (v & -> & Hv).
    rewrite Forall_forall in Hall. now apply isNaN_Number, Hall. }
  rewrite (numbers_are_Num _ Hnum).
  destruct (Array_sort_Num (to_Z <$> Set_values nums)) as (ks & E & Hp & Hs).
  exists ks. rewrite E. split; [reflexivity |].
  assert (Hnd' : NoDup (to_Z <$> Set_values nums)).
  { apply (NoDup_fmap_1 Num). now rewrite <- numbers_are_Num. }
  split; [| split].
  - apply StronglySorted_le_lt; [easy |]. now rewrite Hp.
  - intros k. rewrite Hp, <- Hel. rewrite (numbers_are_Num _ Hnum) at 2.
    split; [apply list_elem_of_fmap_2 |].
    intros Hk. apply list_elem_of_fmap in Hk as (k' & Ek & Hk'). now injection Ek as ->.
  - rewrite Hp, length_fmap.
    replace (length array) with (length nums) by (unfold nums; apply length_fmap).
    apply submseteq_length, NoDup_submseteq; [easy |]. intros x. apply Hel.
Qed.

End Process.

(** ** The public methods *)

Lemma size_tree_insert f v t : size (tree_insert f v t) <= S (size t).
Proof.
  induction t as [|l IHl a k r IHr]; cbn; [lia |].
  destruct (k =? v)%Z; [cbn; lia |]. destruct (k <? v)%Z; cbn; lia.
Qed.

Lemma size_tree_delete v t : size (tree_delete v t) <= size t.
Proof.
  rewrite <- !length_locs. apply sublist_length, locs_tree_delete.
Qed.

Lemma NoDup_locs_insert f v t :
  NoDup (locs t) -> f ∉ locs t -> NoDup (locs (tree_insert f v t)).
Proof.
  induction t as [|l IHl a k r IHr]; intros Hnd Hf.
  - cbn. apply NoDup_singleton.
  - cbn [tree_insert]. destruct (k =? v)%Z; [easy |].
    apply NoDup_locs_Br in Hnd as (Hndl & Hndr & Hal & Har & Hd).
    cbn in Hf. rewrite not_elem_of_app, not_elem_of_cons in Hf.
    destruct Hf as (Hfl & Hfa & Hfr).
    destruct (k <? v)%Z; apply NoDup_locs_Br; repeat split; auto.
    + intros Hin. apply locs_tree_insert in Hin as [-> | Hin]; easy.
    + intros x Hx Hin. apply locs_tree_insert in Hin as [-> | Hin]; [easy |].
      now apply (Hd x).
    + intros Hin. apply locs_tree_insert in Hin as [-> | Hin]; easy.
    + intros x Hin Hx. apply locs_tree_insert in Hin as [-> | Hin]; [easy |].
      now apply (Hd x).
Qed.

Lemma typeof_function {U} src (f : NodeRef -> M U unit) :
  negb (String.eqb (typeof (VFunction src f)) "function") = false.
Proof. reflexivity. Qed.

Lemma typeof_invocable {U} (callback : JSValue U) :
  invocable callback -> negb (String.eqb (typeof callback) "function") = false.
Proof. unfold invocable. now intros ->. Qed.

Section Methods.
Context {U : Type}.
Variable StringToNumber : string -> number.
Implicit Types (w : World U) (t : tree).

Lemma coercible_Num (v : JSValue U) :
  coercible StringToNumber v -> Number StringToNumber v = Num (to_Z (Number StringToNumber v)).
Proof. unfold coercible, isNaN. now destruct (Number _ v). Qed.

Lemma insert_spec fuel (v : JSValue U) w t :
  tree_at w t -> coercible StringToNumber v -> tree_height t < fuel ->
  exists w',
    insert StringToNumber fuel v w = Returns tt w' /\
    tree_at w' (tree_insert (length (heap w)) (to_Z (Number StringToNumber v)) t) /\
    user w' = user w.
Proof.
  intros [Hs Hnd] Hv Hf. destruct w as [h r u]. cbn [heap root user] in *.
  unfold insert. rewrite Hv, (coercible_Num _ Hv).
  unfold bind at 1, get_root at 1. cbn [root].
  destruct (insertRec_spec fuel (to_Z (Number StringToNumber v)) h r u r t Hs Hnd Hf)
    as (h' & Erun & Hs' & Hk).
  rewrite (bind_Returns _ _ _ _ _ Erun). eexists. split; [reflexivity |].
  split; [| easy]. split; [easy |]. cbn [heap root].
  apply NoDup_locs_insert; [easy |]. intros Hin.
  pose proof (shape_locs_lt _ _ _ Hs) as Hlt. rewrite Forall_forall in Hlt.
  specialize (Hlt _ Hin). lia.
Qed.

Lemma deleteItem_spec fuel (v : JSValue U) w t :
  tree_at w t -> coercible StringToNumber v -> tree_height t < fuel ->
  exists w',
    deleteItem StringToNumber fuel v w = Returns tt w' /\
    tree_at w' (tree_delete (to_Z (Number StringToNumber v)) t) /\
    user w' = user w.
Proof.
  intros [Hs Hnd] Hv Hf. destruct w as [h r u]. cbn [heap root user] in *.
  unfold deleteItem. rewrite Hv, (coercible_Num _ Hv).
  unfold bind at 1, get_root at 1. cbn [root].
  destruct (deleteItemRec_spec fuel (to_Z (Number StringToNumber v)) h r u r t Hs Hnd Hf)
    as (h' & Erun & Hs' & Hk & Hlen).
  rewrite (bind_Returns _ _ _ _ _ Erun). eexists. split; [reflexivity |].
  split; [| easy]. split; [easy |]. cbn [heap root].
  eapply sublist_NoDup; [eassumption | apply locs_tree_delete].
Qed.

Lemma constructor_spec fuel (array : list (JSValue U)) w :
  Forall (coercible StringToNumber) array -> length array < fuel ->
  exists w' t,
    constructor StringToNumber fuel array w = Returns tt w' /\
    tree_at w' t /\ user w' = user w /\
    StronglySorted Z.lt (keys t) /\
    (forall k, k ∈ keys t <-> Num k ∈ (Number StringToNumber <$> array)) /\
    size t <= length array /\
    balanced t = true /\ size_balanced t.
Proof.
  intros Hall Hf. destruct w as [h r u]. unfold constructor.
  destruct (processArray_spec StringToNumber array (mkWorld h r u) Hall)
    as (ks & Erun & Hs & Hel & Hlen).
  rewrite (bind_Returns _ _ _ _ _ Erun).
  assert (Hf' : length ks < fuel) by lia.
  destruct (buildTree_spec fuel ks h r u Hf') as (h' & Erun' & Hs' & _).
  rewrite (bind_Returns _ _ _ _ _ Erun').
  exists (mkWorld h' (tree_ref (tree_build fuel (length h) ks)) u),
    (tree_build fuel (length h) ks).
  split; [reflexivity |]. rewrite keys_tree_build by easy.
  repeat split; try easy.
  - now apply NoDup_tree_build.
  - now apply Hel.
  - now apply Hel.
  - rewrite size_tree_build by easy. lia.
  - now apply balanced_tree_build.
  - now apply size_balanced_tree_build.
Qed.

(** The constructor returns exactly when every element converts. *)
Lemma constructor_Returns_iff fuel (array : list (JSValue U)) w :
  length array < fuel ->
  (exists w', constructor StringToNumber fuel array w = Returns tt w')
  <-> Forall (coercible StringToNumber) array.
Proof.
  intros Hf. split.
  - intros [w' E].
    destruct (decide (Forall (fun v => isNaN StringToNumber v = false) array))
      as [Hall | Hn]; [exact Hall |].
    destruct (Array_map_convert_throws StringToNumber array w Hn) as (item & _ & _ & Erun).
    unfold constructor, processArray in E.
    rewrite (bind_Throws _ _ _ _ _ (bind_Throws _ _ _ _ _ Erun)) in E. discriminate.
  - intros Hall.
    destruct (constructor_spec fuel array w Hall Hf) as (w' & t & E & _). now exists w'.
Qed.

Lemma one_to_n_coercible n : Forall (coercible StringToNumber) (one_to_n (U := U) n).
Proof. unfold one_to_n. apply Forall_fmap, Forall_forall. now intros. Qed.

Lemma collect_inOrder_spec fuel w t :
  tree_at w t -> tree_height t < fuel ->
  collect_inOrder fuel w = Returns (Num <$> keys t) w.
Proof.
  intros [Hs _] Hf. destruct w as [h r u]. cbn [heap root] in Hs.
  unfold collect_inOrder, with_local, inOrder.
  rewrite typeof_function.
  unfold bind, get_root. cbn [heap root user].
  now rewrite (inOrderRec_push_data fuel _ h r [] r t Hs Hf).
Qed.

Lemma isBalanced_spec fuel w t :
  tree_at w t -> tree_height t < fuel ->
  isBalanced fuel w = Returns (balanced t) w.
Proof.
  intros [Hs _] Hf. destruct w as [h r u]. cbn [heap root] in Hs.
  unfold isBalanced, bind, get_root. cbn [root].
  now rewrite (isBalancedRec_spec fuel h r u r t Hs Hf).
Qed.

Lemma run_ops_spec fuel (ops : list (Op U)) w t :
  tree_at w t -> bst t ->
  Forall (fun op => coercible StringToNumber (op_value op)) ops ->
  size t + length ops < fuel ->
  exists w' t',
    run_ops StringToNumber fuel ops w = Returns tt w' /\
    tree_at w' t' /\ bst t' /\ size t' <= size t + length ops /\ user w' = user w.
Proof.
  intros Ht Hb Hall. revert w t Ht Hb.
  induction Hall as [|op ops Hop _ IH]; intros w t Ht Hb Hf.
  - exists w, t. cbn [run_ops length]. split; [reflexivity |].
    split; [exact Ht |]. split; [exact Hb |]. split; [lia | reflexivity].
  - cbn [length] in Hf. pose proof (tree_height_le_size t) as Hh.
    cbn [run_ops]. destruct op as [v | v]; cbn [run_op op_value] in *.
    + destruct (insert_spec fuel v w t Ht Hop ltac:(lia)) as (w1 & Erun & Ht1 & Hu1).
      rewrite (bind_Returns _ _ _ _ _ Erun).
      pose proof (size_tree_insert (length (heap w)) (to_Z (Number StringToNumber v)) t).
      destruct (IH w1 _ Ht1 (bst_insert _ _ _ Hb) ltac:(lia)) as (w' & t' & E & Ht' & Hb' & Hsz & Hu').
      exists w', t'. split; [exact E |]. split; [exact Ht' |]. split; [exact Hb' |].
      split; [cbn [length]; lia | congruence].
    + destruct (deleteItem_spec fuel v w t Ht Hop ltac:(lia)) as (w1 & Erun & Ht1 & Hu1).
      rewrite (bind_Returns _ _ _ _ _ Erun).
      pose proof (size_tree_delete (to_Z (Number StringToNumber v)) t).
      destruct (IH w1 _ Ht1 (bst_delete _ _ Hb) ltac:(lia)) as (w' & t' & E & Ht' & Hb' & Hsz & Hu').
      exists w', t'. split; [exact E |]. split; [exact Ht' |]. split; [exact Hb' |].
      split; [cbn [length]; lia | congruence].
Qed.

End Methods.

(** ** Traversals with a callback that writes to no node *)

Section Quiet.
Context {U : Type}.
Implicit Types (w : World U) (callback : JSValue U).

Lemma unchanged_Returns {A} w (a : A) : unchanged w (Returns a w).
Proof. now split. Qed.

Lemma unchanged_Throws {A} w e : unchanged w (Throws (A := A) e w).
Proof. now split. Qed.

Lemma unchanged_trans {A} w w' (o : Outcome U A) :
  heap w' = heap w -> root w' = root w -> unchanged w' o -> unchanged w o.
Proof. intros Hh Hr. destruct o; cbn; [| | easy]; intros [-> ->]; easy. Qed.

Lemma unchanged_bind {A B} (m : M U A) (k : A -> M U B) w :
  unchanged w (m w) ->
  (forall a w', m w = Returns a w' -> heap w' = heap w -> root w' = root w ->
                unchanged w' (k a w')) ->
  unchanged w ((x <- m ;; k x) w).
Proof.
  intros Hm Hk. unfold bind. destruct (m w) as [a w' | e w' |] eqn:E; cbn in Hm.
  - destruct Hm as [Hh Hr]. eapply unchanged_trans; eauto.
  - easy.
  - easy.
Qed.

Lemma inOrderRec_quiet fuel callback w n t :
  quiet callback -> shape (heap w) n t -> tree_height t < fuel ->
  unchanged w (inOrderRec fuel callback n w).
Proof.
  intros Hq. revert w n t. induction fuel as [|fuel IH]; intros w n t Hs Hf; [lia |].
  destruct t as [|l a k rt]; cbn in Hs.
  - subst n. apply unchanged_Returns.
  - destruct Hs as (-> & nl & nr & E & Hl & Hr). cbn in Hf.
    destruct w as [h r u]. cbn [heap] in *.
    cbn [inOrderRec is_null]. step.
    apply unchanged_bind; [apply (IH _ _ l); [easy | lia] |].
    intros _ [h1 r1 u1] _ Hh1 Hr1. cbn [heap root] in *. subst h1 r1.
    apply unchanged_bind; [apply Hq; cbn; eauto |].
    intros _ [h2 r2 u2] _ Hh2 Hr2. cbn [heap root] in *. subst h2 r2.
    step. apply (IH _ _ rt); [easy | lia].
Qed.

(** One level of [levelOrder]: the nodes of [q1] are visited, their
    children join the queue behind [q2]. *)
Lemma levelOrder_for_quiet callback (H : nat) n :
  quiet callback ->
  forall q1 ts1 q2 ts2 w,
    length q1 = n ->
    Forall2 (shape (heap w)) q1 ts1 -> Forall2 (shape (heap w)) q2 ts2 ->
    Forall (fun t => t <> Leaf /\ tree_height t <= S H) ts1 ->
    Forall (fun t => t <> Leaf /\ tree_height t <= H) ts2 ->
    match levelOrder_for callback n (q1 ++ q2) w with
    | Returns queue w' =>
        heap w' = heap w /\ root w' = root w /\
        exists ts, Forall2 (shape (heap w)) queue ts /\
                   Forall (fun t => t <> Leaf /\ tree_height t <= H) ts
    | Throws _ w' => heap w' = heap w /\ root w' = root w
    | Stuck => False
    end.
Proof.
  intros Hq. induction n as [|n IH]; intros q1 ts1 q2 ts2 w Hlen H1 H2 Hh1 Hh2.
  - destruct q1; [| easy]. cbn. repeat split. now exists ts2.
  - destruct H1 as [|node t q1 ts1 Hs H1]; [easy |].
    apply Forall_cons in Hh1 as [[Hne Hht] Hh1].
    destruct t as [|l a k rt]; [easy |]. cbn in Hs, Hht.
    destruct Hs as (-> & nl & nr & E & Hl & Hr).
    cbn [levelOrder_for app head tail default]. unfold id.
    unfold bind at 1. specialize (Hq (ref a) w ltac:(cbn; eauto)).
    destruct (call callback (ref a) w) as [[] [h1 r1 u1] | e w1 |]; cbn in Hq;
      [| exact Hq | exact Hq].
    destruct w as [h r u]. cbn [heap root] in *. destruct Hq as [-> ->].
    step. step.
    set (q2' := (if is_null nr
                 then if is_null nl then q1 ++ q2 else (q1 ++ q2) ++ [nl]
                 else (if is_null nl then q1 ++ q2 else (q1 ++ q2) ++ [nl]) ++ [nr])).
    set (c := (if is_null nl then [] else [nl]) ++ (if is_null nr then [] else [nr])).
    assert (Eq : q2' = q1 ++ (q2 ++ c)).
    { unfold q2', c. destruct (is_null nl), (is_null nr); cbn;
        rewrite ?app_nil_r, <- ?app_assoc; reflexivity. }
    rewrite Eq.
    set (tc := (match l with Leaf => [] | _ => [l] end)
               ++ (match rt with Leaf => [] | _ => [rt] end)).
    specialize (IH q1 ts1 (q2 ++ c) (ts2 ++ tc) (mkWorld h r u1)).
    cbn [heap root] in IH. apply IH; clear IH.
    + cbn in Hlen. lia.
    + easy.
    + apply Forall2_app; [easy |]. unfold c, tc. apply Forall2_app.
      * destruct l; cbn in Hl; [subst nl; constructor |].
        destruct Hl as [-> Hl']. cbn [is_null]. repeat constructor. easy.
      * destruct rt; cbn in Hr; [subst nr; constructor |].
        destruct Hr as [-> Hr']. cbn [is_null]. repeat constructor. easy.
    + easy.
    + apply Forall_app. split; [easy |]. unfold tc. apply Forall_app. split.
      * destruct l; [constructor |]. repeat constructor; [easy | lia].
      * destruct rt; [constructor |]. repeat constructor; [easy | lia].
Qed.

(** The levels below the queue are at most [H] deep, and [H] rounds of the
    loop empty the queue. *)
Lemma levelOrder_while_quiet callback fuel :
  quiet callback ->
  forall (H : nat) queue ts w,
    Forall2 (shape (heap w)) queue ts ->
    Forall (fun t => t <> Leaf /\ tree_height t <= H) ts ->
    H < fuel ->
    unchanged w (levelOrder_while fuel callback (length queue) queue w).
Proof.
  intros Hq. induction fuel as [|fuel IH]; intros H queue ts w H2 Hh Hf; [lia |].
  cbn [levelOrder_while]. destruct (Nat.ltb_spec 0 (length queue)) as [Hpos | Hz].
  - destruct H as [|H].
    { destruct H2 as [|node t q ts' Hs H2]; [cbn in Hpos; lia |].
      apply Forall_cons in Hh as [[Hne Hht] _]. destruct t; [easy | cbn in Hht; lia]. }
    pose proof (levelOrder_for_quiet callback H (length queue) Hq queue ts [] [] w
                  eq_refl H2 ltac:(constructor) Hh (Forall_nil_2 _)) as Hfor.
    rewrite app_nil_r in Hfor.
    unfold bind. destruct (levelOrder_for _ _ _ w) as [queue' w' | e w' |]; [| easy | easy].
    destruct Hfor as (Hh' & Hr' & ts' & H2' & Hhs).
    eapply unchanged_trans; [exact Hh' | exact Hr' |].
    apply (IH H queue' ts'); [now rewrite Hh' | easy | lia].
  - apply unchanged_Returns.
Qed.

Lemma levelOrder_quiet fuel callback w t :
  quiet callback -> tree_at w t -> tree_height t < fuel ->
  unchanged w (levelOrder fuel callback w).
Proof.
  intros Hq [Hs _] Hf. unfold levelOrder.
  destruct (negb _); [apply unchanged_Throws |].
  unfold bind, get_root. destruct (is_null (root w)) eqn:En; [apply unchanged_Returns |].
  assert (Hne : t <> Leaf).
  { intros ->. cbn in Hs. rewrite Hs in En. discriminate. }
  apply (levelOrder_while_quiet callback fuel Hq (tree_height t) [root w] [t]).
  - repeat constructor. exact Hs.
  - repeat constructor; easy.
  - exact Hf.
Qed.

Lemma inOrder_quiet fuel callback w t :
  quiet callback -> tree_at w t -> tree_height t < fuel ->
  unchanged w (inOrder fuel callback w).
Proof.
  intros Hq [Hs _] Hf. unfold inOrder.
  destruct (negb _); [apply unchanged_Throws |].
  unfold bind, get_root. now apply (inOrderRec_quiet fuel callback w _ t).
Qed.

End Quiet.

(** ** Rebalancing *)

Section Rebalance.
Context {U : Type}.
Implicit Types (w : World U) (t : tree).

Lemma rebalance_spec fuel w t :
  tree_at w t -> size t < fuel ->
  exists w' t',
    rebalance fuel w = Returns tt w' /\ tree_at w' t' /\
    keys t' = keys t /\ balanced t' = true /\ user w' = user w /\
    (balanced t = true -> w' = w).
Proof.
  intros Ht Hf. pose proof (tree_height_le_size t) as Hh.
  unfold rebalance.
  rewrite (bind_Returns _ _ _ _ _ (isBalanced_spec fuel w t Ht ltac:(lia))).
  destruct (balanced t) eqn:Eb; cbn [negb].
  - exists w, t. split; [reflexivity |]. split; [exact Ht |]. now repeat split.
  - destruct Ht as [Hs Hnd]. destruct w as [h r u]. cbn [heap root] in Hs.
    assert (Ein : with_local [] (inOrder fuel
                     (VFunction "(node) => data.push(node.data)" push_data))
                    (mkWorld h r u)
                  = Returns (tt, Num <$> keys t) (mkWorld h r u)).
    { unfold with_local, inOrder. rewrite typeof_function.
      unfold bind, get_root. cbn [heap root user].
      now rewrite (inOrderRec_push_data fuel _ h r [] r t Hs ltac:(lia)). }
    rewrite (bind_Returns _ _ _ _ _ Ein). cbn [snd].
    assert (Hf' : length (keys t) < fuel) by (rewrite length_keys; lia).
    destruct (buildTree_spec fuel (keys t) h r u Hf') as (h' & Erun & Hs' & _).
    rewrite (bind_Returns _ _ _ _ _ Erun).
    eexists _, (tree_build fuel (length h) (keys t)).
    split; [reflexivity |]. split; [split; [exact Hs' | now apply NoDup_tree_build] |].
    split; [now apply keys_tree_build |].
    split; [now apply balanced_tree_build |]. split; [reflexivity | discriminate].
Qed.

End Rebalance.

(** ** The sorted, deduplicated contents *)

Lemma StronglySorted_lt_le ks : StronglySorted Z.lt ks -> StronglySorted Z.le ks.
Proof.
  induction 1 as [|k ks _ IH Hk]; constructor; [easy |].
  eapply Forall_impl; [eassumption |]. cbn. lia.
Qed.

Lemma StronglySorted_lt_NoDup ks : StronglySorted Z.lt ks -> NoDup ks.
Proof.
  induction 1 as [|k ks _ IH Hk]; constructor; [| easy].
  intros Hin. rewrite Forall_forall in Hk. specialize (Hk _ Hin). lia.
Qed.

Lemma sorted_dedup_unique (l ks : list Z) :
  StronglySorted Z.lt ks -> (forall k, k ∈ ks <-> k ∈ l) -> ks = sorted_dedup l.
Proof.
  intros Hs Hel. unfold sorted_dedup.
  apply (StronglySorted_unique Z.le).
  - now apply StronglySorted_lt_le.
  - apply StronglySorted_merge_sort; apply _.
  - rewrite merge_sort_Permutation. apply NoDup_Permutation.
    + now apply StronglySorted_lt_NoDup.
    + apply NoDup_remove_dups.
    + intros k. now rewrite Hel, elem_of_remove_dups.
Qed.

(** ** What the constructor builds *)

Section Built.
Context {U : Type}.
Variable StringToNumber : string -> number.

(** What the constructor returns: the balanced build of the sorted,
    deduplicated numbers, in fresh objects behind the store. *)
Lemma constructor_builds fuel (array : list (JSValue U)) h r u :
  Forall (coercible StringToNumber) array -> length array < fuel ->
  let ks := sorted_dedup ((fun v => to_Z (Number StringToNumber v)) <$> array) in
  let t := tree_build fuel (length h) ks in
  exists h',
    constructor StringToNumber fuel array (mkWorld h r u)
    = Returns tt (mkWorld h' (tree_ref t) u) /\
    shape h' (tree_ref t) t /\
    length h' = length h + length ks /\
    (forall b, b < length h -> h' !! b = h !! b) /\
    length ks <= length array.
Proof.
  intros Hall Hf ks t. unfold constructor.
  destruct (processArray_spec StringToNumber array (mkWorld h r u) Hall)
    as (ks' & Erun & Hs & Hel & Hlen).
  assert (ks' = ks) as ->.
  { apply sorted_dedup_unique; [exact Hs |].
    intros k. rewrite Hel, !list_elem_of_fmap. rewrite Forall_forall in Hall.
    split; intros (v & Ev & Hv); exists v; (split; [| exact Hv]).
    - now rewrite <- Ev.
    - now rewrite Ev, <- (coercible_Num _ _ (Hall _ Hv)). }
  rewrite (bind_Returns _ _ _ _ _ Erun).
  destruct (buildTree_spec fuel ks h r u ltac:(lia)) as (h' & Erun' & Hs' & Hlen' & Hk).
  rewrite (bind_Returns _ _ _ _ _ Erun').
  exists h'. repeat split; auto.
Qed.

End Built.

(** ** The example worlds hold the example trees *)

Lemma example_tree_at : tree_at example_world example_tree.
Proof.
  split.
  - cbn. repeat (split; [reflexivity |]; eexists _, _; split; [reflexivity |]).
    repeat split; try reflexivity.
    + eexists _, _. repeat split; try reflexivity. eexists _, _. now repeat split.
    + eexists _, _. now repeat split.
  - cbn. compute_done.
Defined.

Lemma skewed_tree_at : tree_at skewed_world skewed_tree.
Proof.
  split.
  - cbn. split; [reflexivity |]. eexists _, _. repeat split; try reflexivity.
    eexists _, _. repeat split; try reflexivity. eexists _, _. now repeat split.
  - cbn. compute_done.
Defined.

Lemma example_bst : bst example_tree.
Proof. cbn. repeat split; repeat constructor. Defined.

Lemma push_data_quiet : quiet push_data_callback.
Proof.
  intros [| |a] [h r u] Hv; cbn in Hv; cbn [push_data_callback call].
  - now split.
  - now split.
  - destruct Hv as [nd E]. rewrite (push_data_run _ _ _ _ _ E). now split.
Defined.

(** ** Runs of the methods on the examples *)

Example example_world_built :
  constructor decimal_literal 7 example_array empty_world = Returns tt example_world.
Proof. reflexivity. Qed.

Example skewed_world_built :
  (constructor decimal_literal 1 [] ;;;
   run_ops decimal_literal 3
     [Insert (VNumber (Num 1)); Insert (VNumber (Num 2)); Insert (VNumber (Num 3))])
    empty_world
  = Returns tt skewed_world.
Proof. reflexivity. Qed.

Example example_isBalanced :
  isBalanced 4 example_world = Returns true example_world.
Proof. reflexivity. Qed.

Example skewed_not_balanced :
  isBalanced 4 skewed_world = Returns false skewed_world.
Proof. reflexivity. Qed.

Example example_levelOrder :
  levelOrder 4 push_data_callback example_world
  = Returns tt (mkWorld (heap example_world) (root example_world)
                  [Num 6; Num 3; Num 8; Num 1]).
Proof. reflexivity. Qed.

Example example_deleteItem_3 :
  (deleteItem decimal_literal 4 (VNumber (Num 3)) ;;; collect_inOrder 4) example_world
  = Returns [Num 1; Num 6; Num 8]
      (mkWorld [mkNode (Num 6) (ref 2) (ref 3); mkNode (Num 3) (ref 2) null;
                mkNode (Num 1) null null; mkNode (Num 8) null null]
               (ref 0) []).
Proof. reflexivity. Qed.

(** Deleting the root, which has two children: the root object stays and
    takes the key 8 of the leftmost node of its right subtree. *)
Example example_deleteItem_6 :
  deleteItem decimal_literal 4 (VNumber (Num 6)) example_world
  = Returns tt
      (mkWorld [mkNode (Num 8) (ref 1) null; mkNode (Num 3) (ref 2) null;
                mkNode (Num 1) null null; mkNode (Num 8) null null]
               (ref 0) []).
Proof. reflexivity. Qed.

Example example_find_99 :
  find decimal_literal 4 (VNumber (Num 99)) example_world = Returns null example_world.
Proof. reflexivity. Qed.

Example example_insert_abc :
  insert decimal_literal 4 (VString "abc") example_world
  = Throws (Error "Trying to insert a non-numeric value") example_world.
Proof. reflexivity. Qed.

Example example_inOrder_not_a_function :
  inOrder 4 (VNumber (Num 1)) example_world
  = Throws (Error "Trying to traverse without a callback function") example_world.
Proof. reflexivity. Qed.

(** * The claims *)

Section Claims.
Context {U : Type}.
Variable StringToNumber : string -> number.
Implicit Types (w : World U) (t : tree) (callback : JSValue U).

(** C1.  On a non-empty tree [preOrder(cb)] calls the callback on the root
    and then throws a [TypeError]: the recursive calls of [#preOrderRec]
    pass the child where the callback is expected.  No other node is
    visited, so the pre-order of the claim is not produced on a tree of two
    nodes or more. *)
Theorem preOrder_stops_after_root fuel callback w t w1 :
  tree_at w t -> t <> Leaf -> 1 < fuel -> invocable callback ->
  call callback (root w) w = Returns tt w1 -> heap w1 = heap w ->
  preOrder fuel callback w = Throws TypeError w1.
Proof.
  intros [Hs _] Hne Hf Hinv Hcall Hh.
  destruct t as [|l a k rt]; [easy |]. cbn in Hs.
  destruct Hs as (Er & nl & nr & E & _).
  destruct fuel as [|[|fuel]]; try lia.
  unfold preOrder. rewrite (typeof_invocable _ Hinv).
  unfold bind at 1, get_root at 1. rewrite Er in *.
  cbn [preOrderRec is_null].
  rewrite (bind_Returns _ _ _ _ _ Hcall).
  destruct w1 as [h1 r1 u1]. cbn [heap] in Hh. subst h1. step.
  unfold bind at 1. now destruct nl.
Qed.

(** C2.  On a non-empty tree [postOrder(cb)] throws a [TypeError] before
    any call of the callback: the first recursive call of [#postOrderRec]
    leaves [node] undefined and reads [node.left]. *)
Theorem postOrder_throws fuel callback w t :
  tree_at w t -> t <> Leaf -> 1 < fuel -> invocable callback ->
  postOrder fuel callback w = Throws TypeError w.
Proof.
  intros [Hs _] Hne Hf Hinv.
  destruct t as [|l a k rt]; [easy |]. cbn in Hs.
  destruct Hs as (Er & nl & nr & E & _).
  destruct fuel as [|[|fuel]]; try lia.
  unfold postOrder. rewrite (typeof_invocable _ Hinv).
  unfold bind at 1, get_root at 1. rewrite Er in *.
  destruct w as [h r u]. cbn [heap] in E.
  cbn [postOrderRec is_null]. step. reflexivity.
Qed.

(** C3.  After the constructor and any sequence of [insert] and
    [deleteItem] calls with values that convert to numbers, an in-order
    traversal collects a strictly ascending sequence of keys: the keys of a
    tree that satisfies the search-tree ordering at every node, each key
    once. *)
Theorem bst_invariant fuel (array : list (JSValue U)) (ops : list (Op U)) w0 :
  Forall (coercible StringToNumber) array ->
  Forall (fun op => coercible StringToNumber (op_value op)) ops ->
  length array + length ops < fuel ->
  exists w t,
    (constructor StringToNumber fuel array ;;; run_ops StringToNumber fuel ops) w0
    = Returns tt w /\
    tree_at w t /\ bst t /\
    collect_inOrder fuel w = Returns (Num <$> keys t) w /\
    StronglySorted Z.lt (keys t) /\ NoDup (keys t).
Proof.
  intros Harr Hops Hf.
  destruct (constructor_spec StringToNumber fuel array w0 Harr ltac:(lia))
    as (w1 & t1 & E1 & Ht1 & _ & Hs1 & _ & Hsz1 & _).
  rewrite (bind_Returns _ _ _ _ _ E1).
  destruct (run_ops_spec StringToNumber fuel ops w1 t1 Ht1
              (proj2 (bst_sorted t1) Hs1) Hops ltac:(lia))
    as (w & t & E & Ht & Hb & Hsz & _).
  exists w, t. split; [exact E |]. split; [exact Ht |]. split; [exact Hb |].
  apply bst_sorted in Hb.
  split; [| split; [exact Hb | now apply StronglySorted_lt_NoDup]].
  apply collect_inOrder_spec; [exact Ht |].
  pose proof (tree_height_le_size t). lia.
Qed.

(** C4.  After [new Tree(arr)], with every element of [arr] convertible,
    an in-order traversal collects the sorted, deduplicated numbers of
    [arr]. *)
Theorem inOrder_after_new fuel (array : list (JSValue U)) w0 :
  Forall (coercible StringToNumber) array -> length array < fuel ->
  exists w,
    constructor StringToNumber fuel array w0 = Returns tt w /\
    collect_inOrder fuel w
    = Returns (Num <$> sorted_dedup ((fun v => to_Z (Number StringToNumber v)) <$> array)) w.
Proof.
  intros Harr Hf.
  destruct (constructor_spec StringToNumber fuel array w0 Harr Hf)
    as (w & t & E & Ht & _ & Hs & Hel & Hsz & _).
  exists w. split; [exact E |].
  rewrite (collect_inOrder_spec fuel w t Ht)
    by (pose proof (tree_height_le_size t); lia).
  f_equal. f_equal. apply sorted_dedup_unique; [exact Hs |].
  intros k. rewrite Hel, !list_elem_of_fmap. rewrite Forall_forall in Harr.
  split; intros (v & Ev & Hv); exists v; (split; [| exact Hv]).
  - now rewrite <- Ev.
  - now rewrite Ev, <- (coercible_Num _ _ (Harr _ Hv)).
Qed.

(** C5.  [deleteItem(v)] on a search tree removes exactly the key of [v]
    and leaves a search tree; a node with two children keeps its place and
    takes the leftmost key of its right subtree, which is deleted from
    that subtree; when [v] is not a key, nothing changes. *)
Theorem deleteItem_correct fuel (v : JSValue U) w t :
  tree_at w t -> bst t -> tree_height t < fuel -> coercible StringToNumber v ->
  let k := to_Z (Number StringToNumber v) in
  exists w',
    deleteItem StringToNumber fuel v w = Returns tt w' /\
    tree_at w' (tree_delete k t) /\ bst (tree_delete k t) /\
    keys (tree_delete k t) = filter (fun x => x <> k) (keys t) /\
    (forall x, x ∈ keys (tree_delete k t) <-> x ∈ keys t /\ x <> k) /\
    (forall l a r, t = Br l a k r -> l <> Leaf -> r <> Leaf ->
       tree_delete k t = Br l a (leftmost k r) (tree_delete (leftmost k r) r)) /\
    (k ∉ keys t -> w' = w).
Proof.
  intros Ht Hb Hf Hv k.
  destruct (deleteItem_spec StringToNumber fuel v w t Ht Hv Hf) as (w' & E & Ht' & Hu).
  fold k in Ht'. exists w'. split; [exact E |]. split; [exact Ht' |].
  split; [now apply bst_delete |]. split; [now apply keys_delete |].
  split; [| split].
  - intros x. rewrite keys_delete by easy. rewrite list_elem_of_filter. tauto.
  - intros l a r -> Hl Hr. cbn [tree_delete]. rewrite !Z.ltb_irrefl.
    destruct l; [easy |]. now destruct r.
  - intros Hnin. destruct Ht as [Hs _]. destruct w as [h r u]. cbn [heap root] in Hs.
    revert E. unfold deleteItem. rewrite Hv, (coercible_Num _ _ Hv). fold k.
    unfold bind at 1, get_root at 1. cbn [root].
    rewrite (bind_Returns _ _ _ _ _ (deleteItemRec_same fuel k h r u r t Hs Hf Hnin)).
    unfold set_root. cbn [heap root user]. intros [= <-]. reflexivity.
Qed.

(** C6.  The tree [new Tree(array)] builds holds the numbers of the array,
    sorted and without duplicates; [isBalanced()] returns true on it; at
    every step of the build the key at index [floor(length / 2)] is the
    root, with the keys before it on the left and the keys after it on
    the right; and at every node the sizes of the two subtrees differ by at
    most one. *)
Theorem new_isBalanced fuel (array : list (JSValue U)) w0 :
  Forall (coercible StringToNumber) array -> length array < fuel ->
  exists w t,
    constructor StringToNumber fuel array w0 = Returns tt w /\
    tree_at w t /\
    keys t = sorted_dedup ((fun v => to_Z (Number StringToNumber v)) <$> array) /\
    isBalanced fuel w = Returns true w /\
    mid_rooted t /\
    size_balanced t.
Proof.
  intros Harr Hf. destruct w0 as [h r u].
  destruct (constructor_builds StringToNumber fuel array h r u Harr Hf) as (h' & E & Hs & _ & _ & Hlen).
  set (ks := sorted_dedup ((fun v => to_Z (Number StringToNumber v)) <$> array)) in *.
  set (t := tree_build fuel (length h) ks) in *.
  assert (Hks : length ks < fuel) by lia.
  assert (Ht : tree_at (mkWorld h' (tree_ref t) u) t).
  { split; [exact Hs | now apply NoDup_tree_build]. }
  exists (mkWorld h' (tree_ref t) u), t.
  split; [exact E |]. split; [exact Ht |].
  split; [now apply keys_tree_build |]. split; [| split].
  - rewrite (isBalanced_spec fuel _ t Ht).
    + unfold t. now rewrite balanced_tree_build.
    + pose proof (tree_height_le_size t). unfold t in *.
      rewrite size_tree_build in * by exact Hks. lia.
  - now apply mid_rooted_tree_build.
  - now apply size_balanced_tree_build.
Qed.

(** C7.  After [rebalance()] an in-order traversal collects the same keys
    as before and [isBalanced()] returns true; on a tree that is already
    balanced, [rebalance()] changes nothing. *)
Theorem rebalance_keeps_inOrder fuel w t :
  tree_at w t -> size t < fuel ->
  exists w',
    rebalance fuel w = Returns tt w' /\
    collect_inOrder fuel w = Returns (Num <$> keys t) w /\
    collect_inOrder fuel w' = Returns (Num <$> keys t) w' /\
    isBalanced fuel w' = Returns true w' /\
    (isBalanced fuel w = Returns true w -> w' = w).
Proof.
  intros Ht Hf. pose proof (tree_height_le_size t) as Hh.
  destruct (rebalance_spec fuel w t Ht Hf) as (w' & t' & E & Ht' & Hk & Hb & _ & Hsame).
  assert (Hsz : size t' = size t) by (rewrite <- !length_keys; congruence).
  pose proof (tree_height_le_size t') as Hh'.
  exists w'. split; [exact E |].
  split; [apply collect_inOrder_spec; [exact Ht | lia] |].
  split; [rewrite <- Hk; apply collect_inOrder_spec; [exact Ht' | lia] |].
  split; [rewrite <- Hb; apply isBalanced_spec; [exact Ht' | lia] |].
  rewrite (isBalanced_spec fuel w t Ht) by lia. intros Heq. apply Hsame. congruence.
Qed.

(** C8.  Inserting a value whose number is already a key leaves the set of
    keys as it was; on a search tree it leaves the store and the tree as
    they were. *)
Theorem insert_present_noop fuel (v : JSValue U) w t :
  tree_at w t -> tree_height t < fuel ->
  coercible StringToNumber v -> to_Z (Number StringToNumber v) ∈ keys t ->
  exists w' t',
    insert StringToNumber fuel v w = Returns tt w' /\
    tree_at w' t' /\
    (forall x, x ∈ keys t' <-> x ∈ keys t) /\
    (bst t -> w' = w /\ t' = t).
Proof.
  intros Ht Hf Hv Hin.
  destruct (insert_spec StringToNumber fuel v w t Ht Hv Hf) as (w' & E & Ht' & _).
  exists w', (tree_insert (length (heap w)) (to_Z (Number StringToNumber v)) t).
  split; [exact E |]. split; [exact Ht' |]. split.
  - intros x. rewrite elem_of_keys_insert. split; [| tauto]. now intros [-> |].
  - intros Hb. pose proof (tree_insert_present (length (heap w)) _ _ Hb Hin) as Esame.
    split; [| exact Esame].
    destruct Ht as [Hs _]. destruct w as [h r u]. cbn [heap root] in *.
    revert E. unfold insert. rewrite Hv, (coercible_Num _ _ Hv).
    unfold bind at 1, get_root at 1. cbn [root].
    rewrite (bind_Returns _ _ _ _ _ (insertRec_same fuel _ h r u r t Hs Hf Esame)).
    unfold set_root. cbn [heap root user]. intros [= <-]. reflexivity.
Qed.

Lemma find_unchanged fuel (v : JSValue U) w t :
  tree_at w t -> tree_height t < fuel ->
  match isNaN StringToNumber v with
  | true => find StringToNumber fuel v w
            = Throws (Error "Trying to find a non-numeric value") w
  | false => exists n, find StringToNumber fuel v w = Returns n w
  end.
Proof.
  intros [Hs _] Hf. unfold find. destruct (isNaN StringToNumber v); [reflexivity |].
  destruct w as [h r u]. cbn [heap root] in Hs.
  unfold bind, get_root. cbn [root].
  apply (findRec_unchanged fuel _ h r u r t Hs Hf).
Qed.

(** C9.  A value that does not convert to a number makes
    [insert], [deleteItem], [find] and the constructor throw their
    conversion error, with the store and the tree as they were; a value
    that converts makes none of [insert], [deleteItem] and [find] throw, and
    the constructor throws nothing when every element converts. *)
Theorem conversion_errors fuel (v : JSValue U) w t :
  tree_at w t -> size t < fuel ->
  if isNaN StringToNumber v then
    insert StringToNumber fuel v w
      = Throws (Error "Trying to insert a non-numeric value") w /\
    deleteItem StringToNumber fuel v w
      = Throws (Error "Trying to delete a non-numeric value") w /\
    find StringToNumber fuel v w
      = Throws (Error "Trying to find a non-numeric value") w /\
    forall array, v ∈ array ->
      exists item, item ∈ array /\ isNaN StringToNumber item = true /\
        constructor StringToNumber fuel array w
        = Throws (Error ("Trying to convert " +:+ ToString item +:+ " to a number")) w
  else
    (exists w', insert StringToNumber fuel v w = Returns tt w') /\
    (exists w', deleteItem StringToNumber fuel v w = Returns tt w') /\
    (exists n, find StringToNumber fuel v w = Returns n w) /\
    forall array, v ∈ array -> Forall (coercible StringToNumber) array ->
      length array < fuel ->
      exists w', constructor StringToNumber fuel array w = Returns tt w'.
Proof.
  intros Ht Hf. pose proof (tree_height_le_size t) as Hh.
  pose proof (find_unchanged fuel v w t Ht ltac:(lia)) as Hfind.
  destruct (isNaN StringToNumber v) eqn:Ev.
  - unfold insert, deleteItem. rewrite Ev. repeat split; try easy.
    intros array Hin.
    destruct (Array_map_convert_throws StringToNumber array w) as (item & Hi & Hn & Erun).
    { intros Hall. rewrite Forall_forall in Hall. specialize (Hall _ Hin).
      unfold coercible in Hall. congruence. }
    exists item. repeat split; try easy.
    unfold constructor, processArray.
    now rewrite (bind_Throws _ _ _ _ _ (bind_Throws _ _ _ _ _ Erun)).
  - split; [| split; [| split]].
    + destruct (insert_spec StringToNumber fuel v w t Ht Ev ltac:(lia)) as (w' & E & _).
      now exists w'.
    + destruct (deleteItem_spec StringToNumber fuel v w t Ht Ev ltac:(lia)) as (w' & E & _).
      now exists w'.
    + exact Hfind.
    + intros array _ Hall Hlen.
      destruct (constructor_spec StringToNumber fuel array w Hall Hlen) as (w' & t' & E & _).
      now exists w'.
Qed.

(** C10.  [find], [height], [isBalanced], and [levelOrder] and [inOrder]
    with a callback that writes to no node, return (or throw) with the
    store and the root of the tree as they were. *)
Theorem queries_leave_tree_unchanged fuel w t :
  tree_at w t -> size t < fuel ->
  (forall v : JSValue U, unchanged w (find StringToNumber fuel v w)) /\
  (forall n s, shape (heap w) n s -> tree_height s < fuel ->
     unchanged w (height fuel n w)) /\
  unchanged w (isBalanced fuel w) /\
  (forall callback, quiet callback ->
     unchanged w (levelOrder fuel callback w) /\
     unchanged w (inOrder fuel callback w)).
Proof.
  intros Ht Hf. pose proof (tree_height_le_size t) as Hh.
  split; [| split; [| split]].
  - intros v. pose proof (find_unchanged fuel v w t Ht ltac:(lia)) as Hfind.
    destruct (isNaN StringToNumber v).
    + rewrite Hfind. now split.
    + destruct Hfind as [n ->]. now split.
  - intros n s Hs Hfs. destruct w as [h r u]. cbn [heap] in Hs.
    rewrite (height_spec fuel h r u n s Hs Hfs). now split.
  - rewrite (isBalanced_spec fuel w t Ht ltac:(lia)). now split.
  - intros callback Hq. split.
    + apply (levelOrder_quiet fuel callback w t Hq Ht). lia.
    + apply (inOrder_quiet fuel callback w t Hq Ht). lia.
Qed.

End Claims.

(** ** The claims on the examples *)

(** The callback has collected the key 6 of the root when the error is
    thrown; the pre-order of the tree is 6, 3, 1, 8. *)
Lemma preOrder_stops_after_root_witness :
  preOrder 4 push_data_callback example_world
  = Throws TypeError (mkWorld (heap example_world) (root example_world) [Num 6]) /\
  preorder example_tree = [6; 3; 1; 8]%Z.
Proof.
  split; [| reflexivity].
  apply (preOrder_stops_after_root 4 push_data_callback example_world example_tree).
  - exact example_tree_at.
  - discriminate.
  - lia.
  - reflexivity.
  - reflexivity.
  - reflexivity.
Defined.

(** The callback has collected nothing when the error is thrown; the
    post-order of the tree is 1, 3, 8, 6. *)
Lemma postOrder_throws_witness :
  postOrder 4 push_data_callback example_world = Throws TypeError example_world /\
  postorder example_tree = [1; 3; 8; 6]%Z.
Proof.
  split; [| reflexivity].
  apply (postOrder_throws 4 push_data_callback example_world example_tree).
  - exact example_tree_at.
  - discriminate.
  - lia.
  - reflexivity.
Defined.

Lemma bst_invariant_witness :
  exists w t,
    (constructor decimal_literal 9 example_array ;;;
     run_ops decimal_literal 9
       [Insert (VString "12"); DeleteItem (VNumber (Num 6))]) empty_world
    = Returns tt w /\
    tree_at w t /\ bst t /\
    collect_inOrder 9 w = Returns (Num <$> keys t) w /\
    StronglySorted Z.lt (keys t) /\ NoDup (keys t).
Proof.
  apply (bst_invariant decimal_literal 9 example_array
           [Insert (VString "12"); DeleteItem (VNumber (Num 6))] empty_world).
  - repeat constructor.
  - repeat constructor.
  - cbn. lia.
Defined.

Lemma inOrder_after_new_witness :
  exists w,
    constructor decimal_literal 7 example_array empty_world = Returns tt w /\
    collect_inOrder 7 w = Returns [Num 1; Num 3; Num 6; Num 8] w.
Proof.
  apply (inOrder_after_new decimal_literal 7 example_array empty_world).
  - repeat constructor.
  - cbn. lia.
Defined.

Lemma deleteItem_correct_witness :
  exists w',
    deleteItem decimal_literal 4 (VNumber (Num 3)) example_world = Returns tt w' /\
    tree_at w' (tree_delete 3 example_tree) /\ bst (tree_delete 3 example_tree) /\
    keys (tree_delete 3 example_tree) = filter (fun x => x <> 3%Z) (keys example_tree) /\
    (forall x, x ∈ keys (tree_delete 3 example_tree) <-> x ∈ keys example_tree /\ x <> 3%Z) /\
    (forall l a r, example_tree = Br l a 3 r -> l <> Leaf -> r <> Leaf ->
       tree_delete 3 example_tree = Br l a (leftmost 3 r) (tree_delete (leftmost 3 r) r)) /\
    (3%Z ∉ keys example_tree -> w' = example_world).
Proof.
  apply (deleteItem_correct decimal_literal 4 (VNumber (Num 3)) example_world example_tree).
  - exact example_tree_at.
  - exact example_bst.
  - cbn. lia.
  - reflexivity.
Defined.

Lemma new_isBalanced_witness :
  exists w t,
    constructor decimal_literal 6 (one_to_n 5) empty_world = Returns tt w /\
    tree_at w t /\
    keys t = sorted_dedup ((fun v : JSValue (list number) => to_Z (Number decimal_literal v))
                         <$> one_to_n 5) /\
    isBalanced 6 w = Returns true w /\ mid_rooted t /\ size_balanced t.
Proof.
  apply (new_isBalanced decimal_literal 6 (one_to_n 5)).
  - apply one_to_n_coercible.
  - cbn. lia.
Defined.

Lemma rebalance_keeps_inOrder_witness :
  exists w',
    rebalance 4 skewed_world = Returns tt w' /\
    collect_inOrder 4 skewed_world = Returns [Num 1; Num 2; Num 3] skewed_world /\
    collect_inOrder 4 w' = Returns [Num 1; Num 2; Num 3] w' /\
    isBalanced 4 w' = Returns true w' /\
    (isBalanced 4 skewed_world = Returns true skewed_world -> w' = skewed_world).
Proof.
  apply (rebalance_keeps_inOrder 4 skewed_world skewed_tree).
  - exact skewed_tree_at.
  - cbn. lia.
Defined.

Lemma insert_present_noop_witness :
  exists w' t',
    insert decimal_literal 4 (VString "8") example_world = Returns tt w' /\
    tree_at w' t' /\
    (forall x, x ∈ keys t' <-> x ∈ keys example_tree) /\
    (bst example_tree -> w' = example_world /\ t' = example_tree).
Proof.
  apply (insert_present_noop decimal_literal 4 (VString "8") example_world example_tree).
  - exact example_tree_at.
  - cbn. lia.
  - reflexivity.
  - cbn. compute_done.
Defined.

Lemma conversion_errors_witness :
  insert decimal_literal 5 (VString "abc") example_world
  = Throws (Error "Trying to insert a non-numeric value") example_world /\
  exists w', insert decimal_literal 5 (VString "12") example_world = Returns tt w'.
Proof.
  split.
  - apply (conversion_errors decimal_literal 5 (VString "abc") example_world example_tree).
    + exact example_tree_at.
    + cbn. lia.
  - apply (conversion_errors decimal_literal 5 (VString "12") example_world example_tree).
    + exact example_tree_at.
    + cbn. lia.
Defined.

Lemma queries_leave_tree_unchanged_witness :
  unchanged example_world (levelOrder 5 push_data_callback example_world) /\
  unchanged example_world (inOrder 5 push_data_callback example_world).
Proof.
  apply (queries_leave_tree_unchanged decimal_literal 5 example_world example_tree).
  - exact example_tree_at.
  - cbn. lia.
  - exact push_data_quiet.
Defined.

(** * Further properties of the methods *)

(** ** Searching *)

Lemma tree_find_absent v t : v ∉ keys t -> tree_find v t = null.
Proof.
  induction t as [|l IHl a k r IHr]; cbn; [easy |].
  rewrite not_elem_of_app, not_elem_of_cons. intros (Hl & Hne & Hr).
  destruct (Z.eqb_spec k v); [congruence |]. destruct (k <? v)%Z; auto.
Qed.

(** The node a key sits in: its address and what the store holds there. *)
Lemma tree_find_present h n v t :
  shape h n t -> bst t -> v ∈ keys t ->
  exists a nl nr,
    tree_find v t = ref a /\ a ∈ locs t /\ h !! a = Some (mkNode (Num v) nl nr).
Proof.
  revert n. induction t as [|l IHl a k r IHr]; intros n Hs Hb Hin; cbn in *.
  - now apply elem_of_nil in Hin.
  - destruct Hs as (-> & nl & nr & E & Hl & Hr).
    destruct Hb as (Fl & Fr & Bl & Br'). rewrite Forall_forall in Fl, Fr.
    destruct (Z.eqb_spec k v) as [-> | Hne].
    { exists a, nl, nr. repeat split; [| exact E]. elems. }
    apply elem_of_app in Hin as [Hin | Hin].
    + pose proof (Fl _ Hin). destruct (Z.ltb_spec k v); [lia |].
      destruct (IHl _ Hl Bl Hin) as (b & bl & br & Ef & Hb & Eb).
      exists b, bl, br. repeat split; [exact Ef | elems | exact Eb].
    + apply elem_of_cons in Hin as [-> | Hin]; [easy |].
      pose proof (Fr _ Hin). destruct (Z.ltb_spec k v); [| lia].
      destruct (IHr _ Hr Br' Hin) as (b & bl & br & Ef & Hb & Eb).
      exists b, bl, br. repeat split; [exact Ef | elems | exact Eb].
Qed.

(** An insertion does not move the node another key is found in. *)
Lemma tree_find_insert_other f v v' t :
  v' <> v -> tree_find v' (tree_insert f v t) = tree_find v' t.
Proof.
  intros Hne. induction t as [|l IHl a k r IHr]; cbn.
  - destruct (Z.eqb_spec v v'); [congruence |]. now destruct (v <? v')%Z.
  - destruct (k =? v)%Z; [reflexivity |].
    destruct (k <? v)%Z; cbn; destruct (k =? v')%Z; try reflexivity;
      destruct (k <? v')%Z; auto.
Qed.

Section Search.
Context {U : Type}.
Variable StringToNumber : string -> number.
Implicit Types (h : list Node) (r : NodeRef) (u : U) (w : World U) (t : tree).

Lemma findRec_spec fuel v h r u n t :
  shape h n t -> tree_height t < fuel ->
  findRec fuel (Num v) n (mkWorld h r u) = Returns (tree_find v t) (mkWorld h r u).
Proof.
  revert n t. induction fuel as [|fuel IH]; intros n t Hs Hf; [lia |].
  destruct t as [|l a k rt]; cbn in Hs.
  - now subst n.
  - destruct Hs as (-> & nl & nr & E & Hl & Hr). cbn in Hf.
    cbn [findRec is_null tree_find]. step. cbn [number_eq number_lt].
    destruct (k =? v)%Z; [reflexivity |].
    destruct (k <? v)%Z; step; apply IH; auto; lia.
Qed.

Lemma find_spec fuel (v : JSValue U) w t :
  tree_at w t -> coercible StringToNumber v -> tree_height t < fuel ->
  find StringToNumber fuel v w
  = Returns (tree_find (to_Z (Number StringToNumber v)) t) w.
Proof.
  intros [Hs _] Hv Hf. destruct w as [h r u]. cbn [heap root] in Hs.
  unfold find. rewrite Hv, (coercible_Num _ _ Hv).
  unfold bind, get_root. cbn [root]. now apply findRec_spec.
Qed.

(** X1.  [find(v)] on a search tree returns the node that holds the number of
    [v] when it is a key, and [null] when it is not. *)
Theorem find_correct fuel (v : JSValue U) w t :
  tree_at w t -> bst t -> coercible StringToNumber v -> tree_height t < fuel ->
  let k := to_Z (Number StringToNumber v) in
  exists n,
    find StringToNumber fuel v w = Returns n w /\
    (k ∈ keys t ->
       exists a nl nr,
         n = ref a /\ a ∈ locs t /\ heap w !! a = Some (mkNode (Num k) nl nr)) /\
    (k ∉ keys t -> n = null).
Proof.
  intros Ht Hb Hv Hf k. exists (tree_find k t).
  split; [now apply find_spec |]. split.
  - intros Hin. destruct Ht as [Hs _].
    destruct (tree_find_present _ _ k t Hs Hb Hin) as (a & nl & nr & E & Ha & Ea).
    now exists a, nl, nr.
  - apply tree_find_absent.
Qed.

(** X2.  After [insert(v)], [find(v)] returns a node that holds the number of
    [v], and [find] of any other number returns the reference it returned
    before the insertion. *)
Theorem find_after_insert fuel (v : JSValue U) w t :
  tree_at w t -> bst t -> coercible StringToNumber v -> S (size t) < fuel ->
  let k := to_Z (Number StringToNumber v) in
  exists w' a nl nr,
    insert StringToNumber fuel v w = Returns tt w' /\
    find StringToNumber fuel v w' = Returns (ref a) w' /\
    heap w' !! a = Some (mkNode (Num k) nl nr) /\
    forall v' : JSValue U,
      coercible StringToNumber v' -> to_Z (Number StringToNumber v') <> k ->
      exists n, find StringToNumber fuel v' w = Returns n w /\
                find StringToNumber fuel v' w' = Returns n w'.
Proof.
  intros Ht Hb Hv Hf k. pose proof (tree_height_le_size t) as Hh.
  destruct (insert_spec StringToNumber fuel v w t Ht Hv ltac:(lia)) as (w' & E & Ht' & _).
  fold k in Ht'. set (t' := tree_insert (length (heap w)) k t) in *.
  assert (Hh' : tree_height t' < fuel).
  { pose proof (tree_height_le_size t'). pose proof (size_tree_insert (length (heap w)) k t).
    unfold t' in *. lia. }
  assert (Hin : k ∈ keys t') by (apply elem_of_keys_insert; now left).
  destruct (tree_find_present _ _ k t' (proj1 Ht') (bst_insert _ _ _ Hb) Hin)
    as (a & nl & nr & Ef & _ & Ea).
  exists w', a, nl, nr. split; [exact E |]. split; [| split; [exact Ea |]].
  - rewrite (find_spec fuel v w' t' Ht' Hv Hh'). fold k. now rewrite Ef.
  - intros v' Hv' Hne. exists (tree_find (to_Z (Number StringToNumber v')) t).
    split; [apply find_spec; auto; lia |].
    rewrite (find_spec fuel v' w' t' Ht' Hv' Hh'). unfold t'.
    now rewrite tree_find_insert_other.
Qed.

(** X3.  After [deleteItem(v)] on a search tree, [find(v)] returns [null]. *)
Theorem find_after_deleteItem fuel (v : JSValue U) w t :
  tree_at w t -> bst t -> coercible StringToNumber v -> size t < fuel ->
  exists w',
    deleteItem StringToNumber fuel v w = Returns tt w' /\
    find StringToNumber fuel v w' = Returns null w'.
Proof.
  intros Ht Hb Hv Hf. pose proof (tree_height_le_size t) as Hh.
  destruct (deleteItem_spec StringToNumber fuel v w t Ht Hv ltac:(lia)) as (w' & E & Ht' & _).
  set (k := to_Z (Number StringToNumber v)) in *.
  exists w'. split; [exact E |].
  rewrite (find_spec fuel v w' _ Ht' Hv).
  - fold k. rewrite tree_find_absent; [reflexivity |].
    rewrite keys_delete by exact Hb. rewrite list_elem_of_filter. tauto.
  - pose proof (tree_height_le_size (tree_delete k t)).
    pose proof (size_tree_delete k t). lia.
Qed.

(** X4.  Every element of the array is found in the tree [new Tree(array)]
    builds. *)
Theorem find_after_new fuel (array : list (JSValue U)) (v : JSValue U) w0 :
  Forall (coercible StringToNumber) array -> v ∈ array -> length array < fuel ->
  exists w a nl nr,
    constructor StringToNumber fuel array w0 = Returns tt w /\
    find StringToNumber fuel v w = Returns (ref a) w /\
    heap w !! a = Some (mkNode (Number StringToNumber v) nl nr).
Proof.
  intros Hall Hin Hf.
  destruct (constructor_spec StringToNumber fuel array w0 Hall Hf)
    as (w & t & E & Ht & _ & Hs & Hel & Hsz & _).
  assert (Hv : coercible StringToNumber v) by (rewrite Forall_forall in Hall; auto).
  set (k := to_Z (Number StringToNumber v)).
  assert (Hk : k ∈ keys t).
  { apply Hel. unfold k. rewrite <- (coercible_Num _ _ Hv). now apply list_elem_of_fmap_2. }
  destruct (tree_find_present _ _ k t (proj1 Ht) (proj2 (bst_sorted t) Hs) Hk)
    as (a & nl & nr & Ef & _ & Ea).
  exists w, a, nl, nr. split; [exact E |]. split.
  - rewrite (find_spec fuel v w t Ht Hv) by (pose proof (tree_height_le_size t); lia).
    fold k. now rewrite Ef.
  - rewrite Ea. now rewrite (coercible_Num _ _ Hv).
Qed.

End Search.

Lemma find_correct_witness :
  exists n,
    find decimal_literal 4 (VString "3") example_world = Returns n example_world /\
    (3%Z ∈ keys example_tree ->
       exists a nl nr,
         n = ref a /\ a ∈ locs example_tree /\
         heap example_world !! a = Some (mkNode (Num 3) nl nr)) /\
    (3%Z ∉ keys example_tree -> n = null).
Proof.
  apply (find_correct decimal_literal 4 (VString "3") example_world example_tree).
  - exact example_tree_at.
  - exact example_bst.
  - reflexivity.
  - cbn. lia.
Defined.

Lemma find_after_insert_witness :
  exists w' a nl nr,
    insert decimal_literal 6 (VString "7") example_world = Returns tt w' /\
    find decimal_literal 6 (VString "7") w' = Returns (ref a) w' /\
    heap w' !! a = Some (mkNode (Num 7) nl nr) /\
    forall v' : JSValue (list number),
      coercible decimal_literal v' -> to_Z (Number decimal_literal v') <> 7%Z ->
      exists n, find decimal_literal 6 v' example_world = Returns n example_world /\
                find decimal_literal 6 v' w' = Returns n w'.
Proof.
  apply (find_after_insert decimal_literal 6 (VString "7") example_world example_tree).
  - exact example_tree_at.
  - exact example_bst.
  - reflexivity.
  - cbn. lia.
Defined.

Lemma find_after_deleteItem_witness :
  exists w',
    deleteItem decimal_literal 5 (VNumber (Num 6)) example_world = Returns tt w' /\
    find decimal_literal 5 (VNumber (Num 6)) w' = Returns null w'.
Proof.
  apply (find_after_deleteItem decimal_literal 5 (VNumber (Num 6)) example_world example_tree).
  - exact example_tree_at.
  - exact example_bst.
  - reflexivity.
  - cbn. lia.
Defined.

Lemma find_after_new_witness :
  exists w a nl nr,
    constructor decimal_literal 7 example_array empty_world = Returns tt w /\
    find decimal_literal 7 (VNumber (Num 8)) w = Returns (ref a) w /\
    heap w !! a = Some (mkNode (Num 8) nl nr).
Proof.
  apply (find_after_new decimal_literal 7 example_array (VNumber (Num 8)) empty_world).
  - repeat constructor.
  - unfold example_array. repeat constructor.
  - cbn. lia.
Defined.

(** ** Inserting a new key, deleting a key *)

Lemma filter_none {A} (P : A -> Prop) `{!forall x, Decision (P x)} (l : list A) :
  Forall (fun x => ~ P x) l -> filter P l = [].
Proof.
  induction 1 as [|x l Hx _ IH]; [easy |]. now rewrite filter_cons_False.
Qed.

(** On a search tree the new key lands at its place in the ascending
    sequence. *)
Lemma keys_insert_absent f v t :
  bst t -> v ∉ keys t ->
  keys (tree_insert f v t)
  = filter (fun x => (x < v)%Z) (keys t) ++ v :: filter (fun x => (v < x)%Z) (keys t).
Proof.
  induction t as [|l IHl a k r IHr]; cbn; [easy |].
  intros (Fl & Fr & Bl & Br') Hnin.
  rewrite not_elem_of_app, not_elem_of_cons in Hnin. destruct Hnin as (Hl & Hne & Hr).
  rewrite !filter_app, !filter_cons.
  destruct (Z.eqb_spec k v); [congruence |].
  destruct (Z.ltb_spec k v).
  - cbn. rewrite IHr by easy. rewrite decide_True, decide_False by lia.
    rewrite (filter_all (fun x => (x < v)%Z) (keys l))
      by (eapply Forall_impl; [eassumption |]; cbn; lia).
    rewrite (filter_none (fun x => (v < x)%Z) (keys l))
      by (eapply Forall_impl; [eassumption |]; cbn; lia).
    cbn. now rewrite <- app_assoc.
  - cbn. rewrite IHl by easy. rewrite decide_False, decide_True by lia.
    rewrite (filter_all (fun x => (v < x)%Z) (keys r))
      by (eapply Forall_impl; [eassumption |]; cbn; lia).
    rewrite (filter_none (fun x => (x < v)%Z) (keys r))
      by (eapply Forall_impl; [eassumption |]; cbn; lia).
    rewrite app_nil_r. now rewrite <- app_assoc.
Qed.

Lemma size_insert_absent f v t : v ∉ keys t -> size (tree_insert f v t) = S (size t).
Proof.
  induction t as [|l IHl a k r IHr]; cbn; [easy |].
  rewrite not_elem_of_app, not_elem_of_cons. intros (Hl & Hne & Hr).
  destruct (Z.eqb_spec k v); [congruence |].
  destruct (k <? v)%Z; cbn; rewrite ?IHl, ?IHr by easy; lia.
Qed.

Lemma length_filter_remove (k : Z) (l : list Z) :
  NoDup l -> k ∈ l -> S (length (filter (fun x => x <> k) l)) = length l.
Proof.
  induction 1 as [|x l Hx Hnd IH]; intros Hin; [now apply elem_of_nil in Hin |].
  rewrite filter_cons. apply elem_of_cons in Hin as [-> | Hin].
  - rewrite decide_False by tauto. rewrite filter_all; [reflexivity |].
    apply Forall_forall. intros y Hy ->. contradiction.
  - rewrite decide_True by (intros ->; contradiction). cbn. now rewrite IH.
Qed.

Section Store.
Context {U : Type}.
Implicit Types (h : list Node) (r : NodeRef) (u : U).

(** What [#insertRec] writes when the key is new: one object more, a leaf,
    and every object that was there keeps its key. *)
Lemma insertRec_fresh fuel v h r u n t :
  shape h n t -> tree_height t < fuel -> v ∉ keys t ->
  exists n' h',
    insertRec fuel (Num v) n (mkWorld h r u) = Returns n' (mkWorld h' r u) /\
    length h' = S (length h) /\
    h' !! length h = Some (mkNode (Num v) null null) /\
    forall a nd, h !! a = Some nd -> exists nd', h' !! a = Some nd' /\ data nd' = data nd.
Proof.
  revert n t h. induction fuel as [|fuel IH]; intros n t h Hs Hf Hnin; [lia |].
  destruct t as [|l a k rt]; cbn in Hs.
  - subst n. eexists _, _. split; [reflexivity |]. cbn [heap]. split; [| split].
    + rewrite length_app. cbn. lia.
    + now apply list_lookup_middle.
    + intros a nd E. exists nd. split; [| reflexivity].
      rewrite lookup_app_l; [exact E |]. eapply lookup_lt_Some; eauto.
  - destruct Hs as (-> & nl & nr & E & Hl & Hr). cbn in Hf, Hnin.
    rewrite not_elem_of_app, not_elem_of_cons in Hnin. destruct Hnin as (Hnl & Hne & Hnr).
    assert (Halt : a < length h) by (eapply lookup_lt_Some; eauto).
    cbn [insertRec is_null]. step. cbn [number_eq number_lt].
    destruct (Z.eqb_spec k v); [congruence |].
    destruct (k <? v)%Z; step.
    + destruct (IH _ _ _ Hr ltac:(lia) Hnr) as (n' & h1 & Erun & Hlen & Hnew & Hold).
      rewrite (bind_Returns _ _ _ _ _ Erun).
      destruct (Hold _ _ E) as (nd1 & E1 & Hd1). step.
      eexists _, _. split; [reflexivity |]. split; [| split].
      * now rewrite length_insert.
      * rewrite list_lookup_insert_ne by lia. exact Hnew.
      * intros b nd Eb. destruct (Hold _ _ Eb) as (nd' & Eb' & Hd').
        destruct (decide (a = b)) as [-> | Hab].
        -- eexists. split; [apply list_lookup_insert_eq; eapply lookup_lt_Some; eauto |].
           cbn. congruence.
        -- exists nd'. split; [| exact Hd']. now rewrite list_lookup_insert_ne.
    + destruct (IH _ _ _ Hl ltac:(lia) Hnl) as (n' & h1 & Erun & Hlen & Hnew & Hold).
      rewrite (bind_Returns _ _ _ _ _ Erun).
      destruct (Hold _ _ E) as (nd1 & E1 & Hd1). step.
      eexists _, _. split; [reflexivity |]. split; [| split].
      * now rewrite length_insert.
      * rewrite list_lookup_insert_ne by lia. exact Hnew.
      * intros b nd Eb. destruct (Hold _ _ Eb) as (nd' & Eb' & Hd').
        destruct (decide (a = b)) as [-> | Hab].
        -- eexists. split; [apply list_lookup_insert_eq; eapply lookup_lt_Some; eauto |].
           cbn. congruence.
        -- exists nd'. split; [| exact Hd']. now rewrite list_lookup_insert_ne.
Qed.

Variable StringToNumber : string -> number.
Implicit Types (w : World U) (t : tree).

(** X5.  [insert(v)] of a number that is not yet a key creates one [Node], a
    leaf holding the number; no existing node changes its key; the ordering
    is kept and an in-order traversal collects the old keys with the new
    one at its place. *)
Theorem insert_new_key fuel (v : JSValue U) w t :
  tree_at w t -> bst t -> coercible StringToNumber v -> S (size t) < fuel ->
  let k := to_Z (Number StringToNumber v) in
  k ∉ keys t ->
  exists w',
    insert StringToNumber fuel v w = Returns tt w' /\
    length (heap w') = S (length (heap w)) /\
    heap w' !! length (heap w) = Some (mkNode (Num k) null null) /\
    (forall a nd, heap w !! a = Some nd ->
       exists nd', heap w' !! a = Some nd' /\ data nd' = data nd) /\
    collect_inOrder fuel w'
    = Returns (Num <$> (filter (fun x => (x < k)%Z) (keys t)
                        ++ k :: filter (fun x => (k < x)%Z) (keys t))) w'.
Proof.
  intros Ht Hb Hv Hf k Hnin. pose proof (tree_height_le_size t) as Hh.
  destruct (insert_spec StringToNumber fuel v w t Ht Hv ltac:(lia)) as (w' & E & Ht' & _).
  fold k in Ht'. exists w'. split; [exact E |].
  assert (Hstore : length (heap w') = S (length (heap w)) /\
            heap w' !! length (heap w) = Some (mkNode (Num k) null null) /\
            forall a nd, heap w !! a = Some nd ->
              exists nd', heap w' !! a = Some nd' /\ data nd' = data nd).
  { destruct Ht as [Hs _]. destruct w as [h r u]. cbn [heap root] in *.
    destruct (insertRec_fresh fuel k h r u r t Hs ltac:(lia) Hnin)
      as (n' & h' & Erun & Hlen & Hnew & Hold).
    revert E. unfold insert. rewrite Hv, (coercible_Num _ _ Hv). fold k.
    unfold bind at 1, get_root at 1. cbn [root].
    rewrite (bind_Returns _ _ _ _ _ Erun). unfold set_root. cbn [heap root user].
    intros [= <-]. cbn [heap]. auto. }
  destruct Hstore as (H1 & H2 & H3). repeat (split; [assumption |]).
  rewrite (collect_inOrder_spec fuel w' _ Ht').
  - now rewrite keys_insert_absent.
  - pose proof (tree_height_le_size (tree_insert (length (heap w)) k t)).
    pose proof (size_tree_insert (length (heap w)) k t). lia.
Qed.

(** X6.  [deleteItem(v)] creates no object, and when the number of [v] is a key
    of the search tree the tree has one node less afterwards. *)
Theorem deleteItem_one_node_less fuel (v : JSValue U) w t :
  tree_at w t -> bst t -> coercible StringToNumber v -> size t < fuel ->
  exists w' ks,
    deleteItem StringToNumber fuel v w = Returns tt w' /\
    length (heap w') = length (heap w) /\
    collect_inOrder fuel w' = Returns ks w' /\
    (to_Z (Number StringToNumber v) ∈ keys t -> S (length ks) = length (keys t)) /\
    (to_Z (Number StringToNumber v) ∉ keys t -> length ks = length (keys t)).
Proof.
  intros Ht Hb Hv Hf. pose proof (tree_height_le_size t) as Hh.
  set (k := to_Z (Number StringToNumber v)).
  destruct (deleteItem_spec StringToNumber fuel v w t Ht Hv ltac:(lia)) as (w' & E & Ht' & _).
  fold k in Ht'. exists w', (Num <$> keys (tree_delete k t)).
  split; [exact E |]. split; [| split; [| split]].
  - destruct Ht as [Hs Hnd]. destruct w as [h r u]. cbn [heap root] in *.
    destruct (deleteItemRec_spec fuel k h r u r t Hs Hnd ltac:(lia))
      as (h' & Erun & _ & _ & Hlen).
    revert E. unfold deleteItem. rewrite Hv, (coercible_Num _ _ Hv). fold k.
    unfold bind at 1, get_root at 1. cbn [root].
    rewrite (bind_Returns _ _ _ _ _ Erun). unfold set_root. cbn [heap root user].
    intros [= <-]. exact Hlen.
  - apply collect_inOrder_spec; [exact Ht' |].
    pose proof (tree_height_le_size (tree_delete k t)).
    pose proof (size_tree_delete k t). lia.
  - intros Hin. rewrite length_fmap, keys_delete by exact Hb.
    apply length_filter_remove; [| exact Hin].
    now apply StronglySorted_lt_NoDup, bst_sorted.
  - intros Hnin. now rewrite length_fmap, tree_delete_absent.
Qed.

End Store.

Lemma insert_new_key_witness :
  exists w',
    insert decimal_literal 6 (VString "7") example_world = Returns tt w' /\
    length (heap w') = 5 /\
    heap w' !! 4 = Some (mkNode (Num 7) null null) /\
    (forall a nd, heap example_world !! a = Some nd ->
       exists nd', heap w' !! a = Some nd' /\ data nd' = data nd) /\
    collect_inOrder 6 w' = Returns [Num 1; Num 3; Num 6; Num 7; Num 8] w'.
Proof.
  apply (insert_new_key decimal_literal 6 (VString "7") example_world example_tree).
  - exact example_tree_at.
  - exact example_bst.
  - reflexivity.
  - cbn. lia.
  - cbn. compute_done.
Defined.

Lemma deleteItem_one_node_less_witness :
  exists w' ks,
    deleteItem decimal_literal 5 (VNumber (Num 6)) example_world = Returns tt w' /\
    length (heap w') = length (heap example_world) /\
    collect_inOrder 5 w' = Returns ks w' /\
    (6%Z ∈ keys example_tree -> S (length ks) = length (keys example_tree)) /\
    (6%Z ∉ keys example_tree -> length ks = length (keys example_tree)).
Proof.
  apply (deleteItem_one_node_less decimal_literal 5 (VNumber (Num 6))
           example_world example_tree).
  - exact example_tree_at.
  - exact example_bst.
  - reflexivity.
  - cbn. lia.
Defined.

(** ** The order of the traversals *)

Section Order.
Context {U : Type}.
Implicit Types (w : World U) (callback : JSValue U) (t : tree).

Lemma call_each_app callback l1 l2 w :
  call_each callback (l1 ++ l2) w
  = (call_each callback l1 ;;; call_each callback l2) w.
Proof.
  revert w. induction l1 as [|n l1 IH]; intros w; [reflexivity |].
  cbn [app call_each]. unfold bind. destruct (call callback n w); auto.
Qed.

Lemma call_each_unchanged callback nodes w :
  quiet callback -> Forall (valid_ref (heap w)) nodes ->
  unchanged w (call_each callback nodes w).
Proof.
  intros Hq. revert w. induction nodes as [|n nodes IH]; intros w Hv.
  - apply unchanged_Returns.
  - apply Forall_cons in Hv as [Hn Hv]. cbn [call_each].
    apply unchanged_bind; [now apply Hq |].
    intros _ w' _ Hh Hr. apply IH. now rewrite Hh.
Qed.

Lemma shape_valid_locs h n t : shape h n t -> Forall (valid_ref h) (ref <$> locs t).
Proof.
  intros Hs. apply Forall_fmap, Forall_forall. intros a Ha. cbn.
  pose proof (shape_locs_lt _ _ _ Hs) as Hlt. rewrite Forall_forall in Hlt.
  apply lookup_lt_is_Some_2. auto.
Qed.

(** Two computations that agree, followed by continuations that agree on
    the worlds the first can end in. *)
Lemma bind_ext {A B} (m m' : M U A) (k k' : A -> M U B) w (P : World U -> Prop) :
  m w = m' w ->
  (forall a w', m w = Returns a w' -> P w') ->
  (forall a w', P w' -> k a w' = k' a w') ->
  (x <- m ;; k x) w = (x <- m' ;; k' x) w.
Proof.
  intros Em HP Hk. unfold bind. rewrite <- Em.
  destruct (m w) as [a w' | |] eqn:E; [| reflexivity | reflexivity].
  apply Hk. now apply (HP a).
Qed.

Lemma bind_assoc {A B C} (m : M U A) (f : A -> M U B) (g : B -> M U C) w :
  (y <- (x <- m ;; f x) ;; g y) w = (x <- m ;; y <- f x ;; g y) w.
Proof. unfold bind. now destruct (m w). Qed.

Lemma inOrderRec_call_each fuel callback w n t :
  quiet callback -> shape (heap w) n t -> tree_height t < fuel ->
  inOrderRec fuel callback n w = call_each callback (ref <$> locs t) w.
Proof.
  intros Hq. revert w n t. induction fuel as [|fuel IH]; intros w n t Hs Hf; [lia |].
  destruct t as [|l a k rt]; cbn in Hs.
  - now subst n.
  - pose proof (shape_valid_locs (heap w) (ref a) (Br l a k rt)) as Hval.
    destruct Hs as (-> & nl & nr & E & Hl & Hr). cbn in Hf.
    destruct w as [h r u]. cbn [heap] in *.
    cbn [inOrderRec is_null locs]. step.
    rewrite fmap_app, fmap_cons, call_each_app. cbn [call_each].
    apply (bind_ext _ _ _ _ _ (fun w' => heap w' = h)).
    + apply IH; [exact Hl | lia].
    + intros [] w' Erun. rewrite (IH (mkWorld h r u) nl l Hl ltac:(lia)) in Erun.
      pose proof (call_each_unchanged callback (ref <$> locs l) (mkWorld h r u) Hq
                    (shape_valid_locs _ _ _ Hl)) as Hu.
      rewrite Erun in Hu. apply Hu.
    + intros _ [h1 r1 u1] Hh1. cbn [heap] in Hh1. subst h1.
      apply (bind_ext _ _ _ _ _ (fun w' => heap w' = h)); [reflexivity | |].
      * intros [] w' Erun.
        pose proof (Hq (ref a) (mkWorld h r1 u1) ltac:(cbn; eauto)) as Hu.
        rewrite Erun in Hu. apply Hu.
      * intros _ [h2 r2 u2] Hh2. cbn [heap] in Hh2. subst h2.
        step. apply IH; [exact Hr | lia].
Qed.

(** X7.  [inOrder(cb)] with a callback that writes to no node calls it once on
    every node, from the leftmost node to the rightmost, and stops at the
    first call that throws. *)
Theorem inOrder_calls_in_order fuel callback w t :
  tree_at w t -> tree_height t < fuel -> invocable callback -> quiet callback ->
  inOrder fuel callback w = call_each callback (ref <$> locs t) w.
Proof.
  intros [Hs _] Hf Hinv Hq. unfold inOrder. rewrite (typeof_invocable _ Hinv).
  unfold bind at 1, get_root at 1. now apply inOrderRec_call_each.
Qed.

(** *** Breadth first *)

Lemma level_forest_children d ts :
  concat (level d <$> (ts ≫= children)) = concat (level (S d) <$> ts).
Proof.
  induction ts as [|t ts IH]; [reflexivity |].
  cbn. rewrite fmap_app, concat_app, IH. f_equal.
  destruct t as [|l a k r]; [reflexivity |]. cbn.
  rewrite fmap_app, concat_app.
  destruct l, r; cbn; rewrite ?app_nil_r; reflexivity.
Qed.

Lemma level_0_forest ts :
  Forall (fun t => t <> Leaf) ts -> ref <$> concat (level 0 <$> ts) = tree_ref <$> ts.
Proof.
  induction 1 as [|t ts Ht _ IH]; [reflexivity |].
  cbn. rewrite fmap_app, IH. now destruct t.
Qed.

Lemma shape_Br_inv h n l a k r :
  shape h n (Br l a k r) ->
  n = ref a /\
  exists nl nr, h !! a = Some (mkNode (Num k) nl nr) /\ shape h nl l /\ shape h nr r.
Proof. exact (fun H => H). Qed.

Lemma shape_children h q ts :
  Forall2 (shape h) q ts ->
  Forall2 (shape h) (tree_ref <$> (ts ≫= children)) (ts ≫= children).
Proof.
  induction 1 as [|n t q ts Hs _ IH]; [constructor |].
  cbn. rewrite fmap_app. apply Forall2_app; [| exact IH].
  destruct t as [|l a k r]; [constructor |].
  destruct (shape_Br_inv _ _ _ _ _ _ Hs) as (_ & nl & nr & _ & Hl & Hr).
  cbn [children]. rewrite fmap_app. apply Forall2_app.
  - destruct l; [constructor |]. cbn [nonempty fmap list_fmap].
    rewrite <- (shape_ref _ _ _ Hl). constructor; [exact Hl | constructor].
  - destruct r; [constructor |]. cbn [nonempty fmap list_fmap].
    rewrite <- (shape_ref _ _ _ Hr). constructor; [exact Hr | constructor].
Qed.

Lemma children_props (H : nat) ts :
  Forall (fun t => t <> Leaf /\ tree_height t <= S H) ts ->
  Forall (fun t => t <> Leaf /\ tree_height t <= H) (ts ≫= children).
Proof.
  induction 1 as [|t ts [Hne Hh] _ IH]; [constructor |].
  cbn. apply Forall_app. split; [| exact IH].
  destruct t as [|l a k r]; [easy |]. cbn in Hh. cbn. apply Forall_app. split.
  - destruct l; [constructor |]. repeat constructor; [easy | lia].
  - destruct r; [constructor |]. repeat constructor; [easy | lia].
Qed.

(** One round of the loop of [levelOrder]: the callback on the nodes of
    the level, in order; their children make the next queue. *)
Lemma levelOrder_for_call_each callback n :
  quiet callback ->
  forall q1 ts1 q2 w,
    length q1 = n ->
    Forall2 (shape (heap w)) q1 ts1 -> Forall (fun t => t <> Leaf) ts1 ->
    levelOrder_for callback n (q1 ++ q2) w
    = (call_each callback q1 ;;;
       ret (q2 ++ (tree_ref <$> (ts1 ≫= children)))) w.
Proof.
  intros Hq. induction n as [|n IH]; intros q1 ts1 q2 w Hlen H1 Hne.
  - destruct q1; [| easy]. inversion H1; subst. cbn. now rewrite app_nil_r.
  - destruct H1 as [|node t q1 ts1 Hs H1]; [easy |].
    apply Forall_cons in Hne as [Hne Hnes].
    destruct t as [|l a k rt]; [easy |]. cbn in Hs.
    destruct Hs as (-> & nl & nr & E & Hl & Hr).
    cbn [levelOrder_for app head tail default call_each]. unfold id.
    rewrite bind_assoc.
    apply (bind_ext _ _ _ _ _ (fun w' => heap w' = heap w)); [reflexivity | |].
    { intros [] w' Erun. pose proof (Hq (ref a) w ltac:(cbn; eauto)) as Hu.
      rewrite Erun in Hu. apply Hu. }
    intros _ [h1 r1 u1] Hh1. cbn [heap] in Hh1. rewrite <- Hh1 in *.
    step. step.
    set (c := (if is_null nl then [] else [nl]) ++ (if is_null nr then [] else [nr])).
    assert (Eq : (if is_null nr
                  then if is_null nl then q1 ++ q2 else (q1 ++ q2) ++ [nl]
                  else (if is_null nl then q1 ++ q2 else (q1 ++ q2) ++ [nl]) ++ [nr])
                 = q1 ++ (q2 ++ c)).
    { unfold c. destruct (is_null nl), (is_null nr); cbn;
        rewrite ?app_nil_r, <- ?app_assoc; reflexivity. }
    rewrite Eq.
    rewrite (IH q1 ts1 (q2 ++ c) (mkWorld h1 r1 u1)) by (cbn in Hlen; auto; lia).
    assert (Ec : c = tree_ref <$> children (Br l a k rt)).
    { unfold c. cbn [children]. rewrite fmap_app. f_equal.
      - destruct l; cbn in Hl; [now subst nl |]. now destruct Hl as [-> _].
      - destruct rt; cbn in Hr; [now subst nr |]. now destruct Hr as [-> _]. }
    cbn [mbind list_bind]. rewrite fmap_app, <- Ec, app_assoc. reflexivity.
Qed.

Lemma concat_levels_nil (H : nat) (f : nat -> list loc) :
  (forall d, f d = []) -> concat (f <$> seq 0 H) = [].
Proof.
  intros Hf. induction (seq 0 H) as [|d l IH]; [reflexivity |]. cbn. now rewrite Hf, IH.
Qed.

Lemma levelOrder_while_call_each callback fuel :
  quiet callback ->
  forall (H : nat) queue ts w,
    Forall2 (shape (heap w)) queue ts ->
    Forall (fun t => t <> Leaf /\ tree_height t <= H) ts ->
    H < fuel ->
    levelOrder_while fuel callback (length queue) queue w
    = call_each callback
        (ref <$> concat ((fun d => concat (level d <$> ts)) <$> seq 0 H)) w.
Proof.
  intros Hq. induction fuel as [|fuel IH]; intros H queue ts w H2 Hh Hf; [lia |].
  cbn [levelOrder_while]. destruct (Nat.ltb_spec 0 (length queue)) as [Hpos | Hz].
  - destruct H as [|H].
    { destruct H2 as [|node t q ts' Hs H2]; [cbn in Hpos; lia |].
      apply Forall_cons in Hh as [[Hne Hht] _]. destruct t; [easy | cbn in Hht; lia]. }
    assert (Hne : Forall (fun t => t <> Leaf) ts)
      by (eapply Forall_impl; [exact Hh |]; cbn; tauto).
    assert (Eq : queue = tree_ref <$> ts).
    { clear -H2. induction H2 as [|n t q ts Hs _ IH2]; [reflexivity |].
      cbn. now rewrite (shape_ref _ _ _ Hs), IH2. }
    pose proof (levelOrder_for_call_each callback (length queue) Hq queue ts [] w
                  eq_refl H2 Hne) as Hfor.
    rewrite app_nil_r in Hfor. cbn [app] in Hfor.
    cbn [seq fmap list_fmap concat]. rewrite fmap_app, call_each_app.
    rewrite (level_0_forest ts Hne), <- Eq.
    unfold bind at 1. rewrite Hfor. unfold bind at 1 2.
    pose proof (call_each_unchanged callback queue w Hq) as Hu.
    destruct (call_each callback queue w) as [[] w' | e w' |]; [| reflexivity | reflexivity].
    cbn in Hu. destruct Hu as [Hh' Hr'].
    { clear -H2. induction H2 as [|n t q ts Hs _ IH2]; constructor; [| exact IH2].
      destruct t; cbn in Hs; [now subst n |]. destruct Hs as (-> & nl & nr & E & _).
      cbn. eauto. }
    cbn [ret]. rewrite <- Hh' in H2.
    rewrite length_fmap, <- (length_fmap tree_ref).
    rewrite (IH H _ (ts ≫= children) w' (shape_children _ _ _ H2)
               (children_props H ts Hh) ltac:(lia)).
    f_equal. f_equal. f_equal.
    rewrite <- fmap_S_seq, <- list_fmap_compose.
    apply list_fmap_ext. intros _ d _. cbn. apply level_forest_children.
  - assert (ts = []) as ->.
    { destruct H2; [reflexivity | cbn in Hz; lia]. }
    rewrite concat_levels_nil; reflexivity.
Qed.

(** X8.  [levelOrder(cb)] with a callback that writes to no node calls it once
    on every node, level after level from the root down and from left to
    right within a level, and stops at the first call that throws. *)
Theorem levelOrder_calls_breadth_first fuel callback w t :
  tree_at w t -> tree_height t < fuel -> invocable callback -> quiet callback ->
  levelOrder fuel callback w = call_each callback (ref <$> bfs t) w.
Proof.
  intros [Hs _] Hf Hinv Hq. unfold levelOrder. rewrite (typeof_invocable _ Hinv).
  unfold bind at 1, get_root at 1.
  destruct t as [|l a k r].
  - cbn in Hs. rewrite Hs. reflexivity.
  - pose proof (shape_ref _ _ _ Hs) as Er. cbn [tree_ref] in Er. rewrite Er in *.
    cbn [is_null]. change 1 with (length [ref a]).
    rewrite (levelOrder_while_call_each callback fuel Hq
               (tree_height (Br l a k r)) [ref a] [Br l a k r] w).
    + unfold bfs. f_equal. f_equal. f_equal. apply list_fmap_ext.
      intros _ d _. cbn [fmap list_fmap concat]. now rewrite app_nil_r.
    + constructor; [exact Hs | constructor].
    + repeat constructor; easy.
    + exact Hf.
Qed.

(** X9.  A traversal called with anything but a function throws its error
    before it reads the tree or calls anything. *)
Theorem traversals_need_a_function fuel callback w :
  ~ invocable callback ->
  let e := Error "Trying to traverse without a callback function" in
  levelOrder fuel callback w = Throws e w /\
  inOrder fuel callback w = Throws e w /\
  preOrder fuel callback w = Throws e w /\
  postOrder fuel callback w = Throws e w.
Proof.
  intros Hn. unfold invocable in Hn.
  destruct callback; try (repeat split; reflexivity). now destruct Hn.
Qed.

End Order.

Lemma inOrder_calls_in_order_witness :
  inOrder 4 push_data_callback example_world
  = call_each push_data_callback [ref 2; ref 1; ref 0; ref 3] example_world.
Proof.
  apply (inOrder_calls_in_order 4 push_data_callback example_world example_tree).
  - exact example_tree_at.
  - cbn. lia.
  - reflexivity.
  - exact push_data_quiet.
Defined.

Lemma levelOrder_calls_breadth_first_witness :
  levelOrder 4 push_data_callback example_world
  = call_each push_data_callback [ref 0; ref 1; ref 3; ref 2] example_world.
Proof.
  apply (levelOrder_calls_breadth_first 4 push_data_callback example_world example_tree).
  - exact example_tree_at.
  - cbn. lia.
  - reflexivity.
  - exact push_data_quiet.
Defined.

Lemma traversals_need_a_function_witness :
  let e := Error "Trying to traverse without a callback function" in
  levelOrder 4 (VString "cb") example_world = Throws e example_world /\
  inOrder 4 (VString "cb") example_world = Throws e example_world /\
  preOrder 4 (VString "cb") example_world = Throws e example_world /\
  postOrder 4 (VString "cb") example_world = Throws e example_world.
Proof.
  apply (traversals_need_a_function 4 (VString "cb") example_world). discriminate.
Defined.

(** ** Heights *)

Lemma size_lt_pow_height t : size t < 2 ^ tree_height t.
Proof.
  induction t as [|l IHl a k r IHr]; cbn [size tree_height]; [cbn; lia |].
  set (m := Nat.max (tree_height l) (tree_height r)).
  assert (2 ^ tree_height l <= 2 ^ m) by (apply Nat.pow_le_mono_r; lia).
  assert (2 ^ tree_height r <= 2 ^ m) by (apply Nat.pow_le_mono_r; lia).
  rewrite Nat.pow_succ_r'. lia.
Qed.

(** The build from [n] keys is as low as a tree of [n] nodes can be. *)
Lemma build_height_pow fuel n :
  n < fuel ->
  n < 2 ^ build_height fuel n /\ (0 < n -> 2 ^ build_height fuel n <= 2 * n).
Proof.
  revert n. induction fuel as [|fuel IH]; intros n Hf; [lia |].
  cbn [build_height]. destruct (Nat.eqb_spec n 0) as [-> | Hn]; [cbn; lia |].
  pose proof (half_lt _ Hn) as Hmid. pose proof (halves _ Hn) as Hh.
  pose proof (build_height_step fuel fuel (n - (n / 2 + 1)) (n / 2)
                ltac:(lia) ltac:(lia) Hh) as Hstep.
  rewrite Nat.max_l by lia.
  destruct (IH (n / 2) ltac:(lia)) as [Hlt Hge].
  pose proof (Nat.div_mod_eq n 2). pose proof (Nat.mod_upper_bound n 2 ltac:(lia)).
  rewrite Nat.pow_succ_r'. split; [lia |]. intros _.
  destruct (Nat.eq_dec (n / 2) 0) as [E0 | E0].
  - rewrite E0, build_height_0. cbn. lia.
  - specialize (Hge ltac:(lia)). lia.
Qed.

Lemma build_height_log2 fuel n :
  0 < n < fuel -> build_height fuel n = S (Nat.log2 n).
Proof.
  intros [Hn Hf]. destruct (build_height_pow fuel n Hf) as [Hlt Hge].
  specialize (Hge Hn).
  destruct (build_height fuel n) as [|H] eqn:E; [cbn in Hlt; lia |].
  f_equal. symmetry. apply Nat.log2_unique; [lia |].
  rewrite Nat.pow_succ_r' in Hge. split; [lia | exact Hlt].
Qed.

Section Heights.
Context {U : Type}.
Variable StringToNumber : string -> number.
Implicit Types (h : list Node) (r : NodeRef) (u : U) (w : World U) (t : tree).

Lemma height_root_spec fuel w t :
  tree_at w t -> tree_height t < fuel ->
  height fuel (root w) w = Returns (Z.of_nat (tree_height t)) w.
Proof.
  intros [Hs _] Hf. destruct w as [h r u]. now apply height_spec.
Qed.

(** X10.  [height(root)] is at most the number of nodes, and a tree of height
    [H] has fewer than [2 ^ H] nodes. *)
Theorem height_bounds fuel w t :
  tree_at w t -> tree_height t < fuel ->
  exists (H : nat) ks,
    height fuel (root w) w = Returns (Z.of_nat H) w /\
    collect_inOrder fuel w = Returns ks w /\
    H <= length ks < 2 ^ H.
Proof.
  intros Ht Hf. exists (tree_height t), (Num <$> keys t).
  split; [now apply height_root_spec |]. split; [now apply collect_inOrder_spec |].
  rewrite length_fmap, length_keys. split.
  - apply tree_height_le_size.
  - apply size_lt_pow_height.
Qed.

(** X11.  The tree of [new Tree(array)] has the least height a tree with its
    number of nodes can have: 0 when it is empty, and one more than the
    binary logarithm of the number of nodes otherwise. *)
Theorem new_height_minimal fuel (array : list (JSValue U)) w0 :
  Forall (coercible StringToNumber) array -> length array < fuel ->
  exists w ks,
    constructor StringToNumber fuel array w0 = Returns tt w /\
    collect_inOrder fuel w = Returns ks w /\
    height fuel (root w) w
    = Returns (Z.of_nat (match length ks with
                         | O => 0
                         | S _ => S (Nat.log2 (length ks))
                         end)) w.
Proof.
  intros Hall Hf. destruct w0 as [h r u].
  destruct (constructor_builds StringToNumber fuel array h r u Hall Hf) as (h' & E & Hs & _ & _ & Hlen).
  set (ks := sorted_dedup ((fun v => to_Z (Number StringToNumber v)) <$> array)) in *.
  set (t := tree_build fuel (length h) ks) in *.
  assert (Ht : tree_at (mkWorld h' (tree_ref t) u) t).
  { split; [exact Hs |]. apply NoDup_tree_build. lia. }
  assert (Hh : tree_height t < fuel).
  { pose proof (tree_height_le_size t). unfold t in *.
    rewrite size_tree_build in * by lia. lia. }
  exists (mkWorld h' (tree_ref t) u), (Num <$> keys t).
  split; [exact E |]. split; [now apply collect_inOrder_spec |].
  rewrite (height_root_spec fuel _ t Ht Hh). f_equal. f_equal.
  unfold t. rewrite keys_tree_build, length_fmap, tree_height_build by lia.
  destruct (length ks) as [|n] eqn:En; [apply build_height_0 |].
  apply build_height_log2. lia.
Qed.

(** X12.  Two arrays with the same numbers, in any order and with any
    repetitions, build the same tree. *)
Theorem new_ignores_order_and_duplicates fuel (array1 array2 : list (JSValue U)) w0 :
  Forall (coercible StringToNumber) array1 -> Forall (coercible StringToNumber) array2 ->
  (forall n, n ∈ (Number StringToNumber <$> array1) <-> n ∈ (Number StringToNumber <$> array2)) ->
  length array1 < fuel -> length array2 < fuel ->
  exists w,
    constructor StringToNumber fuel array1 w0 = Returns tt w /\
    constructor StringToNumber fuel array2 w0 = Returns tt w.
Proof.
  intros H1 H2 Hsame Hf1 Hf2. destruct w0 as [h r u].
  destruct (constructor_builds StringToNumber fuel array1 h r u H1 Hf1) as (h1 & E1 & _).
  destruct (processArray_spec StringToNumber array1 (mkWorld h r u) H1)
    as (ks1 & Erun1 & Hs1 & Hel1 & _).
  destruct (processArray_spec StringToNumber array2 (mkWorld h r u) H2)
    as (ks2 & Erun2 & Hs2 & Hel2 & _).
  assert (ks2 = ks1) as ->.
  { rewrite (sorted_dedup_unique ks1 ks2 Hs2); [| intros k; now rewrite Hel1, Hel2, Hsame].
    symmetry. now apply sorted_dedup_unique. }
  eexists. split; [exact E1 |].
  rewrite <- E1. unfold constructor.
  now rewrite (bind_Returns _ _ _ _ _ Erun1), (bind_Returns _ _ _ _ _ Erun2).
Qed.

(** X13.  The constructor throws for the first element that does not convert:
    the message names it, whatever comes after it. *)
Theorem new_throws_at_first fuel (good rest : list (JSValue U)) (bad : JSValue U) w0 :
  Forall (coercible StringToNumber) good -> isNaN StringToNumber bad = true ->
  constructor StringToNumber fuel (good ++ bad :: rest) w0
  = Throws (Error ("Trying to convert " +:+ ToString bad +:+ " to a number")) w0.
Proof.
  intros Hgood Hbad. unfold constructor, processArray.
  apply bind_Throws, bind_Throws.
  induction Hgood as [|v good Hv _ IH]; cbn [app Array_map].
  - now rewrite Hbad.
  - unfold coercible in Hv. rewrite Hv. unfold bind at 1. cbn [ret].
    now rewrite (bind_Throws _ _ _ _ _ IH).
Qed.

End Heights.

Lemma height_bounds_witness :
  exists (H : nat) ks,
    height 4 (root skewed_world) skewed_world = Returns (Z.of_nat H) skewed_world /\
    collect_inOrder 4 skewed_world = Returns ks skewed_world /\
    H <= length ks < 2 ^ H.
Proof.
  apply (height_bounds 4 skewed_world skewed_tree).
  - exact skewed_tree_at.
  - cbn. lia.
Defined.

Lemma new_height_minimal_witness :
  exists w ks,
    constructor decimal_literal 6 (one_to_n 5) empty_world = Returns tt w /\
    collect_inOrder 6 w = Returns ks w /\
    height 6 (root w) w
    = Returns (Z.of_nat (match length ks with
                         | O => 0
                         | S _ => S (Nat.log2 (length ks))
                         end)) w.
Proof.
  apply (new_height_minimal decimal_literal 6 (one_to_n 5) empty_world).
  - apply one_to_n_coercible.
  - cbn. lia.
Defined.

Lemma new_ignores_order_and_duplicates_witness :
  exists w,
    constructor decimal_literal 7 example_array empty_world = Returns tt w /\
    constructor decimal_literal 7
      [VString "8"; VNumber (Num 6); VString "3"; VNumber (Num 1)] empty_world
    = Returns tt w.
Proof.
  apply (new_ignores_order_and_duplicates decimal_literal 7).
  - repeat constructor.
  - repeat constructor.
  - intros n. cbn. rewrite !elem_of_cons, !elem_of_nil. tauto.
  - cbn. lia.
  - cbn. lia.
Defined.

Lemma new_throws_at_first_witness :
  constructor decimal_literal 5
    [VNumber (Num 1); VString "x"; VNull; VString "y"] empty_world
  = Throws (Error "Trying to convert x to a number") empty_world.
Proof.
  apply (new_throws_at_first decimal_literal 5 [VNumber (Num 1)] [VNull; VString "y"]
           (VString "x") empty_world).
  - repeat constructor.
  - reflexivity.
Defined.

(** ** Rebalancing *)

Section MoreRebalance.
Context {U : Type}.
Implicit Types (h : list Node) (r : NodeRef) (u : U) (w : World U) (t : tree).

(** An unbalanced tree is rebuilt from its keys in fresh objects. *)
Lemma rebalance_unbalanced fuel h r u t :
  shape h r t -> size t < fuel -> balanced t = false ->
  let t' := tree_build fuel (length h) (keys t) in
  exists h',
    rebalance fuel (mkWorld h r u) = Returns tt (mkWorld h' (tree_ref t') u) /\
    shape h' (tree_ref t') t' /\
    length h' = length h + size t /\
    (forall b, b < length h -> h' !! b = h !! b).
Proof.
  intros Hs Hf Eb t'. pose proof (tree_height_le_size t) as Hh.
  unfold rebalance.
  assert (Eis : isBalanced fuel (mkWorld h r u) = Returns false (mkWorld h r u)).
  { unfold isBalanced, bind, get_root. cbn [root].
    now rewrite (isBalancedRec_spec fuel h r u r t Hs ltac:(lia)), Eb. }
  rewrite (bind_Returns _ _ _ _ _ Eis). cbn [negb].
  assert (Ein : with_local [] (inOrder fuel
                   (VFunction "(node) => data.push(node.data)" push_data))
                  (mkWorld h r u)
                = Returns (tt, Num <$> keys t) (mkWorld h r u)).
  { unfold with_local, inOrder. rewrite typeof_function.
    unfold bind, get_root. cbn [heap root user].
    now rewrite (inOrderRec_push_data fuel _ h r [] r t Hs ltac:(lia)). }
  rewrite (bind_Returns _ _ _ _ _ Ein). cbn [snd].
  assert (Hf' : length (keys t) < fuel) by (rewrite length_keys; lia).
  destruct (buildTree_spec fuel (keys t) h r u Hf') as (h' & Erun & Hs' & Hlen & Hk).
  rewrite (bind_Returns _ _ _ _ _ Erun).
  exists h'. split; [reflexivity |]. split; [exact Hs' |].
  split; [now rewrite Hlen, length_keys | exact Hk].
Qed.

(** X14.  When [isBalanced()] is false, [rebalance()] builds the tree anew: as
    many objects as there are keys are added to the store, the new tree
    is made of them alone, the objects of the old tree stay as they were,
    and the height is the least possible. *)
Theorem rebalance_rebuilds fuel w t :
  tree_at w t -> size t < fuel ->
  isBalanced fuel w = Returns false w ->
  exists w' t',
    rebalance fuel w = Returns tt w' /\ tree_at w' t' /\
    length (heap w') = length (heap w) + size t /\
    (forall b, b < length (heap w) -> heap w' !! b = heap w !! b) /\
    (forall a, a ∈ locs t' -> length (heap w) <= a) /\
    height fuel (root w') w' = Returns (Z.of_nat (S (Nat.log2 (size t)))) w'.
Proof.
  intros Ht Hf Eis. pose proof (tree_height_le_size t) as Hh.
  rewrite (isBalanced_spec fuel w t Ht ltac:(lia)) in Eis.
  assert (Eb : balanced t = false) by congruence.
  destruct Ht as [Hs Hnd]. destruct w as [h r u]. cbn [heap root] in *.
  destruct (rebalance_unbalanced fuel h r u t Hs Hf Eb) as (h' & E & Hs' & Hlen & Hk).
  assert (Hf' : length (keys t) < fuel) by (rewrite length_keys; lia).
  set (t' := tree_build fuel (length h) (keys t)) in *.
  exists (mkWorld h' (tree_ref t') u), t'. cbn [heap root].
  split; [exact E |].
  split; [split; [exact Hs' | now apply NoDup_tree_build] |].
  split; [exact Hlen |]. split; [exact Hk |]. split.
  - intros a Ha. apply (locs_tree_build fuel) in Ha; [lia | exact Hf'].
  - assert (Hpos : 0 < size t) by (destruct t; [discriminate | cbn; lia]).
    assert (Eh : tree_height t' = S (Nat.log2 (size t))).
    { unfold t'. rewrite tree_height_build, length_keys.
      apply build_height_log2. lia. }
    rewrite <- Eh. apply height_spec; [exact Hs' |].
    rewrite Eh. pose proof (Nat.log2_lt_lin (size t) Hpos). lia.
Qed.

(** X15.  A second [rebalance()] right after the first changes nothing. *)
Theorem rebalance_twice fuel w t :
  tree_at w t -> size t < fuel ->
  exists w',
    rebalance fuel w = Returns tt w' /\ rebalance fuel w' = Returns tt w'.
Proof.
  intros Ht Hf.
  destruct (rebalance_spec fuel w t Ht Hf) as (w' & t' & E & Ht' & Hk & Hb & _ & _).
  exists w'. split; [exact E |].
  assert (Hf' : size t' < fuel) by (rewrite <- !length_keys, Hk, length_keys in *; lia).
  destruct (rebalance_spec fuel w' t' Ht' Hf') as (w'' & t'' & E' & _ & _ & _ & _ & Hsame).
  now rewrite E', (Hsame Hb).
Qed.

End MoreRebalance.

Lemma rebalance_rebuilds_witness :
  exists w' t',
    rebalance 4 skewed_world = Returns tt w' /\ tree_at w' t' /\
    length (heap w') = length (heap skewed_world) + size skewed_tree /\
    (forall b, b < length (heap skewed_world) -> heap w' !! b = heap skewed_world !! b) /\
    (forall a, a ∈ locs t' -> length (heap skewed_world) <= a) /\
    height 4 (root w') w' = Returns (Z.of_nat (S (Nat.log2 (size skewed_tree)))) w'.
Proof.
  apply (rebalance_rebuilds 4 skewed_world skewed_tree).
  - exact skewed_tree_at.
  - cbn. lia.
  - reflexivity.
Defined.

Lemma rebalance_twice_witness :
  exists w',
    rebalance 4 skewed_world = Returns tt w' /\ rebalance 4 w' = Returns tt w'.
Proof.
  apply (rebalance_twice 4 skewed_world skewed_tree).
  - exact skewed_tree_at.
  - cbn. lia.
Defined.

(** ** The depth of a node *)

Lemma level_locs d t a : a ∈ level d t -> a ∈ locs t.
Proof.
  revert d. induction t as [|l IHl b k r IHr]; intros d Ha; [easy |].
  destruct d as [|d]; cbn [level locs] in *.
  - apply list_elem_of_singleton in Ha as ->. elems.
  - apply elem_of_app in Ha as [Ha | Ha]; [apply IHl in Ha | apply IHr in Ha]; elems.
Qed.

Lemma shape_lookup h n t a :
  shape h n t -> a ∈ locs t ->
  exists nd k, h !! a = Some nd /\ data nd = Num k /\ k ∈ keys t.
Proof.
  revert n. induction t as [|l IHl b k r IHr]; intros n Hs Ha; [easy |].
  apply shape_Br_inv in Hs as (-> & nl & nr & E & Hl & Hr).
  cbn [locs keys] in *.
  apply elem_of_app in Ha as [Ha | Ha]; [| apply elem_of_cons in Ha as [-> | Ha]].
  - destruct (IHl _ Hl Ha) as (nd & k' & ? & ? & ?). exists nd, k'. repeat split; auto. elems.
  - exists (mkNode (Num k) nl nr), k. repeat split; auto. elems.
  - destruct (IHr _ Hr Ha) as (nd & k' & ? & ? & ?). exists nd, k'. repeat split; auto. elems.
Qed.

Lemma level_subtree h n t a d :
  shape h n t -> a ∈ level d t ->
  exists s, shape h (ref a) s /\ 0 < tree_height s /\ d + tree_height s <= tree_height t.
Proof.
  revert n d. induction t as [|l IHl b k r IHr]; intros n d Hs Ha; [easy |].
  pose proof Hs as Hs0.
  apply shape_Br_inv in Hs as (-> & nl & nr & E & Hl & Hr).
  destruct d as [|d]; cbn [level] in Ha.
  - apply list_elem_of_singleton in Ha as ->. exists (Br l b k r).
    split; [exact Hs0 |]. cbn [tree_height]. lia.
  - apply elem_of_app in Ha as [Ha | Ha].
    + destruct (IHl _ _ Hl Ha) as (s & ? & ? & ?). exists s. cbn [tree_height]. repeat split; auto. lia.
    + destruct (IHr _ _ Hr Ha) as (s & ? & ? & ?). exists s. cbn [tree_height]. repeat split; auto. lia.
Qed.

Section Depth.
Context {U : Type}.
Implicit Types (h : list Node) (r : NodeRef) (u : U) (w : World U) (t : tree).

Lemma depth_loop_spec fuel h r u n t a d result :
  shape h n t -> NoDup (locs t) -> bst t -> a ∈ level d t -> tree_height t <= fuel ->
  depth_loop fuel (ref a) n result (mkWorld h r u)
  = Returns (result + Z.of_nat d)%Z (mkWorld h r u).
Proof.
  revert n t d result. induction fuel as [|fuel IH]; intros n t d result Hs Hnd Hb Ha Hf.
  { destruct t; [easy | cbn in Hf; lia]. }
  destruct t as [|l b k rt]; [easy |].
  pose proof (shape_lookup _ _ _ a Hs (level_locs _ _ _ Ha)) as (nda & ka & Ea & Eda & _).
  apply shape_Br_inv in Hs as (-> & nl & nr & E & Hl & Hr).
  apply NoDup_locs_Br in Hnd as (Hndl & Hndr & Hbl & Hbr & Hlr).
  destruct Hb as (Hkl & Hkr & Hbl' & Hbr'). cbn [tree_height] in Hf.
  cbn [depth_loop]. destruct d as [|d]; cbn [level] in Ha.
  - apply list_elem_of_singleton in Ha as ->.
    rewrite bool_decide_eq_true_2 by reflexivity. unfold ret. f_equal. lia.
  - assert (a <> b).
    { intros ->. apply elem_of_app in Ha as [Ha | Ha]; apply level_locs in Ha; tauto. }
    rewrite bool_decide_eq_false_2 by congruence.
    step. step. rewrite Eda.
    apply elem_of_app in Ha as [Ha | Ha].
    + destruct (shape_lookup _ _ _ a Hl (level_locs _ _ _ Ha)) as (nd' & k' & E' & Ed' & Hk').
      assert (k' = ka) as -> by congruence.
      rewrite Forall_forall in Hkl. specialize (Hkl _ Hk').
      cbn [number_lt]. rewrite (proj2 (Z.ltb_ge k ka)) by lia.
      step. rewrite (IH nl l d (result + 1)%Z Hl Hndl Hbl' Ha ltac:(lia)).
      f_equal. lia.
    + destruct (shape_lookup _ _ _ a Hr (level_locs _ _ _ Ha)) as (nd' & k' & E' & Ed' & Hk').
      assert (k' = ka) as -> by congruence.
      rewrite Forall_forall in Hkr. specialize (Hkr _ Hk').
      cbn [number_lt]. rewrite (proj2 (Z.ltb_lt k ka)) by lia.
      step. rewrite (IH nr rt d (result + 1)%Z Hr Hndr Hbr' Ha ltac:(lia)).
      f_equal. lia.
Qed.

(** X16.  On a search tree, [depth(node)] of a node of the tree returns the
    number of the level the node is on, the number of edges from the
    root, and leaves the tree as it was; the depth of a node and the
    height of the subtree below it are together at most the height of the
    tree. *)
Theorem depth_of_node fuel w t a d :
  tree_at w t -> bst t -> a ∈ level d t -> tree_height t < fuel ->
  exists H R : nat,
    depth fuel (ref a) w = Returns (Z.of_nat d) w /\
    height fuel (ref a) w = Returns (Z.of_nat H) w /\
    height fuel (root w) w = Returns (Z.of_nat R) w /\
    0 < H /\ d + H <= R.
Proof.
  intros [Hs Hnd] Hb Ha Hf. destruct w as [h r u]. cbn [heap root] in Hs.
  destruct (level_subtree h r t a d Hs Ha) as (s & Hs' & Hpos & Hle).
  exists (tree_height s), (tree_height t). cbn [root]. split; [| split; [| split]].
  - unfold depth, bind, get_root. cbn [root].
    now rewrite (depth_loop_spec fuel h r u r t a d 0%Z Hs Hnd Hb Ha ltac:(lia)).
  - apply height_spec; [exact Hs' | lia].
  - now apply height_spec.
  - lia.
Qed.

Lemma depth_loop_foreign fuel h r u n t a nd result :
  shape h n t -> h !! a = Some nd -> a ∉ locs t -> tree_height t < fuel ->
  depth_loop fuel (ref a) n result (mkWorld h r u) = Throws TypeError (mkWorld h r u).
Proof.
  revert n t result. induction fuel as [|fuel IH]; intros n t result Hs Ea Ha Hf; [lia |].
  cbn [depth_loop]. destruct t as [|l b k rt].
  - cbn in Hs. subst n. rewrite bool_decide_eq_false_2 by discriminate. reflexivity.
  - apply shape_Br_inv in Hs as (-> & nl & nr & E & Hl & Hr).
    cbn [locs tree_height] in *.
    rewrite bool_decide_eq_false_2 by (intros [= ->]; apply Ha; elems).
    step. step.
    destruct (number_lt (Num k) (data nd)); step.
    + apply (IH nr rt); auto; [intros ?; apply Ha; elems | lia].
    + apply (IH nl l); auto; [intros ?; apply Ha; elems | lia].
Qed.

(** X17.  [depth(node)] of a node that is not in the tree throws a [TypeError]:
    the walk runs off the tree and reads [null.data]. *)
Theorem depth_of_foreign_node fuel w t a nd :
  tree_at w t -> heap w !! a = Some nd -> a ∉ locs t -> tree_height t < fuel ->
  depth fuel (ref a) w = Throws TypeError w.
Proof.
  intros [Hs _] Ea Ha Hf. destruct w as [h r u]. cbn [heap root] in *.
  unfold depth, bind, get_root. cbn [root].
  now rewrite (depth_loop_foreign fuel h r u r t a nd 0%Z Hs Ea Ha Hf).
Qed.

End Depth.

Lemma depth_of_node_witness :
  exists H R : nat,
    depth 4 (ref 2) example_world = Returns (Z.of_nat 2) example_world /\
    height 4 (ref 2) example_world = Returns (Z.of_nat H) example_world /\
    height 4 (root example_world) example_world = Returns (Z.of_nat R) example_world /\
    0 < H /\ 2 + H <= R.
Proof.
  apply (depth_of_node 4 example_world example_tree 2 2).
  - exact example_tree_at.
  - exact example_bst.
  - cbn. elems.
  - cbn. lia.
Defined.

Lemma depth_of_foreign_node_witness :
  depth 4 (ref 2) (mkWorld (heap example_world) (ref 3) tt)
  = Throws TypeError (mkWorld (heap example_world) (ref 3) tt).
Proof.
  apply (depth_of_foreign_node 4 (mkWorld (heap example_world) (ref 3) tt)
           (Br Leaf 3 8 Leaf) 2 (mkNode (Num 1) null null)).
  - split; [cbn; split; [reflexivity |]; eexists _, _; now repeat split | cbn; compute_done].
  - reflexivity.
  - cbn. compute_done.
  - cbn. lia.
Defined.

(** ** The in-order successor *)

(** A node of the tree is the root of a subtree, whose nodes and keys sit
    at the same place in the two in-order sequences of the tree. *)
Lemma shape_subtree h n t a :
  shape h n t -> a ∈ locs t ->
  exists l k r lpre lpost pre post,
    shape h (ref a) (Br l a k r) /\
    locs t = lpre ++ locs l ++ a :: locs r ++ lpost /\
    keys t = pre ++ keys l ++ k :: keys r ++ post /\
    length pre = length lpre /\
    tree_height (Br l a k r) <= tree_height t.
Proof.
  revert n. induction t as [|l IHl b k r IHr]; intros n Hs Ha; [easy |].
  pose proof Hs as Hs0.
  apply shape_Br_inv in Hs as (-> & nl & nr & E & Hl & Hr).
  cbn [locs] in Ha.
  apply elem_of_app in Ha as [Ha | Ha]; [| apply elem_of_cons in Ha as [-> | Ha]].
  - destruct (IHl _ Hl Ha)
      as (l' & k' & r' & lpre & lpost & pre & post & Hs' & El & Ek & Hlen & Hh).
    exists l', k', r', lpre, (lpost ++ b :: locs r), pre, (post ++ k :: keys r).
    split; [exact Hs' |]. cbn [keys locs]. rewrite El, Ek.
    repeat split.
    + now rewrite <- !app_assoc, <- app_comm_cons, <- ?app_assoc.
    + now rewrite <- !app_assoc, <- app_comm_cons, <- ?app_assoc.
    + exact Hlen.
    + cbn [tree_height] in *. lia.
  - exists l, k, r, [], [], [], []. split; [exact Hs0 |].
    cbn [keys locs app]. rewrite !app_nil_r. repeat split. lia.
  - destruct (IHr _ Hr Ha)
      as (l' & k' & r' & lpre & lpost & pre & post & Hs' & El & Ek & Hlen & Hh).
    exists l', k', r', (locs l ++ b :: lpre), lpost, (keys l ++ k :: pre), post.
    split; [exact Hs' |]. cbn [keys locs]. rewrite El, Ek.
    repeat split.
    + now rewrite <- ?app_assoc, <- ?app_comm_cons.
    + now rewrite <- ?app_assoc, <- ?app_comm_cons.
    + rewrite !length_app. cbn [length]. rewrite length_keys, length_locs. lia.
    + cbn [tree_height] in *. lia.
Qed.

Section NextItem.
Context {U : Type}.
Implicit Types (h : list Node) (r : NodeRef) (u : U) (w : World U) (t : tree).

(** The loop of [#nextItem] stops at the first node of the subtree in
    in-order. *)
Lemma nextItem_loop_first fuel h r u n t :
  shape h n t -> t <> Leaf -> tree_height t <= fuel ->
  exists b k nl nr ltl ktl,
    nextItem_loop fuel n (mkWorld h r u) = Returns (ref b) (mkWorld h r u) /\
    h !! b = Some (mkNode (Num k) nl nr) /\
    locs t = b :: ltl /\ keys t = k :: ktl.
Proof.
  revert n t. induction fuel as [|fuel IH]; intros n t Hs Hne Hf.
  { destruct t; [easy | cbn in Hf; lia]. }
  destruct t as [|l a k rt]; [easy |].
  apply shape_Br_inv in Hs as (-> & nl & nr & E & Hl & Hr). cbn [tree_height] in Hf.
  cbn [nextItem_loop is_null locs keys]. step.
  destruct l as [|ll la lk lr].
  - cbn in Hl. subst nl. cbn [is_null]. now exists a, k, null, nr, (locs rt), (keys rt).
  - pose proof Hl as Hl0. apply shape_Br_inv in Hl0 as (-> & _). cbn [is_null].
    destruct (IH _ _ Hl ltac:(discriminate) ltac:(lia))
      as (b & k' & nl' & nr' & ltl & ktl & Erun & Eb & El & Ek).
    exists b, k', nl', nr', (ltl ++ a :: locs rt), (ktl ++ k :: keys rt).
    split; [exact Erun |]. split; [exact Eb |]. now rewrite El, Ek.
Qed.

(** X18.  [#nextItem(node)] of a node of the tree returns [null] when the
    node has no right child (also when a later node exists higher up), and
    when it has one, the node that comes right after it in the in-order
    sequence of the nodes, whose key comes right after the node's key in
    the in-order sequence of the keys; nothing is written. *)
Theorem nextItem_next_key fuel w t a :
  tree_at w t -> a ∈ locs t -> tree_height t < fuel ->
  exists nd k,
    heap w !! a = Some nd /\ data nd = Num k /\
    (right nd = null -> nextItem fuel (ref a) w = Returns null w) /\
    (right nd <> null ->
     exists b nd' k' lpre lpost pre post,
       nextItem fuel (ref a) w = Returns (ref b) w /\
       heap w !! b = Some nd' /\ data nd' = Num k' /\
       locs t = lpre ++ a :: b :: lpost /\
       collect_inOrder fuel w = Returns (Num <$> pre ++ k :: k' :: post) w /\
       length pre = length lpre).
Proof.
  intros Ht Ha Hf. pose proof (collect_inOrder_spec fuel w t Ht Hf) as Ecoll.
  destruct Ht as [Hs _]. destruct w as [h r u]. cbn [heap root] in *.
  destruct (shape_subtree h r t a Hs Ha)
    as (l & k & rt & lpre & lpost & pre & post & Hs' & El & Ek & Hlen & Hh).
  apply shape_Br_inv in Hs' as (_ & nl & nr & E & Hl & Hr).
  exists (mkNode (Num k) nl nr), k. split; [exact E |]. split; [reflexivity |].
  cbn [tree_height right] in *. destruct rt as [|rl rb rk rr].
  - cbn in Hr. subst nr. split; [| easy]. intros _.
    unfold nextItem. step. destruct fuel; [lia | reflexivity].
  - pose proof Hr as Hr0. apply shape_Br_inv in Hr0 as (-> & _).
    split; [discriminate |]. intros _.
    destruct (nextItem_loop_first fuel h r u (ref rb) (Br rl rb rk rr) Hr
                ltac:(discriminate) ltac:(lia))
      as (b & k' & nl' & nr' & ltl & ktl & En & Eb & El' & Ek').
    exists b, (mkNode (Num k') nl' nr'), k', (lpre ++ locs l), (ltl ++ lpost),
      (pre ++ keys l), (ktl ++ post).
    split; [unfold nextItem; step; exact En |]. split; [exact Eb |].
    split; [reflexivity |]. split; [| split].
    + rewrite El, El'. now rewrite <- !app_assoc.
    + rewrite Ecoll, Ek, Ek'. do 2 f_equal. now rewrite <- !app_assoc.
    + rewrite !length_app, length_keys, length_locs. lia.
Qed.

End NextItem.

Lemma nextItem_next_key_witness :
  exists nd k,
    heap example_world !! 0 = Some nd /\ data nd = Num k /\
    (right nd = null -> nextItem 4 (ref 0) example_world = Returns null example_world) /\
    (right nd <> null ->
     exists b nd' k' lpre lpost pre post,
       nextItem 4 (ref 0) example_world = Returns (ref b) example_world /\
       heap example_world !! b = Some nd' /\ data nd' = Num k' /\
       locs example_tree = lpre ++ 0 :: b :: lpost /\
       collect_inOrder 4 example_world
       = Returns (Num <$> pre ++ k :: k' :: post) example_world /\
       length pre = length lpre).
Proof.
  apply (nextItem_next_key 4 example_world example_tree 0).
  - exact example_tree_at.
  - cbn. elems.
  - cbn. lia.
Defined.

(** ** Printing *)

Lemma string_append_assoc (s1 s2 s3 : string) :
  (s1 +:+ s2) +:+ s3 = s1 +:+ s2 +:+ s3.
Proof. induction s1 as [|c s1 IH]; [reflexivity |]. exact (f_equal (String c) IH). Qed.

Lemma paths_desc_keys t : (paths_desc t).*2 = reverse (keys t).
Proof.
  induction t as [|l IHl a k r IHr]; [reflexivity |].
  cbn [paths_desc keys]. rewrite reverse_app, reverse_cons, <- app_assoc.
  rewrite fmap_app, fmap_cons, <- !list_fmap_compose. cbn [snd app].
  rewrite <- IHl, <- IHr.
  assert (Hsnd : forall side (nodes : list (list bool * Z)),
            snd ∘ prod_map (cons side) id <$> nodes = nodes.*2).
  { intros side nodes. apply list_fmap_ext. now intros i [path x] _. }
  now rewrite !Hsnd.
Qed.

Lemma paths_desc_key_at t :
  Forall (fun node => key_at node.1 t = Some node.2) (paths_desc t).
Proof.
  induction t as [|l IHl a k r IHr]; [constructor |].
  cbn [paths_desc]. apply Forall_app. split; [| constructor].
  - apply Forall_fmap. eapply Forall_impl; [exact IHr |]. now intros [path x].
  - reflexivity.
  - apply Forall_fmap. eapply Forall_impl; [exact IHl |]. now intros [path x].
Qed.

Section Printing.
Variable NumberToString : number -> string.
Implicit Types (h : list Node) (r : NodeRef) (t : tree) (lines : list string).

Lemma log_line_run h r lines l :
  log_line l (mkWorld h r lines) = Returns tt (mkWorld h r (lines ++ [l])).
Proof. reflexivity. Qed.

Lemma line_below prefix isLeft side node :
  node_line NumberToString (prefix +:+ (if eqb isLeft side then "    " else "|   ")) side node
  = node_line NumberToString prefix isLeft (prod_map (cons side) id node).
Proof.
  destruct node as [path k]. unfold node_line. cbn [fst snd prod_map indentation id].
  now rewrite !string_append_assoc.
Qed.

Lemma prettyPrint_spec fuel h r lines n t prefix isLeft :
  shape h n t -> tree_height t < fuel ->
  prettyPrint log_line NumberToString fuel n prefix isLeft (mkWorld h r lines)
  = Returns tt (mkWorld h r (lines ++ (node_line NumberToString prefix isLeft <$> paths_desc t))).
Proof.
  revert n t lines prefix isLeft.
  induction fuel as [|fuel IH]; intros n t lines prefix isLeft Hs Hf; [lia |].
  destruct t as [|l a k rt].
  { cbn in Hs. subst n. cbn. now rewrite app_nil_r. }
  apply shape_Br_inv in Hs as (-> & nl & nr & E & Hl & Hr).
  cbn [tree_height] in Hf. cbn [prettyPrint is_null].
  assert (Hright :
     (if negb (is_null nr)
      then r0 <- get_right (ref a) ;;
           prettyPrint log_line NumberToString fuel r0
             (prefix +:+ (if isLeft then "|   " else "    ")) false
      else ret tt) (mkWorld h r lines)
     = Returns tt (mkWorld h r
         (lines ++ (node_line NumberToString prefix isLeft <$> (prod_map (cons false) id <$> paths_desc rt))))).
  { destruct rt as [|rl rb rk rr].
    - cbn in Hr. subst nr. cbn. now rewrite app_nil_r.
    - pose proof Hr as Hr0. apply shape_Br_inv in Hr0 as (-> & _). cbn [is_null negb].
      step. rewrite (IH _ _ _ _ _ Hr ltac:(lia)). do 3 f_equal.
      rewrite <- list_fmap_compose. apply list_fmap_ext. intros i node _. cbn.
      rewrite <- line_below. now destruct isLeft. }
  step. cbn [right]. rewrite (bind_Returns _ _ _ _ _ Hright).
  step. rewrite (bind_Returns _ _ _ _ _ (log_line_run _ _ _ _)).
  step.
  assert (Hleft : forall lines',
     (if negb (is_null nl)
      then l0 <- get_left (ref a) ;;
           prettyPrint log_line NumberToString fuel l0
             (prefix +:+ (if isLeft then "    " else "|   ")) true
      else ret tt) (mkWorld h r lines')
     = Returns tt (mkWorld h r
         (lines' ++ (node_line NumberToString prefix isLeft <$> (prod_map (cons true) id <$> paths_desc l))))).
  { intros lines'. destruct l as [|ll lb lk lr].
    - cbn in Hl. subst nl. cbn. now rewrite app_nil_r.
    - pose proof Hl as Hl0. apply shape_Br_inv in Hl0 as (-> & _). cbn [is_null negb].
      step. rewrite (IH _ _ _ _ _ Hl ltac:(lia)). do 3 f_equal.
      rewrite <- list_fmap_compose. apply list_fmap_ext. intros i node _. cbn.
      rewrite <- line_below. now destruct isLeft. }
  rewrite Hleft. do 2 f_equal.
  cbn [paths_desc]. rewrite fmap_app, fmap_cons, <- !app_assoc. reflexivity.
Qed.

(** X19.  [prettyPrint(root, prefix, isLeft)] writes one line per node, from
    the last node in order to the first (on a search tree: from the
    greatest key to the least).  The line of a node is the prefix, a
    column of four characters for every edge on the path from the root
    (with a bar where the path turns), the corner, and the text of the
    key.  The tree is left as it was. *)
Theorem prettyPrint_lines fuel (w : World (list string)) t prefix isLeft :
  tree_at w t -> tree_height t < fuel ->
  prettyPrint log_line NumberToString fuel (root w) prefix isLeft w
  = Returns tt
      (mkWorld (heap w) (root w)
         (user w ++ (node_line NumberToString prefix isLeft <$> paths_desc t))) /\
  (paths_desc t).*2 = reverse (keys t) /\
  Forall (fun node => key_at node.1 t = Some node.2) (paths_desc t).
Proof.
  intros [Hs _] Hf. destruct w as [h r lines]. cbn [heap root user] in *.
  split; [| split].
  - exact (prettyPrint_spec fuel h r lines r t prefix isLeft Hs Hf).
  - apply paths_desc_keys.
  - apply paths_desc_key_at.
Qed.

End Printing.

Lemma prettyPrint_lines_witness :
  prettyPrint log_line decimal_string 4 (ref 0) "" true
    (mkWorld (heap example_world) (ref 0) [])
  = Returns tt
      (mkWorld (heap example_world) (ref 0)
         ([] ++ (node_line decimal_string "" true <$> paths_desc example_tree))) /\
  (paths_desc example_tree).*2 = reverse (keys example_tree) /\
  Forall (fun node => key_at node.1 example_tree = Some node.2)
    (paths_desc example_tree).
Proof.
  apply (prettyPrint_lines decimal_string 4
           (mkWorld (heap example_world) (ref 0) []) example_tree "" true).
  - destruct example_tree_at as [Hs Hnd]. split; [exact Hs | exact Hnd].
  - cbn. lia.
Defined.

(** The tree of [[3, 6, 6, 1, 8, 1]], printed. *)
Lemma example_prettyPrint :
  prettyPrint log_line decimal_string 4 (ref 0) "" true
    (mkWorld (heap example_world) (ref 0) [])
  = Returns tt
      (mkWorld (heap example_world) (ref 0)
         ["|   ┌── 8"; "└── 6"; "    └── 3"; "        └── 1"]).
Proof. reflexivity. Qed.

(** ** Inserting in ascending order *)

Lemma right_chain_insert f v t :
  right_chain t -> Forall (fun x => (x < v)%Z) (keys t) ->
  right_chain (tree_insert f v t) /\ keys (tree_insert f v t) = keys t ++ [v].
Proof.
  induction t as [|l _ a k r IHr]; intros Hc Hlt; [now split |].
  destruct Hc as [-> Hc]. cbn [keys app] in Hlt.
  apply Forall_cons in Hlt as [Hk Hlt]. cbn [tree_insert].
  rewrite (proj2 (Z.eqb_neq k v)) by lia. rewrite (proj2 (Z.ltb_lt k v)) by lia.
  destruct (IHr Hc Hlt) as [Hc' Ek]. split; [now split |].
  cbn [keys app]. now rewrite Ek.
Qed.

Lemma right_chain_height t : right_chain t -> tree_height t = size t.
Proof.
  induction t as [|l _ a k r IHr]; intros Hc; [reflexivity |].
  destruct Hc as [-> Hc]. cbn [tree_height size]. rewrite (IHr Hc). lia.
Qed.

Lemma right_chain_balanced t : right_chain t -> balanced t = (size t <=? 2).
Proof.
  induction t as [|l _ a k r IHr]; intros Hc; [reflexivity |].
  destruct Hc as [-> Hc]. cbn [balanced tree_height size]. cbn [plus].
  rewrite (IHr Hc), (right_chain_height r Hc).
  destruct (Nat.leb_spec (size r) 2), (Nat.leb_spec (S (size r)) 2),
    (Z.leb_spec (Z.abs (Z.of_nat 0 - Z.of_nat (size r))) 1); cbn; try reflexivity; lia.
Qed.

Section Ascending.
Context {U : Type}.
Variable StringToNumber : string -> number.
Implicit Types (w : World U) (t : tree).

Lemma run_ops_app fuel (ops1 ops2 : list (Op U)) w :
  run_ops StringToNumber fuel (ops1 ++ ops2) w
  = (run_ops StringToNumber fuel ops1 ;;; run_ops StringToNumber fuel ops2) w.
Proof.
  revert w. induction ops1 as [|op ops1 IH]; intros w; [reflexivity |].
  cbn [app run_ops]. unfold bind.
  destruct (run_op StringToNumber fuel op w) as [[] w1 | e w1 |]; [apply IH | easy | easy].
Qed.

Lemma insert_one_to_n_chain fuel n w :
  root w = null -> n < fuel ->
  exists w' t,
    run_ops StringToNumber fuel (insert_one_to_n n) w = Returns tt w' /\
    tree_at w' t /\ right_chain t /\ keys t = Z.of_nat <$> seq 1 n.
Proof.
  intros Hroot. induction n as [|n IH]; intros Hf.
  - exists w, Leaf. split; [reflexivity |]. split; [| now split].
    split; [exact Hroot | constructor].
  - destruct (IH ltac:(lia)) as (w1 & t & E & Ht & Hc & Ek).
    unfold insert_one_to_n. rewrite seq_S, fmap_app, run_ops_app.
    fold (insert_one_to_n (U := U) n).
    rewrite (bind_Returns _ _ _ _ _ E). cbn [fmap list_fmap run_ops run_op].
    assert (Hsz : size t = n) by (rewrite <- length_keys, Ek, length_fmap; apply length_seq).
    pose proof (tree_height_le_size t).
    destruct (insert_spec StringToNumber fuel (VNumber (Num (Z.of_nat (1 + n)))) w1 t Ht
                ltac:(reflexivity) ltac:(lia)) as (w2 & E2 & Ht2 & _).
    rewrite (bind_Returns _ _ _ _ _ E2).
    cbn [Number to_Z] in Ht2.
    assert (Hlt : Forall (fun x => (x < Z.of_nat (1 + n))%Z) (keys t)).
    { rewrite Ek. apply Forall_fmap, Forall_forall. intros i Hi.
      apply elem_of_seq in Hi. cbn. lia. }
    destruct (right_chain_insert (length (heap w1)) _ t Hc Hlt) as [Hc' Ek'].
    eexists _, _. split; [reflexivity |]. split; [exact Ht2 |]. split; [exact Hc' |].
    now rewrite Ek', Ek, fmap_app.
Qed.

(** X20.  [insert] never rebalances: inserting [1, 2, ..., n] in this order into
    an empty tree gives a tree of height [n], which [isBalanced()] rejects
    from three keys on. *)
Theorem insert_ascending_degenerates fuel n w :
  root w = null -> n < fuel ->
  exists w',
    run_ops StringToNumber fuel (insert_one_to_n n) w = Returns tt w' /\
    collect_inOrder fuel w' = Returns ((fun i => Num (Z.of_nat i)) <$> seq 1 n) w' /\
    height fuel (root w') w' = Returns (Z.of_nat n) w' /\
    isBalanced fuel w' = Returns (n <=? 2) w'.
Proof.
  intros Hroot Hf.
  destruct (insert_one_to_n_chain fuel n w Hroot Hf) as (w' & t & E & Ht & Hc & Ek).
  assert (Hsz : size t = n) by (rewrite <- length_keys, Ek, length_fmap; apply length_seq).
  pose proof (right_chain_height t Hc) as Hh.
  exists w'. split; [exact E |]. split; [| split].
  - rewrite (collect_inOrder_spec fuel w' t Ht ltac:(lia)), Ek.
    now rewrite <- list_fmap_compose.
  - rewrite (height_root_spec fuel w' t Ht ltac:(lia)). now rewrite Hh, Hsz.
  - rewrite (isBalanced_spec fuel w' t Ht ltac:(lia)).
    now rewrite (right_chain_balanced t Hc), Hsz.
Qed.

End Ascending.

Lemma insert_ascending_degenerates_witness :
  exists w',
    run_ops decimal_literal 4 (insert_one_to_n 3) empty_world = Returns tt w' /\
    collect_inOrder 4 w' = Returns ((fun i => Num (Z.of_nat i)) <$> seq 1 3) w' /\
    height 4 (root w') w' = Returns (Z.of_nat 3) w' /\
    isBalanced 4 w' = Returns (3 <=? 2) w'.
Proof.
  apply (insert_ascending_degenerates decimal_literal 4 3 empty_world).
  - reflexivity.
  - lia.
Defined.

(** ** Deleting what was inserted, deleting everything *)

Lemma tree_delete_insert f v t : v ∉ keys t -> tree_delete v (tree_insert f v t) = t.
Proof.
  induction t as [|l IHl a k r IHr]; intros Hnin.
  - cbn. now rewrite Z.ltb_irrefl.
  - cbn [keys] in Hnin. assert (k <> v) by (intros ->; apply Hnin; elems).
    cbn [tree_insert]. rewrite (proj2 (Z.eqb_neq k v)) by assumption.
    destruct (Z.ltb_spec k v) as [Hlt | Hge]; cbn [tree_delete].
    + rewrite (proj2 (Z.ltb_lt k v)) by lia. rewrite IHr; [easy | intros ?; apply Hnin; elems].
    + rewrite (proj2 (Z.ltb_ge k v)) by lia. rewrite (proj2 (Z.ltb_lt v k)) by lia.
      rewrite IHl; [easy | intros ?; apply Hnin; elems].
Qed.

Lemma shape_root h n t : shape h n t -> n = tree_ref t.
Proof. destruct t; [easy |]. intros Hs. now apply shape_Br_inv in Hs as (-> & _). Qed.

Lemma shape_agree h h' n n' t a :
  shape h n t -> shape h' n' t -> a ∈ locs t -> h' !! a = h !! a.
Proof.
  revert n n'. induction t as [|l IHl b k r IHr]; intros n n' Hs Hs' Ha; [easy |].
  apply shape_Br_inv in Hs as (-> & nl & nr & E & Hl & Hr).
  apply shape_Br_inv in Hs' as (-> & nl' & nr' & E' & Hl' & Hr').
  cbn [locs] in Ha.
  apply elem_of_app in Ha as [Ha | Ha]; [| apply elem_of_cons in Ha as [-> | Ha]].
  - now apply (IHl nl nl').
  - rewrite E, E'. now rewrite (shape_root _ _ _ Hl), (shape_root _ _ _ Hl'),
      (shape_root _ _ _ Hr), (shape_root _ _ _ Hr').
  - now apply (IHr nr nr').
Qed.

Lemma filter_not_in_cons (v : Z) (vs ks : list Z) :
  filter (fun x => x ∉ vs) (filter (fun x => x <> v) ks)
  = filter (fun x => x ∉ v :: vs) ks.
Proof.
  rewrite list_filter_filter. apply list_filter_iff. intros x.
  rewrite not_elem_of_cons. tauto.
Qed.

Section Undo.
Context {U : Type}.
Variable StringToNumber : string -> number.
Implicit Types (h : list Node) (r : NodeRef) (u : U) (w : World U) (t : tree).

Lemma insert_length fuel (v : JSValue U) w w' t :
  tree_at w t -> coercible StringToNumber v -> tree_height t < fuel ->
  to_Z (Number StringToNumber v) ∉ keys t ->
  insert StringToNumber fuel v w = Returns tt w' ->
  length (heap w') = S (length (heap w)).
Proof.
  intros [Hs _] Hv Hf Hnin E. destruct w as [h r u]. cbn [heap root] in *.
  destruct (insertRec_fresh fuel _ h r u r t Hs Hf Hnin) as (n' & h' & Erun & Hlen & _).
  revert E. unfold insert. rewrite Hv, (coercible_Num _ _ Hv).
  unfold bind at 1, get_root at 1. cbn [root].
  rewrite (bind_Returns _ _ _ _ _ Erun). unfold set_root. cbn [heap root user].
  now intros [= <-].
Qed.

Lemma deleteItem_length fuel (v : JSValue U) w w' t :
  tree_at w t -> coercible StringToNumber v -> tree_height t < fuel ->
  deleteItem StringToNumber fuel v w = Returns tt w' ->
  length (heap w') = length (heap w).
Proof.
  intros [Hs Hnd] Hv Hf E. destruct w as [h r u]. cbn [heap root] in *.
  destruct (deleteItemRec_spec fuel (to_Z (Number StringToNumber v)) h r u r t Hs Hnd Hf)
    as (h' & Erun & _ & _ & Hlen).
  revert E. unfold deleteItem. rewrite Hv, (coercible_Num _ _ Hv).
  unfold bind at 1, get_root at 1. cbn [root].
  rewrite (bind_Returns _ _ _ _ _ Erun). unfold set_root. cbn [heap root user].
  now intros [= <-].
Qed.

(** X21.  [deleteItem(v)] right after [insert(v)] of a new key gives the tree
    back: the same root, the same objects with the same fields; of the
    insertion only the object of the deleted node is left in the store. *)
Theorem deleteItem_undoes_insert fuel (v : JSValue U) w t :
  tree_at w t -> coercible StringToNumber v ->
  to_Z (Number StringToNumber v) ∉ keys t -> S (size t) < fuel ->
  exists w1 w2,
    insert StringToNumber fuel v w = Returns tt w1 /\
    deleteItem StringToNumber fuel v w1 = Returns tt w2 /\
    tree_at w2 t /\ root w2 = root w /\
    length (heap w2) = S (length (heap w)) /\
    (forall a, a ∈ locs t -> heap w2 !! a = heap w !! a).
Proof.
  intros Ht Hv Hnin Hf. pose proof (tree_height_le_size t) as Hh.
  set (k := to_Z (Number StringToNumber v)) in *.
  destruct (insert_spec StringToNumber fuel v w t Ht Hv ltac:(lia)) as (w1 & E1 & Ht1 & _).
  fold k in Ht1.
  pose proof (size_tree_insert (length (heap w)) k t) as Hsz.
  pose proof (tree_height_le_size (tree_insert (length (heap w)) k t)) as Hh1.
  destruct (deleteItem_spec StringToNumber fuel v w1 _ Ht1 Hv ltac:(lia))
    as (w2 & E2 & Ht2 & _).
  fold k in Ht2. rewrite tree_delete_insert in Ht2 by exact Hnin.
  exists w1, w2. split; [exact E1 |]. split; [exact E2 |]. split; [exact Ht2 |].
  pose proof Ht as [Hs _]. pose proof Ht2 as [Hs2 _]. split; [| split].
  - now rewrite (shape_root _ _ _ Hs), (shape_root _ _ _ Hs2).
  - rewrite (deleteItem_length fuel v w1 w2 _ Ht1 Hv ltac:(lia) E2).
    apply (insert_length fuel v w w1 t); auto. lia.
  - intros a Ha. exact (shape_agree _ _ _ _ t a Hs Hs2 Ha).
Qed.

(** X22.  A sequence of [deleteItem] calls leaves the keys that are not among
    the deleted numbers, in order, and creates no object; when every key
    is among them the tree is empty again. *)
Theorem deleteItem_each fuel (values : list (JSValue U)) w t :
  tree_at w t -> bst t -> Forall (coercible StringToNumber) values -> size t < fuel ->
  let vs := (fun v => to_Z (Number StringToNumber v)) <$> values in
  exists w',
    run_ops StringToNumber fuel (DeleteItem <$> values) w = Returns tt w' /\
    collect_inOrder fuel w' = Returns (Num <$> filter (fun k => k ∉ vs) (keys t)) w' /\
    length (heap w') = length (heap w) /\
    ((forall k, k ∈ keys t -> k ∈ vs) -> root w' = null).
Proof.
  intros Ht Hb Hall Hf vs.
  assert (Hinv : exists w' t',
            run_ops StringToNumber fuel (DeleteItem <$> values) w = Returns tt w' /\
            tree_at w' t' /\ size t' < fuel /\
            keys t' = filter (fun k => k ∉ vs) (keys t) /\
            length (heap w') = length (heap w)).
  { subst vs. revert w t Ht Hb Hf.
    induction Hall as [|v values Hv _ IH]; intros w t Ht Hb Hf.
    - exists w, t. split; [reflexivity |]. split; [exact Ht |]. split; [exact Hf |].
      split; [| reflexivity]. symmetry. apply filter_all, Forall_forall.
      intros x _. apply not_elem_of_nil.
    - pose proof (tree_height_le_size t) as Hh.
      destruct (deleteItem_spec StringToNumber fuel v w t Ht Hv ltac:(lia))
        as (w1 & E1 & Ht1 & _).
      pose proof (size_tree_delete (to_Z (Number StringToNumber v)) t) as Hsz.
      destruct (IH w1 _ Ht1 (bst_delete _ _ Hb) ltac:(lia))
        as (w' & t' & E & Ht' & Hf' & Ek & Hlen).
      exists w', t'. cbn [fmap list_fmap run_ops run_op].
      rewrite (bind_Returns _ _ _ _ _ E1). split; [exact E |]. split; [exact Ht' |].
      split; [exact Hf' |]. split.
      + rewrite Ek, keys_delete by exact Hb. apply filter_not_in_cons.
      + rewrite Hlen. apply (deleteItem_length fuel v w w1 t); auto. lia. }
  destruct Hinv as (w' & t' & E & Ht' & Hf' & Ek & Hlen).
  pose proof (tree_height_le_size t') as Hh'.
  exists w'. split; [exact E |]. split; [| split; [exact Hlen |]].
  - now rewrite (collect_inOrder_spec fuel w' t' Ht' ltac:(lia)), Ek.
  - intros Hsub. destruct Ht' as [Hs' _].
    rewrite (filter_none (fun k => k ∉ vs)) in Ek.
    + destruct t' as [|l a k r]; [exact Hs' |].
      cbn [keys] in Ek. now destruct (keys l).
    + apply Forall_forall. intros x Hx Hn. apply Hn, Hsub, Hx.
Qed.

End Undo.

Lemma deleteItem_undoes_insert_witness :
  exists w1 w2,
    insert decimal_literal 6 (VString "7") example_world = Returns tt w1 /\
    deleteItem decimal_literal 6 (VString "7") w1 = Returns tt w2 /\
    tree_at w2 example_tree /\ root w2 = root example_world /\
    length (heap w2) = S (length (heap example_world)) /\
    (forall a, a ∈ locs example_tree -> heap w2 !! a = heap example_world !! a).
Proof.
  apply (deleteItem_undoes_insert decimal_literal 6 (VString "7") example_world example_tree).
  - exact example_tree_at.
  - reflexivity.
  - cbn. compute_done.
  - cbn. lia.
Defined.

Lemma deleteItem_each_witness :
  exists w',
    run_ops decimal_literal 5
      (DeleteItem <$> [VNumber (Num 6); VString "1"; VNumber (Num 8); VNumber (Num 3)])
      example_world = Returns tt w' /\
    collect_inOrder 5 w'
    = Returns (Num <$> filter (fun k => k ∉ [6; 1; 8; 3]%Z) (keys example_tree)) w' /\
    length (heap w') = length (heap example_world) /\
    ((forall k, k ∈ keys example_tree -> k ∈ [6; 1; 8; 3]%Z) -> root w' = null).
Proof.
  apply (deleteItem_each decimal_literal 5
           [VNumber (Num 6); VString "1"; VNumber (Num 8); VNumber (Num 3)]
           example_world example_tree).
  - exact example_tree_at.
  - exact example_bst.
  - repeat constructor.
  - cbn. lia.
Defined.
